(** * TMS catalog engine: volumes, datasets, secondary indices, audit log

    A shallow embedding of the catalog core of the tape management system
    (include/tms_types.h, include/tms_system.h, include/tms_utils.h,
    include/error_codes.h, src/tms_tape_mgmt.cpp) and the properties of its
    allocation, reservation, lifecycle, batch and audit operations.

    Conventions of the embedding.
    - [std::string] is [string]; [operator<] on it is the bytewise
      lexicographic order, [String.le] / [String.leb].
    - [std::map<std::string, T>] is [gmap string T]; a range-for over it
      visits the keys in ascending order, which [sorted_elements] and
      [sorted_entries] reproduce.  [std::set<std::string>] is [gset string].
    - [uint64_t] and [size_t] are [N], each addition reduced modulo [2^64].
    - [system_clock::time_point] is a tick count in [Z]; the default
      constructed time point is [0].  Every operation receives the clock
      reading [now] as an argument: the several reads of
      [system_clock::now()] inside one locked operation are one instant.
    - An operation that mutates the engine is a function from the state to a
      result paired with the next state.  The state is what [TMSSystem]
      owns: both primary maps, the five indices, the audit log and the
      current user.  The process-wide [PerformanceMetrics] counters and the
      logger are not part of it. *)

From Stdlib Require Import ZArith NArith Ascii List Lia.
From stdpp Require Import base tactics option list gmap strings sorting pretty.

Set Warnings "-clear-no-such-hyp".

(** ** Machine integers *)

Definition UINT64_MOD : N := (2 ^ 64)%N.

(** [a + b] on [uint64_t]. *)
Definition u64_add (a b : N) : N := ((a + b) mod UINT64_MOD)%N.

(** ** Enumerations (tms_types.h, error_codes.h) *)

Inductive VolumeStatus :=
  | SCRATCH | PRIVATE | ARCHIVED | EXPIRED | MOUNTED | OFFLINE | RESERVED
  | VOLUME_ERROR.

(** [DS_EXPIRED] is [DatasetStatus::EXPIRED]; the plain name belongs to
    [VolumeStatus::EXPIRED]. *)
Inductive DatasetStatus :=
  | ACTIVE | MIGRATED | DS_EXPIRED | DELETED | RECALLED | PENDING.

Inductive TapeDensity :=
  | DENSITY_800BPI | DENSITY_1600BPI | DENSITY_6250BPI | DENSITY_3480
  | DENSITY_3490 | DENSITY_3590 | DENSITY_LTO1 | DENSITY_LTO2 | DENSITY_LTO3
  | DENSITY_LTO4 | DENSITY_LTO5 | DENSITY_LTO6 | DENSITY_LTO7 | DENSITY_LTO8
  | DENSITY_LTO9.

(** The error codes the catalog operations below return. *)
Inductive TMSError :=
  | VOLUME_NOT_FOUND | VOLUME_ALREADY_EXISTS | VOLUME_MOUNTED
  | VOLUME_HAS_DATASETS | VOLUME_RESERVED | VOLUME_LIMIT_REACHED
  | DATASET_NOT_FOUND | DATASET_ALREADY_EXISTS | DATASET_LIMIT_REACHED
  | INVALID_VOLSER | INVALID_DATASET_NAME | INVALID_STATE
  | ACCESS_DENIED | NO_SCRATCH_AVAILABLE.

Global Instance VolumeStatus_eq_dec : EqDecision VolumeStatus.
Proof. solve_decision. Defined.
Global Instance DatasetStatus_eq_dec : EqDecision DatasetStatus.
Proof. solve_decision. Defined.
Global Instance TapeDensity_eq_dec : EqDecision TapeDensity.
Proof. solve_decision. Defined.
Global Instance TMSError_eq_dec : EqDecision TMSError.
Proof. solve_decision. Defined.

(** The numeric value of each enumerator in [enum class TMSError]. *)
Definition error_value (e : TMSError) : Z :=
  match e with
  | VOLUME_NOT_FOUND => 100
  | VOLUME_ALREADY_EXISTS => 101
  | VOLUME_MOUNTED => 103
  | VOLUME_HAS_DATASETS => 107
  | VOLUME_RESERVED => 110
  | VOLUME_LIMIT_REACHED => 112
  | DATASET_NOT_FOUND => 200
  | DATASET_ALREADY_EXISTS => 201
  | DATASET_LIMIT_REACHED => 206
  | INVALID_VOLSER => 600
  | INVALID_DATASET_NAME => 601
  | INVALID_STATE => 603
  | ACCESS_DENIED => 700
  | NO_SCRATCH_AVAILABLE => 900
  end%Z.

Record ErrorInfo := { code : TMSError; message : string }.

(** [Result<T>]: a value or an [ErrorInfo]. *)
Inductive Result (T : Type) :=
  | ok (value : T)
  | err (error : ErrorInfo).
Arguments ok {T} value.
Arguments err {T} error.

(** [OperationResult] carries no value. *)
Definition OperationResult := Result unit.

Definition is_success {T} (r : Result T) : bool :=
  match r with ok _ => true | err _ => false end.

Definition error_code {T} (r : Result T) : option TMSError :=
  match r with ok _ => None | err e => Some (code e) end.

Definition fail {T} (c : TMSError) (msg : string) : Result T :=
  err {| code := c; message := msg |}.

(** ** Constants (tms_version.h) and validation (tms_utils.h) *)

Definition MAX_VOLSER_LENGTH : nat := 6.
Definition MAX_DATASET_NAME_LENGTH : nat := 44.
Definition MAX_PARALLEL_OPERATIONS : nat := 16.

(** [std::isalnum] in the "C" locale. *)
Definition isalnum (c : ascii) : bool :=
  let n := nat_of_ascii c in
  ((48 <=? n) && (n <=? 57)) || ((65 <=? n) && (n <=? 90))
  || ((97 <=? n) && (n <=? 122)).

Definition chars (s : string) : list ascii := String.list_ascii_of_string s.

Definition validate_volser (volser : string) : bool :=
  if decide (volser = "") then false
  else if MAX_VOLSER_LENGTH <? String.length volser then false
  else forallb isalnum (chars volser).

Definition validate_dataset_name (name : string) : bool :=
  if decide (name = "") then false
  else if MAX_DATASET_NAME_LENGTH <? String.length name then false
  else forallb
         (λ c, isalnum c || bool_decide (c = "."%char)
               || bool_decide (c = "-"%char) || bool_decide (c = "_"%char))
         (chars name).

Definition volume_status_to_string (st : VolumeStatus) : string :=
  match st with
  | SCRATCH => "SCRATCH"
  | PRIVATE => "PRIVATE"
  | ARCHIVED => "ARCHIVED"
  | EXPIRED => "EXPIRED"
  | MOUNTED => "MOUNTED"
  | OFFLINE => "OFFLINE"
  | RESERVED => "RESERVED"
  | VOLUME_ERROR => "ERROR"
  end.

(** The parsers of the catalog file: an unknown word reads as the default
    enumerator. *)
Definition string_to_volume_status (str : string) : VolumeStatus :=
  if decide (str = "SCRATCH") then SCRATCH
  else if decide (str = "PRIVATE") then PRIVATE
  else if decide (str = "ARCHIVED") then ARCHIVED
  else if decide (str = "EXPIRED") then EXPIRED
  else if decide (str = "MOUNTED") then MOUNTED
  else if decide (str = "OFFLINE") then OFFLINE
  else if decide (str = "RESERVED") then RESERVED
  else if decide (str = "ERROR") then VOLUME_ERROR
  else SCRATCH.

Definition dataset_status_to_string (st : DatasetStatus) : string :=
  match st with
  | ACTIVE => "ACTIVE"
  | MIGRATED => "MIGRATED"
  | DS_EXPIRED => "EXPIRED"
  | DELETED => "DELETED"
  | RECALLED => "RECALLED"
  | PENDING => "PENDING"
  end.

Definition string_to_dataset_status (str : string) : DatasetStatus :=
  if decide (str = "ACTIVE") then ACTIVE
  else if decide (str = "MIGRATED") then MIGRATED
  else if decide (str = "EXPIRED") then DS_EXPIRED
  else if decide (str = "DELETED") then DELETED
  else if decide (str = "RECALLED") then RECALLED
  else if decide (str = "PENDING") then PENDING
  else ACTIVE.

Definition density_to_string (d : TapeDensity) : string :=
  match d with
  | DENSITY_800BPI => "800BPI"
  | DENSITY_1600BPI => "1600BPI"
  | DENSITY_6250BPI => "6250BPI"
  | DENSITY_3480 => "3480"
  | DENSITY_3490 => "3490"
  | DENSITY_3590 => "3590"
  | DENSITY_LTO1 => "LTO-1"
  | DENSITY_LTO2 => "LTO-2"
  | DENSITY_LTO3 => "LTO-3"
  | DENSITY_LTO4 => "LTO-4"
  | DENSITY_LTO5 => "LTO-5"
  | DENSITY_LTO6 => "LTO-6"
  | DENSITY_LTO7 => "LTO-7"
  | DENSITY_LTO8 => "LTO-8"
  | DENSITY_LTO9 => "LTO-9"
  end.

Definition string_to_density (str : string) : TapeDensity :=
  if decide (str = "800BPI") then DENSITY_800BPI
  else if decide (str = "1600BPI") then DENSITY_1600BPI
  else if decide (str = "6250BPI") then DENSITY_6250BPI
  else if decide (str = "3480") then DENSITY_3480
  else if decide (str = "3490") then DENSITY_3490
  else if decide (str = "3590") then DENSITY_3590
  else if decide (str = "LTO-1") then DENSITY_LTO1
  else if decide (str = "LTO-2") then DENSITY_LTO2
  else if decide (str = "LTO-3") then DENSITY_LTO3
  else if decide (str = "LTO-4") then DENSITY_LTO4
  else if decide (str = "LTO-5") then DENSITY_LTO5
  else if decide (str = "LTO-6") then DENSITY_LTO6
  else if decide (str = "LTO-7") then DENSITY_LTO7
  else if decide (str = "LTO-8") then DENSITY_LTO8
  else if decide (str = "LTO-9") then DENSITY_LTO9
  else DENSITY_LTO3.

(** [text.find(pattern) != std::string::npos]. *)
Definition contains (pattern text : string) : bool :=
  bool_decide (is_Some (String.index 0 pattern text)).

Definition MiB : N := (1024 * 1024)%N.
Definition GiB : N := (1024 * 1024 * 1024)%N.

Definition get_density_capacity (d : TapeDensity) : N :=
  match d with
  | DENSITY_800BPI => 40 * MiB
  | DENSITY_1600BPI => 80 * MiB
  | DENSITY_6250BPI => 170 * MiB
  | DENSITY_3480 => 200 * MiB
  | DENSITY_3490 => 800 * MiB
  | DENSITY_3590 => 60 * GiB
  | DENSITY_LTO1 => 100 * GiB
  | DENSITY_LTO2 => 200 * GiB
  | DENSITY_LTO3 => 400 * GiB
  | DENSITY_LTO4 => 800 * GiB
  | DENSITY_LTO5 => 1500 * GiB
  | DENSITY_LTO6 => 2500 * GiB
  | DENSITY_LTO7 => 6000 * GiB
  | DENSITY_LTO8 => 12000 * GiB
  | DENSITY_LTO9 => 18000 * GiB
  end%N.

(** ** Time *)

(** Ticks of [system_clock::duration] per second. *)
Definition TICKS_PER_SECOND : Z := 1000000000.

Definition seconds (n : Z) : Z := (n * TICKS_PER_SECOND)%Z.
Definition hours (n : Z) : Z := seconds (n * 3600).

(** The tick count of a time point and the count of a
    [std::chrono::seconds] are [int64_t].  The sum of a time point and a
    duration, and the conversion of seconds to ticks, are written out on
    64-bit integers: a result that is not representable is the
    two's-complement one (signed overflow is undefined in C++; this is the
    value the machine arithmetic of the build targets leaves). *)
Definition int64_wrap (z : Z) : Z := ((z + 2 ^ 63) mod 2 ^ 64 - 2 ^ 63)%Z.

Definition int64_representable (z : Z) : Prop := (- 2 ^ 63 ≤ z < 2 ^ 63)%Z.

(** The conversion of a [std::chrono::seconds] to [system_clock::duration]:
    the count times [TICKS_PER_SECOND], in [int64_t]. *)
Definition to_ticks (secs : Z) : Z := int64_wrap (seconds secs).

(** [tp + d] and [tp += d] for a time point [tp] and a tick count [d]. *)
Definition time_point_add (tp d : Z) : Z := int64_wrap (tp + d).

(** ** Ordered traversal of [std::set] and [std::map] *)

Definition sorted_elements (X : gset string) : list string :=
  merge_sort String.le (elements X).

Definition entry_le {V} (a b : string * V) : Prop := String.le a.1 b.1.

Global Instance entry_le_dec {V} : RelDecision (@entry_le V).
Proof. intros a b. unfold entry_le. apply _. Defined.

Definition sorted_entries {V} (m : gmap string V) : list (string * V) :=
  merge_sort entry_le (map_to_list m).

(** ** Secondary index (tms_system.h, [SecondaryIndex<std::string>])

    [index_] maps an attribute value to the set of primary keys that carry
    it. *)

Module SecondaryIndex.

Abbreviation t := (gmap string (gset string)).

(** [index_[attr_value].insert(key)], skipped for the empty value. *)
Definition add (attr_value key : string) (index_ : t) : t :=
  if decide (attr_value = "") then index_
  else <[attr_value := {[key]} ∪ default ∅ (index_ !! attr_value)]> index_.

(** Erase [key] under [attr_value]; drop the entry once its set is empty. *)
Definition remove (attr_value key : string) (index_ : t) : t :=
  match index_ !! attr_value with
  | Some keys =>
      let keys' := keys ∖ {[key]} in
      if decide (keys' = ∅) then delete attr_value index_
      else <[attr_value := keys']> index_
  | None => index_
  end.

Definition update (old_value new_value key : string) (index_ : t) : t :=
  add new_value key (remove old_value key index_).

Definition find (attr_value : string) (index_ : t) : gset string :=
  default ∅ (index_ !! attr_value).

Definition get_all_values (index_ : t) : list string :=
  sorted_elements (dom index_).

Definition clear (index_ : t) : t := ∅.

End SecondaryIndex.

(** ** Audit log (tms_types.h [AuditRecord], tms_system.h [AuditLog]) *)

Record AuditRecord := {
  timestamp : Z;
  operation : string;
  user : string;
  target : string;
  details : string;
  success : bool
}.

Module AuditLog.

Record t := mk {
  records_ : list AuditRecord;
  max_records_ : N;
  pruned_count_ : N
}.

(** [explicit AuditLog(size_t max_records)]. *)
Definition make (max_records : N) : t :=
  {| records_ := []; max_records_ := max_records; pruned_count_ := 0 |}.

Definition size (log : t) : N := N.of_nat (length (records_ log)).

(** [prune()]: erase the oldest [max_records_ / 5] records. *)
Definition prune (log : t) : t :=
  let to_remove := (max_records_ log / 5)%N in
  if (0 <? to_remove)%N && (to_remove <? size log)%N then
    {| records_ := drop (N.to_nat to_remove) (records_ log);
       max_records_ := max_records_ log;
       pruned_count_ := u64_add (pruned_count_ log) to_remove |}
  else log.

(** [add(const AuditRecord&)]: append, then prune when over capacity. *)
Definition add (record : AuditRecord) (log : t) : t :=
  let log' := {| records_ := records_ log ++ [record];
                 max_records_ := max_records_ log;
                 pruned_count_ := pruned_count_ log |} in
  if (max_records_ log' <? size log')%N then prune log' else log'.

(** [add(operation, user, target, details, success)]. *)
Definition add_fields (now : Z) (operation user target details : string)
    (success : bool) (log : t) : t :=
  add {| timestamp := now; operation := operation; user := user;
         target := target; details := details; success := success |} log.

Definition clear (log : t) : t :=
  {| records_ := []; max_records_ := max_records_ log; pruned_count_ := 0 |}.

(** Insert the records of [recs], oldest first. *)
Definition add_all (recs : list AuditRecord) (log : t) : t :=
  foldl (λ l r, add r l) log recs.

(** [get_recent(count)]: the records from index [start] to the end. *)
Definition get_recent (count : N) (log : t) : list AuditRecord :=
  let start := if (count <? size log)%N then (size log - count)%N else 0%N in
  drop (N.to_nat start) (records_ log).

(** The test of [search] on one record: a non-empty filter must occur in
    the field it filters. *)
Definition record_matches (op_filter target_filter : string)
    (r : AuditRecord) : bool :=
  let match_ := true in
  let match_ := if negb (bool_decide (op_filter = ""))
                   && negb (contains op_filter (operation r))
                then false else match_ in
  if negb (bool_decide (target_filter = ""))
     && negb (contains target_filter (target r))
  then false else match_.

(** The loop of [search] over the records from newest to oldest; it stops
    once [result] holds [count] records. *)
Fixpoint search_loop (op_filter target_filter : string) (count : N)
    (newest_first result : list AuditRecord) : list AuditRecord :=
  match newest_first with
  | [] => result
  | r :: rest =>
      if (N.of_nat (length result) <? count)%N then
        search_loop op_filter target_filter count rest
          (if record_matches op_filter target_filter r then result ++ [r]
           else result)
      else result
  end.

Definition search (op_filter target_filter : string) (count : N) (log : t)
    : list AuditRecord :=
  search_loop op_filter target_filter count (rev (records_ log)) [].

(** [set_max_records(max)]: store the limit, prune when over it. *)
Definition set_max_records (max : N) (log : t) : t :=
  let log' := {| records_ := records_ log; max_records_ := max;
                 pruned_count_ := pruned_count_ log |} in
  if (max_records_ log' <? size log')%N then prune log' else log'.

End AuditLog.

(** ** Volumes and datasets (tms_types.h)

    The records keep the fields the catalog operations read or write.  The
    floating-point [health_score] and the descriptive fields no operation
    below inspects (location, notes, counters of mounts and errors,
    encryption and tier metadata) are left out. *)

Module TapeVolume.

Record t := mk {
  volser : string;
  status : VolumeStatus;
  density : TapeDensity;
  pool : string;
  owner : string;
  creation_date : Z;
  expiration_date : Z;
  last_used : Z;
  capacity_bytes : N;
  used_bytes : N;
  datasets : list string;
  tags : gset string;
  reserved_by : string;
  reservation_expires : Z;
  last_health_check : Z
}.

Definition is_expired (now : Z) (v : t) : bool :=
  bool_decide (expiration_date v < now)%Z.

Definition is_reserved (now : Z) (v : t) : bool :=
  negb (bool_decide (reserved_by v = ""))
  && bool_decide (now < reservation_expires v)%Z.

Definition is_available_for_scratch (now : Z) (v : t) : bool :=
  bool_decide (status v = SCRATCH) && negb (is_reserved now v)
  && negb (is_expired now v).

(** Field assignments. *)
Definition set_status (x : VolumeStatus) (v : t) : t :=
  mk (volser v) x (density v) (pool v) (owner v) (creation_date v)
     (expiration_date v) (last_used v) (capacity_bytes v) (used_bytes v)
     (datasets v) (tags v) (reserved_by v) (reservation_expires v)
     (last_health_check v).
Definition set_creation_date (x : Z) (v : t) : t :=
  mk (volser v) (status v) (density v) (pool v) (owner v) x
     (expiration_date v) (last_used v) (capacity_bytes v) (used_bytes v)
     (datasets v) (tags v) (reserved_by v) (reservation_expires v)
     (last_health_check v).
Definition set_expiration_date (x : Z) (v : t) : t :=
  mk (volser v) (status v) (density v) (pool v) (owner v) (creation_date v)
     x (last_used v) (capacity_bytes v) (used_bytes v)
     (datasets v) (tags v) (reserved_by v) (reservation_expires v)
     (last_health_check v).
Definition set_last_used (x : Z) (v : t) : t :=
  mk (volser v) (status v) (density v) (pool v) (owner v) (creation_date v)
     (expiration_date v) x (capacity_bytes v) (used_bytes v)
     (datasets v) (tags v) (reserved_by v) (reservation_expires v)
     (last_health_check v).
Definition set_capacity_bytes (x : N) (v : t) : t :=
  mk (volser v) (status v) (density v) (pool v) (owner v) (creation_date v)
     (expiration_date v) (last_used v) x (used_bytes v)
     (datasets v) (tags v) (reserved_by v) (reservation_expires v)
     (last_health_check v).
Definition set_used_bytes (x : N) (v : t) : t :=
  mk (volser v) (status v) (density v) (pool v) (owner v) (creation_date v)
     (expiration_date v) (last_used v) (capacity_bytes v) x
     (datasets v) (tags v) (reserved_by v) (reservation_expires v)
     (last_health_check v).
Definition set_datasets (x : list string) (v : t) : t :=
  mk (volser v) (status v) (density v) (pool v) (owner v) (creation_date v)
     (expiration_date v) (last_used v) (capacity_bytes v) (used_bytes v)
     x (tags v) (reserved_by v) (reservation_expires v)
     (last_health_check v).
Definition set_reserved_by (x : string) (v : t) : t :=
  mk (volser v) (status v) (density v) (pool v) (owner v) (creation_date v)
     (expiration_date v) (last_used v) (capacity_bytes v) (used_bytes v)
     (datasets v) (tags v) x (reservation_expires v)
     (last_health_check v).
Definition set_reservation_expires (x : Z) (v : t) : t :=
  mk (volser v) (status v) (density v) (pool v) (owner v) (creation_date v)
     (expiration_date v) (last_used v) (capacity_bytes v) (used_bytes v)
     (datasets v) (tags v) (reserved_by v) x
     (last_health_check v).
Definition set_last_health_check (x : Z) (v : t) : t :=
  mk (volser v) (status v) (density v) (pool v) (owner v) (creation_date v)
     (expiration_date v) (last_used v) (capacity_bytes v) (used_bytes v)
     (datasets v) (tags v) (reserved_by v) (reservation_expires v) x.

Definition set_pool (x : string) (v : t) : t :=
  mk (volser v) (status v) (density v) x (owner v) (creation_date v)
     (expiration_date v) (last_used v) (capacity_bytes v) (used_bytes v)
     (datasets v) (tags v) (reserved_by v) (reservation_expires v)
     (last_health_check v).
Definition set_tags (x : gset string) (v : t) : t :=
  mk (volser v) (status v) (density v) (pool v) (owner v) (creation_date v)
     (expiration_date v) (last_used v) (capacity_bytes v) (used_bytes v)
     (datasets v) x (reserved_by v) (reservation_expires v)
     (last_health_check v).

(** A default-constructed [TapeVolume] with the given serial. *)
Definition default (volser : string) : t :=
  mk volser SCRATCH DENSITY_LTO3 "" "" 0 0 0 0 0 [] ∅ "" 0 0.

End TapeVolume.

Module Dataset.

Record t := mk {
  name : string;
  volser : string;
  status : DatasetStatus;
  size_bytes : N;
  owner : string;
  creation_date : Z;
  expiration_date : Z;
  tags : gset string
}.

Definition set_creation_date (x : Z) (d : t) : t :=
  mk (name d) (volser d) (status d) (size_bytes d) (owner d) x
     (expiration_date d) (tags d).
Definition set_expiration_date (x : Z) (d : t) : t :=
  mk (name d) (volser d) (status d) (size_bytes d) (owner d)
     (creation_date d) x (tags d).

Definition set_status (x : DatasetStatus) (d : t) : t :=
  mk (name d) (volser d) x (size_bytes d) (owner d) (creation_date d)
     (expiration_date d) (tags d).
Definition set_tags (x : gset string) (d : t) : t :=
  mk (name d) (volser d) (status d) (size_bytes d) (owner d)
     (creation_date d) (expiration_date d) x.

(** A default-constructed [Dataset] with the given name, volume and size. *)
Definition default (name volser : string) (size_bytes : N) : t :=
  mk name volser ACTIVE size_bytes "" 0 0 ∅.

End Dataset.

(** [BatchResult] without the wall-clock [duration]. *)
Module BatchResult.

Record t := mk {
  total : N;
  succeeded : N;
  failed : N;
  skipped : N;
  failures : list (string * string)
}.

End BatchResult.

(** The limits read from [Configuration::instance()]. *)
Record Configuration := {
  get_max_volumes : N;
  get_max_datasets : N
}.

Definition default_configuration : Configuration :=
  {| get_max_volumes := 100000; get_max_datasets := 1000000 |}.

(** ** The catalog engine (tms_system.h [TMSSystem], tms_tape_mgmt.cpp) *)

Module TMSSystem.

Record t := mk {
  volumes_ : gmap string TapeVolume.t;
  datasets_ : gmap string Dataset.t;
  volume_owner_index_ : SecondaryIndex.t;
  volume_pool_index_ : SecondaryIndex.t;
  volume_tag_index_ : SecondaryIndex.t;
  dataset_owner_index_ : SecondaryIndex.t;
  dataset_tag_index_ : SecondaryIndex.t;
  audit_log_ : AuditLog.t;
  current_user_ : string
}.

(** A freshly constructed engine over an empty catalog. *)
Definition empty : t :=
  mk ∅ ∅ ∅ ∅ ∅ ∅ ∅ (AuditLog.make 10000) "SYSTEM".

Definition set_volumes (x : gmap string TapeVolume.t) (s : t) : t :=
  mk x (datasets_ s) (volume_owner_index_ s) (volume_pool_index_ s)
     (volume_tag_index_ s) (dataset_owner_index_ s) (dataset_tag_index_ s)
     (audit_log_ s) (current_user_ s).
Definition set_datasets (x : gmap string Dataset.t) (s : t) : t :=
  mk (volumes_ s) x (volume_owner_index_ s) (volume_pool_index_ s)
     (volume_tag_index_ s) (dataset_owner_index_ s) (dataset_tag_index_ s)
     (audit_log_ s) (current_user_ s).
Definition set_volume_owner_index (x : SecondaryIndex.t) (s : t) : t :=
  mk (volumes_ s) (datasets_ s) x (volume_pool_index_ s)
     (volume_tag_index_ s) (dataset_owner_index_ s) (dataset_tag_index_ s)
     (audit_log_ s) (current_user_ s).
Definition set_volume_pool_index (x : SecondaryIndex.t) (s : t) : t :=
  mk (volumes_ s) (datasets_ s) (volume_owner_index_ s) x
     (volume_tag_index_ s) (dataset_owner_index_ s) (dataset_tag_index_ s)
     (audit_log_ s) (current_user_ s).
Definition set_volume_tag_index (x : SecondaryIndex.t) (s : t) : t :=
  mk (volumes_ s) (datasets_ s) (volume_owner_index_ s)
     (volume_pool_index_ s) x (dataset_owner_index_ s)
     (dataset_tag_index_ s) (audit_log_ s) (current_user_ s).
Definition set_dataset_owner_index (x : SecondaryIndex.t) (s : t) : t :=
  mk (volumes_ s) (datasets_ s) (volume_owner_index_ s)
     (volume_pool_index_ s) (volume_tag_index_ s) x
     (dataset_tag_index_ s) (audit_log_ s) (current_user_ s).
Definition set_dataset_tag_index (x : SecondaryIndex.t) (s : t) : t :=
  mk (volumes_ s) (datasets_ s) (volume_owner_index_ s)
     (volume_pool_index_ s) (volume_tag_index_ s) (dataset_owner_index_ s)
     x (audit_log_ s) (current_user_ s).
Definition set_audit_log (x : AuditLog.t) (s : t) : t :=
  mk (volumes_ s) (datasets_ s) (volume_owner_index_ s)
     (volume_pool_index_ s) (volume_tag_index_ s) (dataset_owner_index_ s)
     (dataset_tag_index_ s) x (current_user_ s).

Definition add_audit_record (now : Z) (operation target details : string)
    (s : t) : t :=
  set_audit_log
    (AuditLog.add_fields now operation (current_user_ s) target details true
       (audit_log_ s)) s.

(** [for (tag : tags) index.add(tag, key)] and its [remove] twin. *)
Definition add_tags (tags : gset string) (key : string)
    (index_ : SecondaryIndex.t) : SecondaryIndex.t :=
  foldl (λ idx tag, SecondaryIndex.add tag key idx) index_
    (sorted_elements tags).

Definition remove_tags (tags : gset string) (key : string)
    (index_ : SecondaryIndex.t) : SecondaryIndex.t :=
  foldl (λ idx tag, SecondaryIndex.remove tag key idx) index_
    (sorted_elements tags).

(** The two tag loops of [update_volume] and [update_dataset]: drop the
    old tags missing from the new set, add the new tags missing from the
    old one. *)
Definition retag (old_tags new_tags : gset string) (key : string)
    (index_ : SecondaryIndex.t) : SecondaryIndex.t :=
  let idx1 :=
    foldl (λ idx old_tag,
             if decide (old_tag ∈ new_tags) then idx
             else SecondaryIndex.remove old_tag key idx)
      index_ (sorted_elements old_tags) in
  foldl (λ idx new_tag,
           if decide (new_tag ∈ old_tags) then idx
           else SecondaryIndex.add new_tag key idx)
    idx1 (sorted_elements new_tags).

(** *** Volume management *)

(** The copy [add_volume] stores: unset dates and capacity receive their
    defaults and the health check is stamped. *)
Definition prepare_volume (now : Z) (volume : TapeVolume.t) : TapeVolume.t :=
  let vol := volume in
  let vol := if decide (TapeVolume.creation_date vol = 0%Z)
             then TapeVolume.set_creation_date now vol else vol in
  let vol := if decide (TapeVolume.expiration_date vol = 0%Z)
             then TapeVolume.set_expiration_date
                    (time_point_add (TapeVolume.creation_date vol)
                       (hours (24 * 365))) vol
             else vol in
  let vol := if decide (TapeVolume.capacity_bytes vol = 0%N)
             then TapeVolume.set_capacity_bytes
                    (get_density_capacity (TapeVolume.density vol)) vol
             else vol in
  TapeVolume.set_last_health_check now vol.

Global Arguments prepare_volume : simpl never.
Global Arguments add_tags : simpl never.
Global Arguments remove_tags : simpl never.
Global Arguments retag : simpl never.

Definition add_volume (cfg : Configuration) (now : Z)
    (volume : TapeVolume.t) (s : t) : OperationResult * t :=
  if negb (validate_volser (TapeVolume.volser volume)) then
    (fail INVALID_VOLSER
       ("Invalid volume serial: " +:+ TapeVolume.volser volume), s)
  else if (get_max_volumes cfg <=? N.of_nat (size (volumes_ s)))%N then
    (fail VOLUME_LIMIT_REACHED "Maximum volume limit reached", s)
  else if decide (is_Some (volumes_ s !! TapeVolume.volser volume)) then
    (fail VOLUME_ALREADY_EXISTS
       ("Volume already exists: " +:+ TapeVolume.volser volume), s)
  else
    let vol := prepare_volume now volume in
    let key := TapeVolume.volser vol in
    let s := set_volumes (<[key := vol]> (volumes_ s)) s in
    let s := set_volume_owner_index
               (SecondaryIndex.add (TapeVolume.owner vol) key
                  (volume_owner_index_ s)) s in
    let s := set_volume_pool_index
               (SecondaryIndex.add (TapeVolume.pool vol) key
                  (volume_pool_index_ s)) s in
    let s := set_volume_tag_index
               (add_tags (TapeVolume.tags vol) key (volume_tag_index_ s)) s in
    (ok (),
     add_audit_record now "ADD_VOLUME" key
       ("Status: " +:+ volume_status_to_string (TapeVolume.status vol)) s).

(** One round of the cascade loop of a forced [delete_volume]. *)
Definition cascade_delete_dataset (s : t) (ds_name : string) : t :=
  match datasets_ s !! ds_name with
  | Some ds =>
      let s := set_dataset_owner_index
                 (SecondaryIndex.remove (Dataset.owner ds) ds_name
                    (dataset_owner_index_ s)) s in
      let s := set_dataset_tag_index
                 (remove_tags (Dataset.tags ds) ds_name
                    (dataset_tag_index_ s)) s in
      set_datasets (delete ds_name (datasets_ s)) s
  | None => s
  end.

Definition delete_volume (now : Z) (volser : string) (force : bool)
    (s : t) : OperationResult * t :=
  match volumes_ s !! volser with
  | None => (fail VOLUME_NOT_FOUND ("Volume not found: " +:+ volser), s)
  | Some v =>
      if negb force
         && negb (bool_decide (TapeVolume.datasets v = [])) then
        (fail VOLUME_HAS_DATASETS
           ("Volume has " +:+ pretty (length (TapeVolume.datasets v))
            +:+ " datasets"), s)
      else if decide (TapeVolume.status v = MOUNTED) then
        (fail VOLUME_MOUNTED "Cannot delete mounted volume", s)
      else if TapeVolume.is_reserved now v then
        (fail VOLUME_RESERVED "Cannot delete reserved volume", s)
      else
        let s := set_volume_owner_index
                   (SecondaryIndex.remove (TapeVolume.owner v) volser
                      (volume_owner_index_ s)) s in
        let s := set_volume_pool_index
                   (SecondaryIndex.remove (TapeVolume.pool v) volser
                      (volume_pool_index_ s)) s in
        let s := set_volume_tag_index
                   (remove_tags (TapeVolume.tags v) volser
                      (volume_tag_index_ s)) s in
        let s := if force
                 then foldl cascade_delete_dataset s (TapeVolume.datasets v)
                 else s in
        let s := set_volumes (delete volser (volumes_ s)) s in
        (ok (),
         add_audit_record now "DELETE_VOLUME" volser
           ("Force: " +:+ (if force then "yes" else "no")) s)
  end.

Definition get_volume (volser : string) (s : t) : Result TapeVolume.t :=
  match volumes_ s !! volser with
  | None => fail VOLUME_NOT_FOUND ("Volume not found: " +:+ volser)
  | Some v => ok v
  end.

Definition update_volume (now : Z) (volume : TapeVolume.t) (s : t)
    : OperationResult * t :=
  let key := TapeVolume.volser volume in
  match volumes_ s !! key with
  | None => (fail VOLUME_NOT_FOUND ("Volume not found: " +:+ key), s)
  | Some old =>
      let s := if decide (TapeVolume.owner old ≠ TapeVolume.owner volume)
               then set_volume_owner_index
                      (SecondaryIndex.update (TapeVolume.owner old)
                         (TapeVolume.owner volume) key
                         (volume_owner_index_ s)) s
               else s in
      let s := if decide (TapeVolume.pool old ≠ TapeVolume.pool volume)
               then set_volume_pool_index
                      (SecondaryIndex.update (TapeVolume.pool old)
                         (TapeVolume.pool volume) key
                         (volume_pool_index_ s)) s
               else s in
      let s := set_volume_tag_index
                 (retag (TapeVolume.tags old) (TapeVolume.tags volume) key
                    (volume_tag_index_ s)) s in
      let s := set_volumes (<[key := volume]> (volumes_ s)) s in
      (ok (), add_audit_record now "UPDATE_VOLUME" key "Updated" s)
  end.

(** Collect the records of the keys in [keys], in ascending key order. *)
Definition collect {V} (m : gmap string V) (keys : gset string) : list V :=
  omap (λ k, m !! k) (sorted_elements keys).

Definition get_volumes_by_owner (owner : string) (s : t)
    : list TapeVolume.t :=
  collect (volumes_ s) (SecondaryIndex.find owner (volume_owner_index_ s)).

Definition get_volumes_by_pool (pool : string) (s : t)
    : list TapeVolume.t :=
  collect (volumes_ s) (SecondaryIndex.find pool (volume_pool_index_ s)).

Definition find_volumes_by_tag (tag : string) (s : t) : list TapeVolume.t :=
  collect (volumes_ s) (SecondaryIndex.find tag (volume_tag_index_ s)).

Definition get_datasets_by_owner (owner : string) (s : t) : list Dataset.t :=
  collect (datasets_ s) (SecondaryIndex.find owner (dataset_owner_index_ s)).

Definition find_datasets_by_tag (tag : string) (s : t) : list Dataset.t :=
  collect (datasets_ s) (SecondaryIndex.find tag (dataset_tag_index_ s)).

(** *** Dataset management *)

(** The "update volume" block of [add_dataset]: append the name, add the
    size to [used_bytes], turn a SCRATCH volume PRIVATE. *)
Definition attach_dataset (ds : Dataset.t) (v : TapeVolume.t)
    : TapeVolume.t :=
  let v := TapeVolume.set_datasets
             (TapeVolume.datasets v ++ [Dataset.name ds]) v in
  let v := TapeVolume.set_used_bytes
             (u64_add (TapeVolume.used_bytes v) (Dataset.size_bytes ds)) v in
  if decide (TapeVolume.status v = SCRATCH)
  then TapeVolume.set_status PRIVATE v else v.

(** The "update volume" block of [delete_dataset]: erase the name from
    the list, subtract the size floored at zero, turn a PRIVATE volume
    whose list became empty back to SCRATCH. *)
Definition detach_dataset (ds : Dataset.t) (name : string)
    (v : TapeVolume.t) : TapeVolume.t :=
  let ds_list := filter (λ n, n ≠ name) (TapeVolume.datasets v) in
  let v := TapeVolume.set_datasets ds_list v in
  let v := if (Dataset.size_bytes ds <=? TapeVolume.used_bytes v)%N
           then TapeVolume.set_used_bytes
                  (TapeVolume.used_bytes v - Dataset.size_bytes ds) v
           else TapeVolume.set_used_bytes 0 v in
  if bool_decide (ds_list = [])
     && bool_decide (TapeVolume.status v = PRIVATE)
  then TapeVolume.set_status SCRATCH v else v.

(** The copy [add_dataset] stores: unset dates receive their defaults. *)
Definition prepare_dataset (now : Z) (dataset : Dataset.t) : Dataset.t :=
  let ds := dataset in
  let ds := if decide (Dataset.creation_date ds = 0%Z)
            then Dataset.set_creation_date now ds else ds in
  if decide (Dataset.expiration_date ds = 0%Z)
  then Dataset.set_expiration_date
         (time_point_add (Dataset.creation_date ds) (hours (24 * 30))) ds
  else ds.

Global Arguments prepare_dataset : simpl never.
Global Arguments attach_dataset : simpl never.
Global Arguments detach_dataset : simpl never.

Definition add_dataset (cfg : Configuration) (now : Z)
    (dataset : Dataset.t) (s : t) : OperationResult * t :=
  if negb (validate_dataset_name (Dataset.name dataset)) then
    (fail INVALID_DATASET_NAME
       ("Invalid dataset name: " +:+ Dataset.name dataset), s)
  else if (get_max_datasets cfg <=? N.of_nat (size (datasets_ s)))%N then
    (fail DATASET_LIMIT_REACHED "Maximum dataset limit reached", s)
  else if decide (is_Some (datasets_ s !! Dataset.name dataset)) then
    (fail DATASET_ALREADY_EXISTS
       ("Dataset already exists: " +:+ Dataset.name dataset), s)
  else
    match volumes_ s !! Dataset.volser dataset with
    | None =>
        (fail VOLUME_NOT_FOUND
           ("Volume not found: " +:+ Dataset.volser dataset), s)
    | Some v =>
        let ds := prepare_dataset now dataset in
        let key := Dataset.name ds in
        let s := set_datasets (<[key := ds]> (datasets_ s)) s in
        let s := set_dataset_owner_index
                   (SecondaryIndex.add (Dataset.owner ds) key
                      (dataset_owner_index_ s)) s in
        let s := set_dataset_tag_index
                   (add_tags (Dataset.tags ds) key (dataset_tag_index_ s))
                   s in
        let v := attach_dataset ds v in
        let s := set_volumes (<[Dataset.volser ds := v]> (volumes_ s)) s in
        (ok (),
         add_audit_record now "ADD_DATASET" key
           ("Volume: " +:+ Dataset.volser ds) s)
    end.

Definition delete_dataset (now : Z) (name : string) (s : t)
    : OperationResult * t :=
  match datasets_ s !! name with
  | None => (fail DATASET_NOT_FOUND ("Dataset not found: " +:+ name), s)
  | Some ds =>
      let s :=
        match volumes_ s !! Dataset.volser ds with
        | Some v =>
            set_volumes
              (<[Dataset.volser ds := detach_dataset ds name v]>
                 (volumes_ s)) s
        | None => s
        end in
      let s := set_dataset_owner_index
                 (SecondaryIndex.remove (Dataset.owner ds) name
                    (dataset_owner_index_ s)) s in
      let s := set_dataset_tag_index
                 (remove_tags (Dataset.tags ds) name (dataset_tag_index_ s))
                 s in
      let s := set_datasets (delete name (datasets_ s)) s in
      (ok (), add_audit_record now "DELETE_DATASET" name "Deleted" s)
  end.

Definition update_dataset (now : Z) (dataset : Dataset.t) (s : t)
    : OperationResult * t :=
  let key := Dataset.name dataset in
  match datasets_ s !! key with
  | None => (fail DATASET_NOT_FOUND ("Dataset not found: " +:+ key), s)
  | Some old =>
      let s := if decide (Dataset.owner old ≠ Dataset.owner dataset)
               then set_dataset_owner_index
                      (SecondaryIndex.update (Dataset.owner old)
                         (Dataset.owner dataset) key
                         (dataset_owner_index_ s)) s
               else s in
      let s := set_dataset_tag_index
                 (retag (Dataset.tags old) (Dataset.tags dataset) key
                    (dataset_tag_index_ s)) s in
      let s := set_datasets (<[key := dataset]> (datasets_ s)) s in
      (ok (), add_audit_record now "UPDATE_DATASET" key "Updated" s)
  end.

(** *** Volume reservation *)

Definition reserve_volume (now : Z) (volser user : string) (duration : Z)
    (s : t) : OperationResult * t :=
  match volumes_ s !! volser with
  | None => (fail VOLUME_NOT_FOUND ("Volume not found: " +:+ volser), s)
  | Some v =>
      if TapeVolume.is_reserved now v
         && negb (bool_decide (TapeVolume.reserved_by v = user)) then
        (fail VOLUME_RESERVED
           ("Volume reserved by: " +:+ TapeVolume.reserved_by v), s)
      else
        let v := TapeVolume.set_reserved_by user v in
        let v := TapeVolume.set_reservation_expires
                   (time_point_add now (to_ticks duration)) v in
        let s := set_volumes (<[volser := v]> (volumes_ s)) s in
        (ok (),
         add_audit_record now "RESERVE_VOLUME" volser
           ("User: " +:+ user +:+ ", Duration: " +:+ pretty duration
            +:+ "s") s)
  end.

Definition release_volume (now : Z) (volser user : string) (s : t)
    : OperationResult * t :=
  match volumes_ s !! volser with
  | None => (fail VOLUME_NOT_FOUND ("Volume not found: " +:+ volser), s)
  | Some v =>
      if negb (TapeVolume.is_reserved now v) then
        (fail INVALID_STATE "Volume not reserved", s)
      else if negb (bool_decide (TapeVolume.reserved_by v = user)) then
        (fail ACCESS_DENIED
           ("Cannot release: reserved by " +:+ TapeVolume.reserved_by v), s)
      else
        let v := TapeVolume.set_reserved_by "" v in
        let v := TapeVolume.set_reservation_expires 0 v in
        let s := set_volumes (<[volser := v]> (volumes_ s)) s in
        (ok (),
         add_audit_record now "RELEASE_VOLUME" volser ("User: " +:+ user) s)
  end.

(** The test of the sweep: a holder is recorded and its expiry has come. *)
Definition reservation_lapsed (now : Z) (v : TapeVolume.t) : bool :=
  negb (bool_decide (TapeVolume.reserved_by v = ""))
  && bool_decide (TapeVolume.reservation_expires v ≤ now)%Z.

Definition cleanup_expired_reservations (now : Z) (s : t) : N * t :=
  let count :=
    N.of_nat (length (filter (λ e, reservation_lapsed now e.2 = true)
                        (sorted_entries (volumes_ s)))) in
  let clear v :=
    if reservation_lapsed now v
    then TapeVolume.set_reservation_expires 0
           (TapeVolume.set_reserved_by "" v)
    else v in
  let s := set_volumes (clear <$> volumes_ s) s in
  (count,
   if (0 <? count)%N
   then add_audit_record now "CLEANUP_RESERVATIONS" ""
          ("Expired: " +:+ pretty count) s
   else s).

(** *** Scratch pool *)

(** The filters applied to a volume that is available for scratch. *)
Definition scratch_filters (pool : string) (density : option TapeDensity)
    (v : TapeVolume.t) : bool :=
  (bool_decide (pool = "") || bool_decide (TapeVolume.pool v = pool))
  && match density with
     | Some d => bool_decide (TapeVolume.density v = d)
     | None => true
     end.

Definition scratch_candidate (pool : string) (density : option TapeDensity)
    (now : Z) (v : TapeVolume.t) : bool :=
  TapeVolume.is_available_for_scratch now v
  && scratch_filters pool density v.

(** The loop of [allocate_scratch_volume] over the entries in key order:
    the first entry that is available and passes both filters. *)
Fixpoint scan_scratch (pool : string) (density : option TapeDensity)
    (now : Z) (entries : list (string * TapeVolume.t))
    : option (string * TapeVolume.t) :=
  match entries with
  | [] => None
  | (volser, vol) :: rest =>
      if TapeVolume.is_available_for_scratch now vol then
        if negb (bool_decide (pool = ""))
           && negb (bool_decide (TapeVolume.pool vol = pool)) then
          scan_scratch pool density now rest
        else if match density with
                | Some d => negb (bool_decide (TapeVolume.density vol = d))
                | None => false
                end then
          scan_scratch pool density now rest
        else Some (volser, vol)
      else scan_scratch pool density now rest
  end.

Definition allocate_scratch_volume (now : Z) (pool : string)
    (density : option TapeDensity) (s : t) : Result string * t :=
  match scan_scratch pool density now (sorted_entries (volumes_ s)) with
  | Some (volser, vol) =>
      let vol := TapeVolume.set_status PRIVATE vol in
      let vol := TapeVolume.set_last_used now vol in
      let s := set_volumes (<[volser := vol]> (volumes_ s)) s in
      (ok volser,
       add_audit_record now "ALLOCATE_SCRATCH" volser ("Pool: " +:+ pool) s)
  | None =>
      (fail NO_SCRATCH_AVAILABLE "No scratch volumes available", s)
  end.

(** *** Batch operations *)

Definition empty_batch (n : nat) : BatchResult.t :=
  BatchResult.mk (N.of_nat n) 0 0 0 [].

(** The bookkeeping after one item of a batch. *)
Definition record_item (key : string) (op_result : OperationResult)
    (result : BatchResult.t) : BatchResult.t :=
  match op_result with
  | ok _ =>
      BatchResult.mk (BatchResult.total result)
        (u64_add (BatchResult.succeeded result) 1)
        (BatchResult.failed result) (BatchResult.skipped result)
        (BatchResult.failures result)
  | err e =>
      BatchResult.mk (BatchResult.total result)
        (BatchResult.succeeded result)
        (u64_add (BatchResult.failed result) 1)
        (BatchResult.skipped result)
        (BatchResult.failures result ++ [(key, message e)])
  end.

(** The loop of [add_volumes_batch]; the [i]-th call of [add_volume] reads
    the clock as [clock i]. *)
Fixpoint add_volumes_loop (cfg : Configuration) (clock : nat → Z) (i : nat)
    (volumes : list TapeVolume.t) (result : BatchResult.t) (s : t)
    : BatchResult.t * t :=
  match volumes with
  | [] => (result, s)
  | vol :: rest =>
      let '(op_result, s) := add_volume cfg (clock i) vol s in
      add_volumes_loop cfg clock (S i) rest
        (record_item (TapeVolume.volser vol) op_result result) s
  end.

Definition add_volumes_batch (cfg : Configuration) (clock : nat → Z)
    (volumes : list TapeVolume.t) (s : t) : BatchResult.t * t :=
  add_volumes_loop cfg clock 0 volumes (empty_batch (length volumes)) s.

(** *** Parallel batch ([parallel_add_volumes])

    The workers run concurrently, but every call of [add_volume] takes the
    one catalog lock, and the counters and the failure list are updated
    atomically.  An execution is therefore determined by the order in which
    the workers get the lock: [schedule] names, for each acquisition, the
    worker that wins it.  A worker that has finished its shard does nothing
    when named. *)

(** The items [start_idx, end_idx) worker [t] loops over. *)
Definition shard (volumes : list TapeVolume.t)
    (chunk_size thread_count t : nat) : list TapeVolume.t :=
  let start_idx := t * chunk_size in
  let end_idx := if decide (t = thread_count - 1) then length volumes
                 else (t + 1) * chunk_size in
  take (end_idx - start_idx) (drop start_idx volumes).

(** [workers !! t] is what worker [t] still has to process; [step] counts
    the calls of [add_volume] made so far. *)
Fixpoint parallel_run (cfg : Configuration) (clock : nat → Z) (step : nat)
    (schedule : list nat) (workers : list (list TapeVolume.t))
    (result : BatchResult.t) (s : t)
    : list (list TapeVolume.t) * (BatchResult.t * t) :=
  match schedule with
  | [] => (workers, (result, s))
  | w :: schedule =>
      match workers !! w with
      | Some (vol :: todo) =>
          let '(op_result, s) := add_volume cfg (clock step) vol s in
          parallel_run cfg clock (S step) schedule (<[w := todo]> workers)
            (record_item (TapeVolume.volser vol) op_result result) s
      | _ => parallel_run cfg clock step schedule workers result s
      end
  end.

(** Every worker has run to the end of its shard, so [join] returns. *)
Definition all_joined (workers : list (list TapeVolume.t)) : bool :=
  forallb (λ todo, match todo with [] => true | _ :: _ => false end) workers.

(** The call under [schedule]; [None] when the schedule stops before every
    worker has finished, which is no complete execution of the call. *)
Definition parallel_add_volumes (cfg : Configuration) (clock : nat → Z)
    (volumes : list TapeVolume.t) (thread_count : nat) (schedule : list nat)
    (s : t) : option (BatchResult.t * t) :=
  match volumes with
  | [] => Some (empty_batch 0, s)
  | _ :: _ =>
      let thread_count := thread_count `min` length volumes in
      let thread_count := thread_count `min` MAX_PARALLEL_OPERATIONS in
      let chunk_size := length volumes / thread_count in
      let workers := shard volumes chunk_size thread_count
                     <$> seq 0 thread_count in
      let '(workers, outcome) :=
        parallel_run cfg clock 0 schedule workers
          (empty_batch (length volumes)) s in
      if all_joined workers then Some outcome else None
  end.

(** *** Index rebuild and linear listings *)

(** One round of the volume loop of [rebuild_indices], and one of its
    dataset loop. *)
Definition index_volume (s : t) (e : string * TapeVolume.t) : t :=
  let s := set_volume_owner_index
             (SecondaryIndex.add (TapeVolume.owner e.2) e.1
                (volume_owner_index_ s)) s in
  let s := set_volume_pool_index
             (SecondaryIndex.add (TapeVolume.pool e.2) e.1
                (volume_pool_index_ s)) s in
  set_volume_tag_index
    (add_tags (TapeVolume.tags e.2) e.1 (volume_tag_index_ s)) s.

Definition index_dataset (s : t) (e : string * Dataset.t) : t :=
  let s := set_dataset_owner_index
             (SecondaryIndex.add (Dataset.owner e.2) e.1
                (dataset_owner_index_ s)) s in
  set_dataset_tag_index
    (add_tags (Dataset.tags e.2) e.1 (dataset_tag_index_ s)) s.

(** [rebuild_indices]: clear the five indices, then index every volume and
    every dataset again, in key order. *)
Definition rebuild_indices (s : t) : t :=
  let s := set_volume_owner_index
             (SecondaryIndex.clear (volume_owner_index_ s)) s in
  let s := set_volume_pool_index
             (SecondaryIndex.clear (volume_pool_index_ s)) s in
  let s := set_volume_tag_index
             (SecondaryIndex.clear (volume_tag_index_ s)) s in
  let s := set_dataset_owner_index
             (SecondaryIndex.clear (dataset_owner_index_ s)) s in
  let s := set_dataset_tag_index
             (SecondaryIndex.clear (dataset_tag_index_ s)) s in
  let s := foldl index_volume s (sorted_entries (volumes_ s)) in
  foldl index_dataset s (sorted_entries (datasets_ s)).

(** The test [!status.has_value() || vol.status == status.value()]. *)
Definition status_selected (status : option VolumeStatus)
    (vol : TapeVolume.t) : bool :=
  match status with
  | None => true
  | Some st => bool_decide (TapeVolume.status vol = st)
  end.

Definition list_volumes (status : option VolumeStatus) (s : t)
    : list TapeVolume.t :=
  (filter (λ e, status_selected status e.2 = true)
     (sorted_entries (volumes_ s))).*2.

Definition dataset_status_selected (status : option DatasetStatus)
    (ds : Dataset.t) : bool :=
  match status with
  | None => true
  | Some st => bool_decide (Dataset.status ds = st)
  end.

Definition list_datasets (status : option DatasetStatus) (s : t)
    : list Dataset.t :=
  (filter (λ e, dataset_status_selected status e.2 = true)
     (sorted_entries (datasets_ s))).*2.

Definition get_all_owners (s : t) : list string :=
  SecondaryIndex.get_all_values (volume_owner_index_ s).

Definition get_pool_names (s : t) : list string :=
  SecondaryIndex.get_all_values (volume_pool_index_ s).

(** *** Tags and pools of catalogued records *)

Definition remove_volume_tag (now : Z) (volser tag : string) (s : t)
    : OperationResult * t :=
  match volumes_ s !! volser with
  | None => (fail VOLUME_NOT_FOUND ("Volume not found: " +:+ volser), s)
  | Some v =>
      let v := TapeVolume.set_tags (TapeVolume.tags v ∖ {[tag]}) v in
      let s := set_volumes (<[volser := v]> (volumes_ s)) s in
      let s := set_volume_tag_index
                 (SecondaryIndex.remove tag volser (volume_tag_index_ s)) s in
      (ok (), add_audit_record now "REMOVE_TAG" volser ("Tag: " +:+ tag) s)
  end.

(** [remove_dataset_tag] writes no audit record. *)
Definition remove_dataset_tag (name tag : string) (s : t)
    : OperationResult * t :=
  match datasets_ s !! name with
  | None => (fail DATASET_NOT_FOUND ("Dataset not found: " +:+ name), s)
  | Some d =>
      let d := Dataset.set_tags (Dataset.tags d ∖ {[tag]}) d in
      let s := set_datasets (<[name := d]> (datasets_ s)) s in
      let s := set_dataset_tag_index
                 (SecondaryIndex.remove tag name (dataset_tag_index_ s)) s in
      (ok (), s)
  end.

Definition move_volume_to_pool (now : Z) (volser target_pool : string)
    (s : t) : OperationResult * t :=
  match volumes_ s !! volser with
  | None => (fail VOLUME_NOT_FOUND ("Volume not found: " +:+ volser), s)
  | Some v =>
      let old_pool := TapeVolume.pool v in
      let s := set_volume_pool_index
                 (SecondaryIndex.update old_pool target_pool volser
                    (volume_pool_index_ s)) s in
      let v := TapeVolume.set_pool target_pool v in
      let s := set_volumes (<[volser := v]> (volumes_ s)) s in
      (ok (),
       add_audit_record now "MOVE_TO_POOL" volser
         ("From: " +:+ old_pool +:+ " To: " +:+ target_pool) s)
  end.

(** [clone_volume]: a copy of the source's metadata under a new serial,
    empty, SCRATCH and unreserved.  The volume limit is not consulted.  The
    mount counter the source also resets is not a field of the record. *)
Definition clone_volume (now : Z) (source_volser new_volser : string)
    (s : t) : Result TapeVolume.t * t :=
  if negb (validate_volser new_volser) then
    (fail INVALID_VOLSER ("Invalid new volume serial: " +:+ new_volser), s)
  else
    match volumes_ s !! source_volser with
    | None =>
        (fail VOLUME_NOT_FOUND
           ("Source volume not found: " +:+ source_volser), s)
    | Some source =>
        if decide (is_Some (volumes_ s !! new_volser)) then
          (fail VOLUME_ALREADY_EXISTS
             ("Target volume already exists: " +:+ new_volser), s)
        else
          let cloned :=
            TapeVolume.mk new_volser SCRATCH (TapeVolume.density source)
              (TapeVolume.pool source) (TapeVolume.owner source)
              now (time_point_add now (hours (24 * 365)))
              (TapeVolume.last_used source)
              (TapeVolume.capacity_bytes source) 0 []
              (TapeVolume.tags source) "" 0
              (TapeVolume.last_health_check source) in
          let s := set_volumes (<[new_volser := cloned]> (volumes_ s)) s in
          let s := set_volume_owner_index
                     (SecondaryIndex.add (TapeVolume.owner cloned) new_volser
                        (volume_owner_index_ s)) s in
          let s := set_volume_pool_index
                     (SecondaryIndex.add (TapeVolume.pool cloned) new_volser
                        (volume_pool_index_ s)) s in
          let s := set_volume_tag_index
                     (add_tags (TapeVolume.tags cloned) new_volser
                        (volume_tag_index_ s)) s in
          (ok cloned,
           add_audit_record now "CLONE_VOLUME" new_volser
             ("Cloned from " +:+ source_volser) s)
    end.

(** *** Reservations, continued *)

Definition extend_reservation (now : Z) (volser user : string)
    (additional_time : Z) (s : t) : OperationResult * t :=
  match volumes_ s !! volser with
  | None => (fail VOLUME_NOT_FOUND ("Volume not found: " +:+ volser), s)
  | Some v =>
      if negb (TapeVolume.is_reserved now v)
         || negb (bool_decide (TapeVolume.reserved_by v = user)) then
        (fail ACCESS_DENIED "Cannot extend: not your reservation", s)
      else
        let v := TapeVolume.set_reservation_expires
                   (time_point_add (TapeVolume.reservation_expires v)
                      (to_ticks additional_time)) v in
        let s := set_volumes (<[volser := v]> (volumes_ s)) s in
        (ok (),
         add_audit_record now "EXTEND_RESERVATION" volser
           ("Additional: " +:+ pretty additional_time +:+ "s") s)
  end.

Definition list_reserved_volumes (now : Z) (s : t) : list TapeVolume.t :=
  (filter (λ e, TapeVolume.is_reserved now e.2 = true)
     (sorted_entries (volumes_ s))).*2.

(** *** Tape operations *)

(** The status a volume returns to: SCRATCH without datasets, else
    PRIVATE. *)
Definition resting_status (v : TapeVolume.t) : VolumeStatus :=
  if bool_decide (TapeVolume.datasets v = []) then SCRATCH else PRIVATE.

Definition scratch_volume (now : Z) (volser : string) (s : t)
    : OperationResult * t :=
  match volumes_ s !! volser with
  | None => (fail VOLUME_NOT_FOUND ("Volume not found: " +:+ volser), s)
  | Some v =>
      if decide (TapeVolume.status v = MOUNTED) then
        (fail VOLUME_MOUNTED "Cannot scratch mounted volume", s)
      else
        let s := foldl cascade_delete_dataset s (TapeVolume.datasets v) in
        let v := TapeVolume.set_datasets [] v in
        let v := TapeVolume.set_used_bytes 0 v in
        let v := TapeVolume.set_status SCRATCH v in
        let s := set_volumes (<[volser := v]> (volumes_ s)) s in
        (ok (), add_audit_record now "SCRATCH_VOLUME" volser "" s)
  end.

Definition set_volume_offline (now : Z) (volser : string) (s : t)
    : OperationResult * t :=
  match volumes_ s !! volser with
  | None => (fail VOLUME_NOT_FOUND ("Volume not found: " +:+ volser), s)
  | Some v =>
      if decide (TapeVolume.status v = MOUNTED) then
        (fail VOLUME_MOUNTED "Cannot take mounted volume offline", s)
      else
        let v := TapeVolume.set_status OFFLINE v in
        let s := set_volumes (<[volser := v]> (volumes_ s)) s in
        (ok (), add_audit_record now "SET_OFFLINE" volser "" s)
  end.

Definition set_volume_online (now : Z) (volser : string) (s : t)
    : OperationResult * t :=
  match volumes_ s !! volser with
  | None => (fail VOLUME_NOT_FOUND ("Volume not found: " +:+ volser), s)
  | Some v =>
      if decide (TapeVolume.status v ≠ OFFLINE) then
        (fail INVALID_STATE "Volume not offline", s)
      else
        let v := TapeVolume.set_status (resting_status v) v in
        let s := set_volumes (<[volser := v]> (volumes_ s)) s in
        (ok (), add_audit_record now "SET_ONLINE" volser "" s)
  end.

(** *** Scratch pool listings *)

(** The loop of [get_scratch_pool]: collect the volsers of the available
    volumes of the pool in key order and break once [count] of them are
    collected; [count = 0] is no limit. *)
Fixpoint scratch_pool_loop (now : Z) (count : N) (pool : string)
    (entries : list (string * TapeVolume.t)) (result : list string)
    : list string :=
  match entries with
  | [] => result
  | (volser, vol) :: rest =>
      if TapeVolume.is_available_for_scratch now vol then
        if bool_decide (pool = "")
           || bool_decide (TapeVolume.pool vol = pool) then
          let result := result ++ [volser] in
          if (0 <? count)%N && (count <=? N.of_nat (length result))%N
          then result
          else scratch_pool_loop now count pool rest result
        else scratch_pool_loop now count pool rest result
      else scratch_pool_loop now count pool rest result
  end.

Definition get_scratch_pool (now : Z) (count : N) (pool : string) (s : t)
    : list string :=
  scratch_pool_loop now count pool (sorted_entries (volumes_ s)) [].

(** [get_scratch_pool_stats]: the pair (available, total) for the pool. *)
Definition get_scratch_pool_stats (now : Z) (pool : string) (s : t)
    : N * N :=
  let in_pool :=
    filter (λ e, pool = "" ∨ TapeVolume.pool e.2 = pool)
      (sorted_entries (volumes_ s)) in
  (N.of_nat
     (length (filter (λ e, TapeVolume.is_available_for_scratch now e.2 = true)
                in_pool)),
   N.of_nat (length in_pool)).

(** *** Further sequential batches *)

(** The loop the sequential batch operations share: call [op] on each item
    and book its outcome under the item's key.  The [i]-th call reads the
    clock as [clock i]. *)
Fixpoint batch_loop {A} (op : nat → A → t → OperationResult * t)
    (key : A → string) (i : nat) (items : list A) (result : BatchResult.t)
    (s : t) : BatchResult.t * t :=
  match items with
  | [] => (result, s)
  | item :: rest =>
      let '(op_result, s) := op i item s in
      batch_loop op key (S i) rest (record_item (key item) op_result result) s
  end.

Definition delete_volumes_batch (clock : nat → Z) (volsers : list string)
    (force : bool) (s : t) : BatchResult.t * t :=
  batch_loop (λ i volser, delete_volume (clock i) volser force) id 0 volsers
    (empty_batch (length volsers)) s.

Definition add_datasets_batch (cfg : Configuration) (clock : nat → Z)
    (datasets : list Dataset.t) (s : t) : BatchResult.t * t :=
  batch_loop (λ i ds, add_dataset cfg (clock i) ds) Dataset.name 0 datasets
    (empty_batch (length datasets)) s.

Definition delete_datasets_batch (clock : nat → Z) (names : list string)
    (s : t) : BatchResult.t * t :=
  batch_loop (λ i name, delete_dataset (clock i) name) id 0 names
    (empty_batch (length names)) s.

(** *** Expiration *)

(** The tests of [process_expirations]: not yet EXPIRED and past the
    expiration date. *)
Definition volume_expiring (now : Z) (vol : TapeVolume.t) : bool :=
  negb (bool_decide (TapeVolume.status vol = EXPIRED))
  && bool_decide (TapeVolume.expiration_date vol < now)%Z.

Definition dataset_expiring (now : Z) (ds : Dataset.t) : bool :=
  negb (bool_decide (Dataset.status ds = DS_EXPIRED))
  && bool_decide (Dataset.expiration_date ds < now)%Z.

(** What the loops of [process_expirations] do to one record when the run
    is not a dry run. *)
Definition expire_volume (now : Z) (vol : TapeVolume.t) : TapeVolume.t :=
  if volume_expiring now vol then TapeVolume.set_status EXPIRED vol else vol.

Definition expire_dataset (now : Z) (ds : Dataset.t) : Dataset.t :=
  if dataset_expiring now ds then Dataset.set_status DS_EXPIRED ds else ds.

Definition process_expirations (now : Z) (dry_run : bool) (s : t) : N * t :=
  let count :=
    N.of_nat
      (length (filter (λ e, volume_expiring now e.2 = true)
                 (sorted_entries (volumes_ s)))
       + length (filter (λ e, dataset_expiring now e.2 = true)
                   (sorted_entries (datasets_ s)))) in
  if dry_run then (count, s)
  else
    let s := set_volumes (expire_volume now <$> volumes_ s) s in
    let s := set_datasets (expire_dataset now <$> datasets_ s) s in
    (count,
     if (0 <? count)%N
     then add_audit_record now "PROCESS_EXPIRATIONS" ""
            ("Count: " +:+ pretty count) s
     else s).

Definition list_expired_volumes (s : t) : list string :=
  (filter (λ e, TapeVolume.status e.2 = EXPIRED)
     (sorted_entries (volumes_ s))).*1.

Definition list_expired_datasets (s : t) : list string :=
  (filter (λ e, Dataset.status e.2 = DS_EXPIRED)
     (sorted_entries (datasets_ s))).*1.

End TMSSystem.

(** ** Sequences of catalog operations *)

(** The add, update and delete operations on volumes and datasets, each with
    the clock reading of its call. *)
Inductive CatalogOp :=
  | AddVolume (now : Z) (volume : TapeVolume.t)
  | UpdateVolume (now : Z) (volume : TapeVolume.t)
  | DeleteVolume (now : Z) (volser : string) (force : bool)
  | AddDataset (now : Z) (dataset : Dataset.t)
  | UpdateDataset (now : Z) (dataset : Dataset.t)
  | DeleteDataset (now : Z) (name : string).

Definition apply_op (cfg : Configuration) (s : TMSSystem.t) (op : CatalogOp)
    : TMSSystem.t :=
  match op with
  | AddVolume now volume => (TMSSystem.add_volume cfg now volume s).2
  | UpdateVolume now volume => (TMSSystem.update_volume now volume s).2
  | DeleteVolume now volser force =>
      (TMSSystem.delete_volume now volser force s).2
  | AddDataset now dataset => (TMSSystem.add_dataset cfg now dataset s).2
  | UpdateDataset now dataset => (TMSSystem.update_dataset now dataset s).2
  | DeleteDataset now name => (TMSSystem.delete_dataset now name s).2
  end.

(** The engine after the calls of [ops], first to last. *)
Definition run (cfg : Configuration) (ops : list CatalogOp) (s : TMSSystem.t)
    : TMSSystem.t :=
  foldl (apply_op cfg) s ops.

(** ** Agreement of an index with its primary map

    [attrs r] is the set of values record [r] is indexed under: its owner,
    its pool, or each of its tags.  The index agrees with the map when it
    lists key [k] under value [val] exactly if [val] is a non-empty value of
    the record stored at [k]. *)
Definition index_agrees {V} (attrs : V → gset string) (m : gmap string V)
    (index_ : SecondaryIndex.t) : Prop :=
  ∀ val key,
    key ∈ SecondaryIndex.find val index_
    ↔ val ≠ "" ∧ ∃ r, m !! key = Some r ∧ val ∈ attrs r.

Definition volume_owner (v : TapeVolume.t) : gset string :=
  {[TapeVolume.owner v]}.
Definition volume_pool (v : TapeVolume.t) : gset string :=
  {[TapeVolume.pool v]}.
Definition dataset_owner (d : Dataset.t) : gset string :=
  {[Dataset.owner d]}.

Record index_consistent (s : TMSSystem.t) : Prop := {
  volume_owner_agrees :
    index_agrees volume_owner (TMSSystem.volumes_ s)
      (TMSSystem.volume_owner_index_ s);
  volume_pool_agrees :
    index_agrees volume_pool (TMSSystem.volumes_ s)
      (TMSSystem.volume_pool_index_ s);
  volume_tag_agrees :
    index_agrees TapeVolume.tags (TMSSystem.volumes_ s)
      (TMSSystem.volume_tag_index_ s);
  dataset_owner_agrees :
    index_agrees dataset_owner (TMSSystem.datasets_ s)
      (TMSSystem.dataset_owner_index_ s);
  dataset_tag_agrees :
    index_agrees Dataset.tags (TMSSystem.datasets_ s)
      (TMSSystem.dataset_tag_index_ s)
}.

(** The values a key is indexed under, for a key that may be absent. *)
Definition attrs_of {V} (attrs : V → gset string) (r : option V)
    : gset string :=
  match r with Some x => attrs x | None => ∅ end.

(** The effect of an index update for [key] whose record changes its values
    from [olds] to [news]: the key leaves the values it lost, enters the
    non-empty values it gained, and nothing else moves. *)
Definition index_step (index_ index' : SecondaryIndex.t) (key : string)
    (olds news : gset string) : Prop :=
  ∀ val k,
    k ∈ SecondaryIndex.find val index'
    ↔ (k ∈ SecondaryIndex.find val index_
       ∧ ¬ (k = key ∧ val ∈ olds ∧ val ∉ news))
      ∨ (k = key ∧ val ∈ news ∧ (val ∉ olds) ∧ val ≠ "").

(** ** Capacity bookkeeping *)







(** ** Independent batch items *)

(** A stored volume without the three fields [add_volume] takes from the
    wall clock: default creation and expiration dates and the time of the
    health check. *)
Definition timeless (v : TapeVolume.t) : TapeVolume.t :=
  TapeVolume.set_last_health_check 0
    (TapeVolume.set_expiration_date 0 (TapeVolume.set_creation_date 0 v)).

(** The items of a batch do not depend on each other: no two compete for a
    volser, and the volume limit leaves room for all of them, so the outcome
    of one does not hinge on how many were added before it. *)
Definition independent_items (cfg : Configuration)
    (volumes : list TapeVolume.t) (s : TMSSystem.t) : Prop :=
  NoDup (TapeVolume.volser <$> volumes)
  ∧ (N.of_nat (size (TMSSystem.volumes_ s) + length volumes)
     ≤ get_max_volumes cfg)%N.

(** The failure [add_volume] reports for [vol] on a catalog with room left:
    none for a valid volser that is not catalogued. *)
Definition failure_of (s : TMSSystem.t) (vol : TapeVolume.t)
    : option (string * string) :=
  let key := TapeVolume.volser vol in
  if validate_volser key then
    match TMSSystem.volumes_ s !! key with
    | Some _ => Some (key, "Volume already exists: " +:+ key)
    | None => None
    end
  else Some (key, "Invalid volume serial: " +:+ key).

(** The entry a valid new item contributes to the catalog, clock aside. *)
Definition timeless_entry (vol : TapeVolume.t) : string * TapeVolume.t :=
  (TapeVolume.volser vol, timeless (TMSSystem.prepare_volume 0 vol)).

(** ** Sample catalogs and inputs *)

(** A catalog with the single scratch volume V00001, and two datasets for
    it whose sizes together exceed the 64-bit range. *)
Definition one_volume : TMSSystem.t :=
  (TMSSystem.add_volume default_configuration 5 (TapeVolume.default "V00001")
     TMSSystem.empty).2.


Definition small_dataset : Dataset.t :=
  Dataset.default "SMALL.DATA" "V00001" 2.

(** The batch scenario of the specification: five volumes BAT001 .. BAT005
    offered to a catalog that already holds BAT003. *)
Definition batch_example_volumes : list TapeVolume.t :=
  TapeVolume.default <$> ["BAT001"; "BAT002"; "BAT003"; "BAT004"; "BAT005"].

Definition batch_example_state : TMSSystem.t :=
  (TMSSystem.add_volume default_configuration 1 (TapeVolume.default "BAT003")
     TMSSystem.empty).2.

(** A parallel batch over four volumes, two workers, and a schedule in
    which the second worker goes first. *)
Definition parallel_example_volumes : list TapeVolume.t :=
  TapeVolume.default <$> ["PAR001"; "PAR002"; "PAR003"; "PAR004"].

Definition parallel_example_schedule : list nat := [1; 0; 1; 0].

(** The allocation example of the specification: B01 and A01 are SCRATCH,
    C01 is PRIVATE. *)
Definition allocation_example : TMSSystem.t :=
  let add v s := (TMSSystem.add_volume default_configuration 5 v s).2 in
  add (TapeVolume.set_status PRIVATE (TapeVolume.default "C01"))
    (add (TapeVolume.default "A01")
       (add (TapeVolume.default "B01") TMSSystem.empty)).

(** A catalog with the two scratch volumes A01 and B01. *)
Definition two_scratch_volumes : TMSSystem.t :=
  (TMSSystem.add_volume default_configuration 5 (TapeVolume.default "A01")
     (TMSSystem.add_volume default_configuration 5 (TapeVolume.default "B01")
        TMSSystem.empty).2).2.

(** A configuration whose volume limit admits a single volume. *)
Definition one_volume_limit : Configuration :=
  {| get_max_volumes := 1; get_max_datasets := 1000000 |}.

(** An audit record as [add_volume] writes it. *)
Definition sample_record : AuditRecord :=
  {| timestamp := 0; operation := "ADD_VOLUME"; user := "SYSTEM";
     target := "V00001"; details := "Status: SCRATCH"; success := true |}.

(** The reservation scenario of the specification on a single volume V1. *)
Definition reservation_scenario : TMSSystem.t :=
  let s := (TMSSystem.add_volume default_configuration 5
              (TapeVolume.default "V1") TMSSystem.empty).2 in
  (TMSSystem.reserve_volume 10 "V1" "alice" 3600 s).2.

(** ** Sequences of index updates *)

Inductive IndexOp :=
  | IndexAdd (attr_value key : string)
  | IndexRemove (attr_value key : string)
  | IndexUpdate (old_value new_value key : string).

Definition index_apply (index_ : SecondaryIndex.t) (op : IndexOp)
    : SecondaryIndex.t :=
  match op with
  | IndexAdd attr_value key => SecondaryIndex.add attr_value key index_
  | IndexRemove attr_value key => SecondaryIndex.remove attr_value key index_
  | IndexUpdate old_value new_value key =>
      SecondaryIndex.update old_value new_value key index_
  end.

(** The index after the calls of [ops] on a freshly constructed one. *)
Definition index_run (ops : list IndexOp) : SecondaryIndex.t :=
  foldl index_apply ∅ ops.

(** No value of the index maps to an empty key set, and the empty string
    is no value of it. *)
Definition index_inhabited (index_ : SecondaryIndex.t) : Prop :=
  ∀ val keys, index_ !! val = Some keys → keys ≠ ∅ ∧ val ≠ "".

(** The empty string is no value of any of the five indices of the
    engine. *)
Definition empty_value_absent (s : TMSSystem.t) : Prop :=
  TMSSystem.volume_owner_index_ s !! "" = None
  ∧ TMSSystem.volume_pool_index_ s !! "" = None
  ∧ TMSSystem.volume_tag_index_ s !! "" = None
  ∧ TMSSystem.dataset_owner_index_ s !! "" = None
  ∧ TMSSystem.dataset_tag_index_ s !! "" = None.

(** ** Records stored under their own key *)

(** Every volume is stored under its own, valid serial and every dataset
    under its own, valid name. *)
Definition keys_match (s : TMSSystem.t) : Prop :=
  map_Forall (λ key v, TapeVolume.volser v = key
                       ∧ validate_volser key = true)
    (TMSSystem.volumes_ s)
  ∧ map_Forall (λ key d, Dataset.name d = key
                         ∧ validate_dataset_name key = true)
      (TMSSystem.datasets_ s).

(** ** Records rewritten by the sweeps *)

(** What [cleanup_expired_reservations] does to one record. *)
Definition swept (now : Z) (v : TapeVolume.t) : TapeVolume.t :=
  if TMSSystem.reservation_lapsed now v
  then TapeVolume.set_reservation_expires 0 (TapeVolume.set_reserved_by "" v)
  else v.

(** The volsers of the scratch candidates of a pool among [entries], in the
    order of [entries]. *)
Definition pool_candidates (now : Z) (pool : string)
    (entries : list (string * TapeVolume.t)) : list string :=
  (filter (λ e, TMSSystem.scratch_candidate pool None now e.2 = true)
     entries).*1.

(** ** Maintenance operations *)

(** Fourteen further mutating operations of the engine.  Together with
    the six of [CatalogOp] they are the operations the sequences below
    range over; the remaining mutators of the engine (the snapshot, pool
    rename and merge, tag addition, mount, import and load operations) are
    not among them. *)
Inductive MaintenanceOp :=
  | RemoveVolumeTag (now : Z) (volser tag : string)
  | RemoveDatasetTag (name tag : string)
  | MoveVolumeToPool (now : Z) (volser target_pool : string)
  | CloneVolume (now : Z) (source_volser new_volser : string)
  | ReserveVolume (now : Z) (volser user : string) (duration : Z)
  | ReleaseVolume (now : Z) (volser user : string)
  | ExtendReservation (now : Z) (volser user : string) (additional_time : Z)
  | CleanupExpiredReservations (now : Z)
  | ScratchVolume (now : Z) (volser : string)
  | SetVolumeOffline (now : Z) (volser : string)
  | SetVolumeOnline (now : Z) (volser : string)
  | AllocateScratchVolume (now : Z) (pool : string)
      (density : option TapeDensity)
  | ProcessExpirations (now : Z) (dry_run : bool)
  | RebuildIndices.

Definition apply_maintenance (s : TMSSystem.t) (op : MaintenanceOp)
    : TMSSystem.t :=
  match op with
  | RemoveVolumeTag now volser tag =>
      (TMSSystem.remove_volume_tag now volser tag s).2
  | RemoveDatasetTag name tag => (TMSSystem.remove_dataset_tag name tag s).2
  | MoveVolumeToPool now volser target_pool =>
      (TMSSystem.move_volume_to_pool now volser target_pool s).2
  | CloneVolume now source_volser new_volser =>
      (TMSSystem.clone_volume now source_volser new_volser s).2
  | ReserveVolume now volser user duration =>
      (TMSSystem.reserve_volume now volser user duration s).2
  | ReleaseVolume now volser user =>
      (TMSSystem.release_volume now volser user s).2
  | ExtendReservation now volser user additional_time =>
      (TMSSystem.extend_reservation now volser user additional_time s).2
  | CleanupExpiredReservations now =>
      (TMSSystem.cleanup_expired_reservations now s).2
  | ScratchVolume now volser => (TMSSystem.scratch_volume now volser s).2
  | SetVolumeOffline now volser =>
      (TMSSystem.set_volume_offline now volser s).2
  | SetVolumeOnline now volser =>
      (TMSSystem.set_volume_online now volser s).2
  | AllocateScratchVolume now pool density =>
      (TMSSystem.allocate_scratch_volume now pool density s).2
  | ProcessExpirations now dry_run =>
      (TMSSystem.process_expirations now dry_run s).2
  | RebuildIndices => TMSSystem.rebuild_indices s
  end.

(** Any mutating operation of the engine. *)
Definition apply_any (cfg : Configuration) (s : TMSSystem.t)
    (op : CatalogOp + MaintenanceOp) : TMSSystem.t :=
  match op with
  | inl op => apply_op cfg s op
  | inr op => apply_maintenance s op
  end.

(** * Properties *)

(** ** Audit log pruning *)

Section audit_log.

Implicit Types (log : AuditLog.t) (recs : list AuditRecord).

Lemma audit_add_below record log :
  (AuditLog.size log < AuditLog.max_records_ log)%N →
  AuditLog.add record log
  = AuditLog.mk (AuditLog.records_ log ++ [record])
      (AuditLog.max_records_ log) (AuditLog.pruned_count_ log).
Proof.
  intros Hlt. unfold AuditLog.add, AuditLog.size in *. simpl.
  rewrite length_app. simpl.
  destruct (N.ltb_spec (AuditLog.max_records_ log)
              (N.of_nat (length (AuditLog.records_ log) + 1))); [lia|done].
Qed.

(** While the capacity is not exceeded the log only grows. *)
Lemma audit_add_all_below recs log :
  (AuditLog.size log + N.of_nat (length recs)
   ≤ AuditLog.max_records_ log)%N →
  AuditLog.add_all recs log
  = AuditLog.mk (AuditLog.records_ log ++ recs)
      (AuditLog.max_records_ log) (AuditLog.pruned_count_ log).
Proof.
  revert log. induction recs as [|r recs IH]; intros log Hle.
  - simpl. rewrite app_nil_r. by destruct log.
  - unfold AuditLog.add_all in *. simpl in *.
    rewrite audit_add_below by (unfold AuditLog.size in *; lia).
    rewrite IH.
    + simpl. by rewrite <- app_assoc.
    + unfold AuditLog.size in *. simpl. rewrite length_app. simpl. lia.
Qed.

(** The insertion that exceeds the capacity removes the oldest fifth. *)
Lemma audit_add_overflow record log :
  AuditLog.size log = AuditLog.max_records_ log →
  AuditLog.add record log
  = AuditLog.prune
      (AuditLog.mk (AuditLog.records_ log ++ [record])
         (AuditLog.max_records_ log) (AuditLog.pruned_count_ log)).
Proof.
  intros Heq. unfold AuditLog.add, AuditLog.size in *. simpl.
  rewrite length_app. simpl.
  destruct (N.ltb_spec (AuditLog.max_records_ log)
              (N.of_nat (length (AuditLog.records_ log) + 1))); [done|lia].
Qed.

Lemma audit_fill_then_overflow (max_records : N) recs :
  N.of_nat (length recs) = (max_records + 1)%N →
  AuditLog.add_all recs (AuditLog.make max_records)
  = AuditLog.prune (AuditLog.mk recs max_records 0).
Proof.
  intros Hlen.
  induction recs as [|r init _] using rev_ind.
  - simpl in Hlen. lia.
  - rewrite length_app in Hlen. simpl in Hlen.
    unfold AuditLog.add_all. rewrite foldl_snoc.
    fold (AuditLog.add_all init (AuditLog.make max_records)).
    rewrite audit_add_all_below
      by (unfold AuditLog.size, AuditLog.make; simpl; lia).
    rewrite audit_add_overflow
      by (unfold AuditLog.size, AuditLog.make; simpl; lia).
    done.
Qed.

End audit_log.

(** C4, as stated, fails: with capacity 10 the eleventh insertion leaves
    9 records in the log, not 10 - 10/5 = 8. *)
Lemma audit_prune_claimed_size_fails :
  let log := AuditLog.add_all (replicate 11 sample_record) (AuditLog.make 10) in
  AuditLog.size log = 9%N
  ∧ ¬ (AuditLog.size log = (10 - 10 / 5)%N
       ∧ AuditLog.pruned_count_ log = (10 / 5)%N).
Proof. vm_compute. split; [done|]. intros [H _]. discriminate H. Qed.

(** C4, amended: starting from an empty audit log of capacity
    [max_records], inserting [max_records + 1] records leaves the log with
    [max_records + 1 - max_records / 5] records, namely all but the oldest
    [max_records / 5] of them, and [pruned_count] equal to
    [max_records / 5]. *)
Theorem audit_overflow_prunes_fifth (max_records : N)
    (recs : list AuditRecord) :
  (max_records < UINT64_MOD)%N →
  N.of_nat (length recs) = (max_records + 1)%N →
  let log := AuditLog.add_all recs (AuditLog.make max_records) in
  AuditLog.size log = (max_records + 1 - max_records / 5)%N
  ∧ AuditLog.pruned_count_ log = (max_records / 5)%N
  ∧ AuditLog.records_ log = drop (N.to_nat (max_records / 5)) recs.
Proof.
  intros Hmax Hlen log. subst log.
  rewrite audit_fill_then_overflow by done.
  assert (max_records / 5 ≤ max_records)%N as Hdiv
    by (apply N.Div0.div_le_upper_bound; lia).
  unfold AuditLog.prune, AuditLog.size. simpl.
  destruct (N.ltb_spec 0 (max_records / 5)) as [Hpos|Hzero]; simpl.
  - destruct (N.ltb_spec (max_records / 5) (N.of_nat (length recs)));
      [|lia]. simpl.
    rewrite length_drop. unfold u64_add.
    rewrite N.add_0_l, N.mod_small by (eapply N.le_lt_trans; eauto).
    split_and!; [lia|done|done].
  - apply N.le_0_r in Hzero. rewrite Hzero. simpl.
    split_and!; [lia|done|done].
Qed.

Lemma audit_overflow_prunes_fifth_witness :
  let log := AuditLog.add_all (replicate 11 sample_record) (AuditLog.make 10) in
  AuditLog.size log = (10 + 1 - 10 / 5)%N
  ∧ AuditLog.pruned_count_ log = (10 / 5)%N
  ∧ AuditLog.records_ log
    = drop (N.to_nat (10 / 5)) (replicate 11 sample_record).
Proof.
  apply (audit_overflow_prunes_fifth 10 (replicate 11 sample_record));
    reflexivity.
Defined.

(** ** Ordered traversal *)

Section traversal.

Context {V : Type}.
Implicit Types (m : gmap string V) (X : gset string).

Global Instance entry_le_trans : Transitive (@entry_le V).
Proof. intros a b c. unfold entry_le. apply transitivity. Qed.

Global Instance entry_le_total : Total (@entry_le V).
Proof. intros a b. unfold entry_le. apply (total String.le). Qed.

Lemma sorted_entries_perm m : sorted_entries m ≡ₚ map_to_list m.
Proof. apply merge_sort_Permutation. Qed.

Lemma elem_of_sorted_entries m k v :
  (k, v) ∈ sorted_entries m ↔ m !! k = Some v.
Proof. rewrite sorted_entries_perm. apply elem_of_map_to_list. Qed.

Lemma sorted_entries_sorted m : StronglySorted entry_le (sorted_entries m).
Proof. apply StronglySorted_merge_sort; apply _. Qed.

Lemma elem_of_sorted_elements X k : k ∈ sorted_elements X ↔ k ∈ X.
Proof.
  unfold sorted_elements. rewrite merge_sort_Permutation.
  apply elem_of_elements.
Qed.

Lemma sorted_elements_sorted X : StronglySorted String.le (sorted_elements X).
Proof. apply StronglySorted_merge_sort; apply _. Qed.

Lemma NoDup_sorted_elements X : NoDup (sorted_elements X).
Proof.
  unfold sorted_elements. rewrite merge_sort_Permutation.
  apply NoDup_elements.
Qed.

Lemma elem_of_collect m X (v : V) :
  v ∈ TMSSystem.collect m X ↔ ∃ k, k ∈ X ∧ m !! k = Some v.
Proof.
  unfold TMSSystem.collect. rewrite list_elem_of_omap.
  by setoid_rewrite elem_of_sorted_elements.
Qed.

End traversal.

(** ** Scratch allocation *)

Section scratch.

Import TMSSystem.

Variables (pool : string) (density : option TapeDensity) (now : Z).

Lemma scan_scratch_cons k v rest :
  scan_scratch pool density now ((k, v) :: rest)
  = if scratch_candidate pool density now v then Some (k, v)
    else scan_scratch pool density now rest.
Proof.
  unfold scratch_candidate, scratch_filters. simpl.
  destruct (TapeVolume.is_available_for_scratch now v); simpl; [|done].
  destruct (bool_decide (pool = "")); simpl;
    destruct (bool_decide (TapeVolume.pool v = pool)); simpl;
    destruct density as [d|]; simpl; try done;
    destruct (bool_decide (TapeVolume.density v = d)); done.
Qed.

Lemma scan_scratch_Some entries k v :
  scan_scratch pool density now entries = Some (k, v) →
  ∃ pre post,
    entries = pre ++ (k, v) :: post
    ∧ scratch_candidate pool density now v = true
    ∧ Forall (λ e, scratch_candidate pool density now e.2 = false) pre.
Proof.
  induction entries as [|[k' v'] rest IH]; [done|].
  rewrite scan_scratch_cons.
  destruct (scratch_candidate pool density now v') eqn:Hc.
  - intros [= -> ->]. exists [], rest. by split_and!.
  - intros (pre & post & -> & Hv & Hpre)%IH.
    exists ((k', v') :: pre), post. split_and!; [done|done|].
    by constructor.
Qed.

Lemma scan_scratch_None entries :
  scan_scratch pool density now entries = None →
  Forall (λ e, scratch_candidate pool density now e.2 = false) entries.
Proof.
  induction entries as [|[k' v'] rest IH]; [by constructor|].
  rewrite scan_scratch_cons.
  destruct (scratch_candidate pool density now v') eqn:Hc; [done|].
  intros ?%IH. by constructor.
Qed.

(** In a sorted scan the entry found has the lowest key of all
    candidates. *)
Lemma scan_scratch_lowest (m : gmap string TapeVolume.t) k v :
  scan_scratch pool density now (sorted_entries m) = Some (k, v) →
  m !! k = Some v
  ∧ scratch_candidate pool density now v = true
  ∧ ∀ k' v', m !! k' = Some v' →
      scratch_candidate pool density now v' = true → String.le k k'.
Proof.
  intros (pre & post & Heq & Hv & Hpre)%scan_scratch_Some.
  pose proof (sorted_entries_sorted m) as Hsorted. rewrite Heq in Hsorted.
  split_and!; [|done|].
  - apply elem_of_sorted_entries. rewrite Heq. set_solver.
  - intros k' v' Hk' Hc'.
    apply elem_of_sorted_entries in Hk'. rewrite Heq in Hk'.
    apply elem_of_app in Hk' as [Hin|Hin].
    + rewrite Forall_forall in Hpre. specialize (Hpre _ Hin).
      simpl in Hpre. congruence.
    + apply StronglySorted_app_1_r in Hsorted.
      apply elem_of_cons in Hin as [[= -> ->]|Hin]; [done|].
      apply StronglySorted_inv in Hsorted as [_ Hall].
      rewrite Forall_forall in Hall. by apply (Hall (k', v')).
Qed.

End scratch.

(** C1: [allocate_scratch_volume] returns the lexicographically lowest
    volser among the volumes that are SCRATCH, not reserved, not expired and
    match the pool and density filters; exactly that volume becomes PRIVATE:
    the record stored under the returned volser afterwards has status
    PRIVATE and [last_used] stamped with the time of the call, all its
    other fields are those it had, and every other record, the datasets and
    the five indices stay as they were.  When no volume qualifies the call
    fails with NO_SCRATCH_AVAILABLE and the engine is unchanged. *)
Theorem allocate_scratch_volume_lowest (now : Z) (pool : string)
    (density : option TapeDensity) (s : TMSSystem.t) :
  match TMSSystem.allocate_scratch_volume now pool density s with
  | (ok volser, s') =>
      ∃ vol,
        TMSSystem.volumes_ s !! volser = Some vol
        ∧ TapeVolume.status vol = SCRATCH
        ∧ TapeVolume.is_reserved now vol = false
        ∧ TapeVolume.is_expired now vol = false
        ∧ TMSSystem.scratch_filters pool density vol = true
        ∧ (∀ k v, TMSSystem.volumes_ s !! k = Some v →
             TMSSystem.scratch_candidate pool density now v = true →
             String.le volser k)
        ∧ TMSSystem.volumes_ s'
          = <[volser := TapeVolume.set_last_used now
                          (TapeVolume.set_status PRIVATE vol)]>
              (TMSSystem.volumes_ s)
        ∧ TMSSystem.datasets_ s' = TMSSystem.datasets_ s
        ∧ TMSSystem.volume_owner_index_ s' = TMSSystem.volume_owner_index_ s
        ∧ TMSSystem.volume_pool_index_ s' = TMSSystem.volume_pool_index_ s
        ∧ TMSSystem.volume_tag_index_ s' = TMSSystem.volume_tag_index_ s
        ∧ (∃ vol',
             TMSSystem.volumes_ s' !! volser = Some vol'
             ∧ TapeVolume.status vol' = PRIVATE
             ∧ TapeVolume.last_used vol' = now
             ∧ TapeVolume.volser vol' = TapeVolume.volser vol
             ∧ TapeVolume.density vol' = TapeVolume.density vol
             ∧ TapeVolume.pool vol' = TapeVolume.pool vol
             ∧ TapeVolume.owner vol' = TapeVolume.owner vol
             ∧ TapeVolume.datasets vol' = TapeVolume.datasets vol
             ∧ TapeVolume.tags vol' = TapeVolume.tags vol
             ∧ TapeVolume.reserved_by vol' = TapeVolume.reserved_by vol
             ∧ TapeVolume.reservation_expires vol'
               = TapeVolume.reservation_expires vol
             ∧ TapeVolume.expiration_date vol'
               = TapeVolume.expiration_date vol
             ∧ TapeVolume.creation_date vol' = TapeVolume.creation_date vol
             ∧ TapeVolume.capacity_bytes vol'
               = TapeVolume.capacity_bytes vol
             ∧ TapeVolume.used_bytes vol' = TapeVolume.used_bytes vol
             ∧ TapeVolume.last_health_check vol'
               = TapeVolume.last_health_check vol)
        ∧ (∀ k, k ≠ volser →
             TMSSystem.volumes_ s' !! k = TMSSystem.volumes_ s !! k)
        ∧ TMSSystem.dataset_owner_index_ s'
          = TMSSystem.dataset_owner_index_ s
        ∧ TMSSystem.dataset_tag_index_ s' = TMSSystem.dataset_tag_index_ s
  | (err e, s') =>
      code e = NO_SCRATCH_AVAILABLE
      ∧ s' = s
      ∧ ∀ k v, TMSSystem.volumes_ s !! k = Some v →
          TMSSystem.scratch_candidate pool density now v = false
  end.
Proof.
  unfold TMSSystem.allocate_scratch_volume.
  destruct (TMSSystem.scan_scratch pool density now
              (sorted_entries (TMSSystem.volumes_ s))) as [[k v]|] eqn:Hscan.
  - apply scan_scratch_lowest in Hscan as (Hk & Hc & Hlow).
    exists v. simpl.
    pose proof Hc as Hc'. unfold TMSSystem.scratch_candidate in Hc'.
    apply andb_true_iff in Hc' as [Hav Hf].
    unfold TapeVolume.is_available_for_scratch in Hav.
    apply andb_true_iff in Hav as [Hav Hexp].
    apply andb_true_iff in Hav as [Hst Hres].
    apply bool_decide_eq_true in Hst.
    apply negb_true_iff in Hres, Hexp.
    split_and!; try done.
    + eexists. split; [apply lookup_insert_eq|]. by split_and!.
    + intros k' Hk'. by apply lookup_insert_ne.
  - simpl. split_and!; [done|done|].
    intros k v Hk. apply scan_scratch_None in Hscan.
    rewrite Forall_forall in Hscan.
    apply (Hscan (k, v)). by apply elem_of_sorted_entries.
Qed.

(** On the catalog of the allocation example the call returns A01, A01 is
    PRIVATE afterwards, and B01 and C01 are as before. *)
Lemma allocate_scratch_volume_lowest_witness :
  ∃ s' a01 b01 c01,
    TMSSystem.allocate_scratch_volume 10 "" None allocation_example
    = (ok "A01", s')
    ∧ TMSSystem.volumes_ s' !! "A01" = Some a01
    ∧ TapeVolume.status a01 = PRIVATE
    ∧ TapeVolume.last_used a01 = 10%Z
    ∧ TMSSystem.volumes_ s' !! "B01" = Some b01
    ∧ TapeVolume.status b01 = SCRATCH
    ∧ TMSSystem.volumes_ s' !! "C01" = Some c01
    ∧ TapeVolume.status c01 = PRIVATE.
Proof.
  pose proof (allocate_scratch_volume_lowest 10 "" None allocation_example)
    as H.
  remember (TMSSystem.allocate_scratch_volume 10 "" None allocation_example)
    as r eqn:Hr.
  assert (r.1 = ok "A01") as H1 by (subst r; vm_compute; reflexivity).
  destruct r as [[volser|e] s']; cbn [fst] in H1; [|discriminate].
  injection H1 as ->.
  destruct H as (vol & _ & _ & _ & _ & _ & _ & _ & _ & _ & _ & _
                 & (a01 & Ha & Hst & Hlu & _) & Hframe & _).
  exists s', a01. eexists _, _.
  split; [reflexivity|].
  split; [exact Ha|]. split; [exact Hst|]. split; [exact Hlu|].
  rewrite !Hframe by discriminate.
  split; [vm_compute; reflexivity|].
  split; [reflexivity|].
  split; [vm_compute; reflexivity|].
  reflexivity.
Defined.

(** The allocation example of the specification: of B01 and A01 (SCRATCH) and
    C01 (PRIVATE) the call returns A01. *)
Example allocate_scratch_volume_A01 :
  let add v s := (TMSSystem.add_volume default_configuration 5 v s).2 in
  let s :=
    add (TapeVolume.set_status PRIVATE (TapeVolume.default "C01"))
      (add (TapeVolume.default "A01")
         (add (TapeVolume.default "B01") TMSSystem.empty)) in
  (TMSSystem.allocate_scratch_volume 10 "" None s).1 = ok "A01".
Proof. vm_compute. reflexivity. Qed.

(** ** Reservations *)

Section reservation.

Import TMSSystem.

Lemma is_reserved_true now v :
  TapeVolume.is_reserved now v = true
  ↔ TapeVolume.reserved_by v ≠ "" ∧ (now < TapeVolume.reservation_expires v)%Z.
Proof.
  unfold TapeVolume.is_reserved.
  rewrite andb_true_iff, negb_true_iff, bool_decide_eq_false,
    bool_decide_eq_true. done.
Qed.

Lemma is_reserved_false now v :
  TapeVolume.is_reserved now v = false
  ↔ TapeVolume.reserved_by v = "" ∨ (TapeVolume.reservation_expires v ≤ now)%Z.
Proof.
  unfold TapeVolume.is_reserved.
  rewrite andb_false_iff, negb_false_iff, bool_decide_eq_false,
    bool_decide_eq_true. split; (intros [?|?]; [by left|right; lia]).
Qed.

(** A successful [reserve_volume] records the caller and the new expiry. *)
Lemma reserve_volume_free now volser user duration s v :
  volumes_ s !! volser = Some v →
  TapeVolume.is_reserved now v = false ∨ TapeVolume.reserved_by v = user →
  ∃ s',
    reserve_volume now volser user duration s = (ok (), s')
    ∧ volumes_ s'
      = <[volser := TapeVolume.set_reservation_expires
                      (time_point_add now (to_ticks duration))
                      (TapeVolume.set_reserved_by user v)]> (volumes_ s).
Proof.
  intros Hv Hfree. unfold reserve_volume. rewrite Hv.
  destruct (TapeVolume.is_reserved now v
            && negb (bool_decide (TapeVolume.reserved_by v = user))) eqn:Hb.
  - apply andb_true_iff in Hb as [Hr Hu].
    apply negb_true_iff, bool_decide_eq_false in Hu.
    destruct Hfree; congruence.
  - eexists. split; [reflexivity|done].
Qed.

(** The explicit sweep leaves no recorded holder whose expiry has come, and
    does not touch the reservations still held. *)
Lemma cleanup_expired_reservations_sweeps now s k v :
  volumes_ (cleanup_expired_reservations now s).2 !! k = Some v →
  reservation_lapsed now v = false
  ∧ ∀ old, volumes_ s !! k = Some old →
      TapeVolume.is_reserved now old = true → v = old.
Proof.
  unfold cleanup_expired_reservations. simpl.
  assert (∀ x (s0 : t),
            volumes_ (if (0 <? x)%N
                      then add_audit_record now "CLEANUP_RESERVATIONS" ""
                             ("Expired: " +:+ pretty x) s0
                      else s0) = volumes_ s0) as ->
    by (intros x s0; by destruct (0 <? x)%N).
  simpl. rewrite lookup_fmap.
  destruct (volumes_ s !! k) as [old|] eqn:Hold; [|done]. simpl.
  intros [= <-]. destruct (reservation_lapsed now old) eqn:Hl.
  - split; [done|]. intros old' [= <-] Hres.
    apply is_reserved_true in Hres as [_ Hres].
    unfold reservation_lapsed in Hl. apply andb_true_iff in Hl as [_ Hl].
    apply bool_decide_eq_true in Hl. lia.
  - split; [done|]. by intros old' [= <-] _.
Qed.

End reservation.

(** C5, as stated, fails: while alice holds V1, a reserve by bob is refused
    with VOLUME_RESERVED (110), not ACCESS_DENIED (700). *)
Lemma reserve_by_other_is_not_access_denied :
  error_code (TMSSystem.reserve_volume 20 "V1" "bob" 60 reservation_scenario).1
  = Some VOLUME_RESERVED
  ∧ error_code
      (TMSSystem.reserve_volume 20 "V1" "bob" 60 reservation_scenario).1
    ≠ Some ACCESS_DENIED.
Proof. vm_compute. split; [reflexivity|discriminate]. Qed.

(** C5, amended: while user A holds an unexpired reservation on a volume,
    reserve by any other user B fails with VOLUME_RESERVED and release by B
    fails with ACCESS_DENIED, both leaving the engine unchanged; release by A
    succeeds and clears both [reserved_by] and [reservation_expires], after
    which reserve by B succeeds at any time and makes B the holder. *)
Theorem reservation_exclusive (s : TMSSystem.t) (volser A B : string)
    (v : TapeVolume.t) (now duration : Z) :
  TMSSystem.volumes_ s !! volser = Some v →
  TapeVolume.reserved_by v = A →
  TapeVolume.is_reserved now v = true →
  B ≠ A →
  TMSSystem.reserve_volume now volser B duration s
  = (fail VOLUME_RESERVED ("Volume reserved by: " +:+ A), s)
  ∧ TMSSystem.release_volume now volser B s
    = (fail ACCESS_DENIED ("Cannot release: reserved by " +:+ A), s)
  ∧ ∃ s' v',
      TMSSystem.release_volume now volser A s = (ok (), s')
      ∧ TMSSystem.volumes_ s' !! volser = Some v'
      ∧ TapeVolume.reserved_by v' = ""
      ∧ TapeVolume.reservation_expires v' = 0%Z
      ∧ ∀ now' duration', ∃ s'' v'',
          TMSSystem.reserve_volume now' volser B duration' s' = (ok (), s'')
          ∧ TMSSystem.volumes_ s'' !! volser = Some v''
          ∧ TapeVolume.reserved_by v'' = B
          ∧ TapeVolume.reservation_expires v''
            = time_point_add now' (to_ticks duration').
Proof.
  intros Hv HA Hres HBA. split_and!.
  - unfold TMSSystem.reserve_volume. rewrite Hv, Hres, HA.
    rewrite bool_decide_eq_false_2 by congruence. done.
  - unfold TMSSystem.release_volume. rewrite Hv, Hres, HA. simpl.
    rewrite bool_decide_eq_false_2 by congruence. done.
  - unfold TMSSystem.release_volume. rewrite Hv, Hres, HA. simpl.
    rewrite bool_decide_eq_true_2 by done. simpl.
    eexists _, _.
    split_and!; [reflexivity|apply lookup_insert_eq|reflexivity..|].
    intros now' duration'.
    edestruct (reserve_volume_free now' volser B duration') as (s'' & -> & Hs'');
      [apply lookup_insert_eq|left; by apply is_reserved_false; left|].
    eexists _, _.
    split_and!; [done|rewrite Hs''; apply lookup_insert_eq|reflexivity..].
Qed.

Lemma reservation_exclusive_witness :
  TMSSystem.reserve_volume 20 "V1" "bob" 60 reservation_scenario
  = (fail VOLUME_RESERVED ("Volume reserved by: " +:+ "alice"),
     reservation_scenario)
  ∧ TMSSystem.release_volume 20 "V1" "bob" reservation_scenario
    = (fail ACCESS_DENIED ("Cannot release: reserved by " +:+ "alice"),
       reservation_scenario)
  ∧ ∃ s' v',
      TMSSystem.release_volume 20 "V1" "alice" reservation_scenario
      = (ok (), s')
      ∧ TMSSystem.volumes_ s' !! "V1" = Some v'
      ∧ TapeVolume.reserved_by v' = ""
      ∧ TapeVolume.reservation_expires v' = 0%Z
      ∧ ∀ now' duration', ∃ s'' v'',
          TMSSystem.reserve_volume now' "V1" "bob" duration' s' = (ok (), s'')
          ∧ TMSSystem.volumes_ s'' !! "V1" = Some v''
          ∧ TapeVolume.reserved_by v'' = "bob"
          ∧ TapeVolume.reservation_expires v''
            = time_point_add now' (to_ticks duration').
Proof.
  eapply (reservation_exclusive reservation_scenario "V1" "alice" "bob"
            _ 20 60); [vm_compute; reflexivity|reflexivity|reflexivity|done].
Defined.

(** C10: a reservation whose expiry has passed does not block a new reserve.
    With a holder recorded but [reservation_expires] not in the future,
    [reserve_volume] by any user, in particular one different from the stale
    holder, succeeds at once and overwrites the holder and the expiry; no
    sweep by [cleanup_expired_reservations] is involved. *)
Theorem expired_reservation_never_blocks (s : TMSSystem.t)
    (volser user : string) (v : TapeVolume.t) (now duration : Z) :
  TMSSystem.volumes_ s !! volser = Some v →
  TapeVolume.reserved_by v ≠ "" →
  (TapeVolume.reservation_expires v ≤ now)%Z →
  ∃ s' v',
    TMSSystem.reserve_volume now volser user duration s = (ok (), s')
    ∧ TMSSystem.volumes_ s' !! volser = Some v'
    ∧ TapeVolume.reserved_by v' = user
    ∧ TapeVolume.reservation_expires v'
      = time_point_add now (to_ticks duration)
    ∧ ∀ k, k ≠ volser → TMSSystem.volumes_ s' !! k = TMSSystem.volumes_ s !! k.
Proof.
  intros Hv Hheld Hexp.
  edestruct (reserve_volume_free now volser user duration s v)
    as (s' & Hs' & Hvol); [done|left; apply is_reserved_false; by right|].
  exists s'. eexists.
  split_and!; [done|rewrite Hvol; apply lookup_insert_eq|reflexivity..|].
  intros k Hk. rewrite Hvol. by apply lookup_insert_ne.
Qed.

Lemma expired_reservation_never_blocks_witness :
  ∃ s' v',
    TMSSystem.reserve_volume 10000000000000 "V1" "bob" 60 reservation_scenario
    = (ok (), s')
    ∧ TMSSystem.volumes_ s' !! "V1" = Some v'
    ∧ TapeVolume.reserved_by v' = "bob"
    ∧ TapeVolume.reservation_expires v'
      = time_point_add 10000000000000 (to_ticks 60)
    ∧ ∀ k, k ≠ "V1" →
        TMSSystem.volumes_ s' !! k
        = TMSSystem.volumes_ reservation_scenario !! k.
Proof.
  eapply (expired_reservation_never_blocks reservation_scenario "V1" "bob"
            _ 10000000000000 60);
    [vm_compute; reflexivity|vm_compute; discriminate|vm_compute; discriminate].
Defined.

(** ** Outcomes of the single-item operations *)

Section outcomes.

Import TMSSystem.

Implicit Types (s : t) (cfg : Configuration) (now : Z).

Lemma prepare_volume_fields now vol :
  let vol' := prepare_volume now vol in
  TapeVolume.volser vol' = TapeVolume.volser vol
  ∧ TapeVolume.status vol' = TapeVolume.status vol
  ∧ TapeVolume.density vol' = TapeVolume.density vol
  ∧ TapeVolume.pool vol' = TapeVolume.pool vol
  ∧ TapeVolume.owner vol' = TapeVolume.owner vol
  ∧ TapeVolume.tags vol' = TapeVolume.tags vol
  ∧ TapeVolume.datasets vol' = TapeVolume.datasets vol
  ∧ TapeVolume.used_bytes vol' = TapeVolume.used_bytes vol
  ∧ TapeVolume.reserved_by vol' = TapeVolume.reserved_by vol
  ∧ TapeVolume.reservation_expires vol' = TapeVolume.reservation_expires vol.
Proof.
  unfold prepare_volume. simpl.
  repeat (case_decide; simpl); by split_and!.
Qed.

Lemma prepare_dataset_fields now ds :
  let ds' := prepare_dataset now ds in
  Dataset.name ds' = Dataset.name ds
  ∧ Dataset.volser ds' = Dataset.volser ds
  ∧ Dataset.size_bytes ds' = Dataset.size_bytes ds
  ∧ Dataset.owner ds' = Dataset.owner ds
  ∧ Dataset.tags ds' = Dataset.tags ds.
Proof.
  unfold prepare_dataset. simpl.
  repeat (case_decide; simpl); by split_and!.
Qed.

(** A failed operation leaves the engine as it was. *)
Lemma add_volume_err cfg now vol s e s' :
  add_volume cfg now vol s = (err e, s') → s' = s.
Proof.
  unfold add_volume. repeat case_match; by intros [= <-].
Qed.

Lemma add_dataset_err cfg now ds s e s' :
  add_dataset cfg now ds s = (err e, s') → s' = s.
Proof.
  unfold add_dataset. repeat case_match; by intros [= <-].
Qed.

Lemma delete_dataset_err now name s e s' :
  delete_dataset now name s = (err e, s') → s' = s.
Proof.
  unfold delete_dataset. repeat case_match; by intros [= <-].
Qed.

Lemma delete_volume_err now volser force s e s' :
  delete_volume now volser force s = (err e, s') → s' = s.
Proof.
  unfold delete_volume. repeat case_match; by intros [= <-].
Qed.

Lemma update_volume_err now vol s e s' :
  update_volume now vol s = (err e, s') → s' = s.
Proof.
  unfold update_volume. repeat case_match; by intros [= <-].
Qed.

Lemma update_dataset_err now ds s e s' :
  update_dataset now ds s = (err e, s') → s' = s.
Proof.
  unfold update_dataset. repeat case_match; by intros [= <-].
Qed.

(** What a successful [add_volume] did. *)
Lemma add_volume_ok cfg now vol s u s' :
  add_volume cfg now vol s = (ok u, s') →
  let key := TapeVolume.volser vol in
  validate_volser key = true
  ∧ (N.of_nat (size (volumes_ s)) < get_max_volumes cfg)%N
  ∧ volumes_ s !! key = None
  ∧ volumes_ s' = <[key := prepare_volume now vol]> (volumes_ s)
  ∧ datasets_ s' = datasets_ s
  ∧ volume_owner_index_ s'
    = SecondaryIndex.add (TapeVolume.owner vol) key (volume_owner_index_ s)
  ∧ volume_pool_index_ s'
    = SecondaryIndex.add (TapeVolume.pool vol) key (volume_pool_index_ s)
  ∧ volume_tag_index_ s'
    = add_tags (TapeVolume.tags vol) key (volume_tag_index_ s)
  ∧ dataset_owner_index_ s' = dataset_owner_index_ s
  ∧ dataset_tag_index_ s' = dataset_tag_index_ s.
Proof.
  unfold add_volume.
  destruct (prepare_volume_fields now vol)
    as (Hk & _ & _ & Hp & Ho & Ht & _).
  destruct (validate_volser (TapeVolume.volser vol)) eqn:Hval; [|done].
  destruct (N.leb_spec (get_max_volumes cfg) (N.of_nat (size (volumes_ s))));
    [done|].
  case_decide as Hex; [done|]. cbn [negb].
  rewrite pair_equal_spec, !Hk, !Hp, !Ho, !Ht. intros [_ <-].
  split_and!; try done. by apply eq_None_not_Some.
Qed.

(** What a successful [add_dataset] did. *)
Lemma add_dataset_ok cfg now ds s u s' :
  add_dataset cfg now ds s = (ok u, s') →
  let key := Dataset.name ds in
  validate_dataset_name key = true
  ∧ datasets_ s !! key = None
  ∧ ∃ v,
      volumes_ s !! Dataset.volser ds = Some v
      ∧ volumes_ s'
        = <[Dataset.volser ds := attach_dataset (prepare_dataset now ds) v]>
            (volumes_ s)
      ∧ datasets_ s' = <[key := prepare_dataset now ds]> (datasets_ s)
      ∧ volume_owner_index_ s' = volume_owner_index_ s
      ∧ volume_pool_index_ s' = volume_pool_index_ s
      ∧ volume_tag_index_ s' = volume_tag_index_ s
      ∧ dataset_owner_index_ s'
        = SecondaryIndex.add (Dataset.owner ds) key (dataset_owner_index_ s)
      ∧ dataset_tag_index_ s'
        = add_tags (Dataset.tags ds) key (dataset_tag_index_ s).
Proof.
  unfold add_dataset.
  destruct (prepare_dataset_fields now ds) as (Hk & Hv & _ & Ho & Ht).
  destruct (validate_dataset_name (Dataset.name ds)) eqn:Hval; [|done].
  cbn [negb]. case_match; [done|].
  case_decide as Hex; [done|].
  destruct (volumes_ s !! Dataset.volser ds) as [v|] eqn:Hvol; [|done].
  rewrite pair_equal_spec, !Hk, !Hv, !Ho, !Ht. intros [_ <-].
  split_and!; [done|by apply eq_None_not_Some|].
  exists v. by split_and!.
Qed.

(** What a successful [delete_dataset] did. *)
Lemma delete_dataset_ok now name s u s' :
  delete_dataset now name s = (ok u, s') →
  ∃ ds,
    datasets_ s !! name = Some ds
    ∧ volumes_ s'
      = match volumes_ s !! Dataset.volser ds with
        | Some v =>
            <[Dataset.volser ds := detach_dataset ds name v]> (volumes_ s)
        | None => volumes_ s
        end
    ∧ datasets_ s' = delete name (datasets_ s)
    ∧ volume_owner_index_ s' = volume_owner_index_ s
    ∧ volume_pool_index_ s' = volume_pool_index_ s
    ∧ volume_tag_index_ s' = volume_tag_index_ s
    ∧ dataset_owner_index_ s'
      = SecondaryIndex.remove (Dataset.owner ds) name (dataset_owner_index_ s)
    ∧ dataset_tag_index_ s'
      = remove_tags (Dataset.tags ds) name (dataset_tag_index_ s).
Proof.
  unfold delete_dataset.
  destruct (datasets_ s !! name) as [ds|] eqn:Hds; [|done].
  rewrite pair_equal_spec. intros [_ <-]. exists ds.
  destruct (volumes_ s !! Dataset.volser ds); simpl; by split_and!.
Qed.

Lemma delete_dataset_present now name s ds :
  datasets_ s !! name = Some ds →
  ∃ s', delete_dataset now name s = (ok (), s').
Proof. intros Hds. unfold delete_dataset. rewrite Hds. by eexists. Qed.

End outcomes.

(** ** Dataset attachment and the volume lifecycle *)

Section lifecycle.

Import TMSSystem.

Lemma attach_dataset_fields ds v :
  let v' := attach_dataset ds v in
  TapeVolume.volser v' = TapeVolume.volser v
  ∧ TapeVolume.datasets v' = TapeVolume.datasets v ++ [Dataset.name ds]
  ∧ TapeVolume.used_bytes v'
    = u64_add (TapeVolume.used_bytes v) (Dataset.size_bytes ds)
  ∧ TapeVolume.status v'
    = (if decide (TapeVolume.status v = SCRATCH) then PRIVATE
       else TapeVolume.status v)
  ∧ TapeVolume.owner v' = TapeVolume.owner v
  ∧ TapeVolume.pool v' = TapeVolume.pool v
  ∧ TapeVolume.tags v' = TapeVolume.tags v.
Proof.
  unfold attach_dataset. simpl. case_decide; simpl; by split_and!.
Qed.

Lemma detach_dataset_fields ds name v :
  let v' := detach_dataset ds name v in
  let ds_list := filter (λ n, n ≠ name) (TapeVolume.datasets v) in
  TapeVolume.volser v' = TapeVolume.volser v
  ∧ TapeVolume.datasets v' = ds_list
  ∧ TapeVolume.used_bytes v'
    = (if (Dataset.size_bytes ds <=? TapeVolume.used_bytes v)%N
       then TapeVolume.used_bytes v - Dataset.size_bytes ds else 0)%N
  ∧ TapeVolume.status v'
    = (if bool_decide (ds_list = [])
          && bool_decide (TapeVolume.status v = PRIVATE)
       then SCRATCH else TapeVolume.status v)
  ∧ TapeVolume.owner v' = TapeVolume.owner v
  ∧ TapeVolume.pool v' = TapeVolume.pool v
  ∧ TapeVolume.tags v' = TapeVolume.tags v.
Proof.
  unfold detach_dataset. simpl.
  destruct (Dataset.size_bytes ds <=? TapeVolume.used_bytes v)%N; simpl;
    destruct (bool_decide
                (filter (λ n, n ≠ name) (TapeVolume.datasets v) = []));
    simpl;
    destruct (bool_decide (TapeVolume.status v = PRIVATE)); simpl;
    by split_and!.
Qed.

End lifecycle.

(** C6: a volume V added with status SCRATCH and no datasets becomes PRIVATE
    once [add_dataset] puts a dataset D on it, and [delete_dataset] of D, the
    only dataset on V, succeeds and returns V to SCRATCH with an empty
    dataset list. *)
Theorem dataset_add_delete_round_trip (cfg : Configuration)
    (s s1 s2 : TMSSystem.t) (vol : TapeVolume.t) (ds : Dataset.t)
    (n1 n2 n3 : Z) :
  TapeVolume.status vol = SCRATCH →
  TapeVolume.datasets vol = [] →
  Dataset.volser ds = TapeVolume.volser vol →
  TMSSystem.add_volume cfg n1 vol s = (ok (), s1) →
  TMSSystem.add_dataset cfg n2 ds s1 = (ok (), s2) →
  (∃ v2,
     TMSSystem.volumes_ s2 !! TapeVolume.volser vol = Some v2
     ∧ TapeVolume.status v2 = PRIVATE
     ∧ TapeVolume.datasets v2 = [Dataset.name ds])
  ∧ ∃ s3 v3,
      TMSSystem.delete_dataset n3 (Dataset.name ds) s2 = (ok (), s3)
      ∧ TMSSystem.volumes_ s3 !! TapeVolume.volser vol = Some v3
      ∧ TapeVolume.status v3 = SCRATCH
      ∧ TapeVolume.datasets v3 = [].
Proof.
  intros Hst Hds Hon Hadd1 Hadd2.
  apply add_volume_ok in Hadd1
    as (_ & _ & _ & Hvol1 & _).
  apply add_dataset_ok in Hadd2
    as (_ & _ & v & Hv & Hvol2 & Hdat2 & _).
  rewrite Hon in Hv, Hvol2. rewrite Hvol1, lookup_insert_eq in Hv.
  injection Hv as <-.
  destruct (prepare_volume_fields n1 vol)
    as (_ & Hst1 & _ & _ & _ & _ & Hds1 & _).
  destruct (prepare_dataset_fields n2 ds) as (Hname & Hvs & _).
  destruct (attach_dataset_fields (TMSSystem.prepare_dataset n2 ds)
              (TMSSystem.prepare_volume n1 vol))
    as (_ & Hds2 & _ & Hst2 & _).
  rewrite Hst1, Hst, decide_True in Hst2 by done.
  rewrite Hds1, Hds, Hname in Hds2. simpl in Hds2.
  split.
  - eexists. rewrite Hvol2, lookup_insert_eq. by split_and!.
  - destruct (delete_dataset_present n3 (Dataset.name ds) s2
                (TMSSystem.prepare_dataset n2 ds)) as [s3 Hdel].
    { rewrite Hdat2. apply lookup_insert_eq. }
    exists s3. pose proof Hdel as Hdel'.
    apply delete_dataset_ok in Hdel' as (ds' & Hds' & Hvol3 & _).
    rewrite Hdat2, lookup_insert_eq in Hds'. injection Hds' as <-.
    rewrite Hvs, Hon, Hvol2, lookup_insert_eq in Hvol3.
    destruct (detach_dataset_fields (TMSSystem.prepare_dataset n2 ds)
                (Dataset.name ds)
                (TMSSystem.attach_dataset (TMSSystem.prepare_dataset n2 ds)
                   (TMSSystem.prepare_volume n1 vol)))
      as (_ & Hds3 & _ & Hst3 & _).
    rewrite Hds2 in Hds3, Hst3. rewrite Hst2 in Hst3.
    assert (filter (λ n, n ≠ Dataset.name ds) [Dataset.name ds] = [])
      as Hfil by (rewrite filter_cons, decide_False by naive_solver; done).
    rewrite Hfil in Hds3, Hst3.
    rewrite !bool_decide_eq_true_2 in Hst3 by done. simpl in Hst3.
    eexists. rewrite Hvol3, lookup_insert_eq. by split_and!.
Qed.

Lemma dataset_add_delete_round_trip_witness :
  let vol := TapeVolume.default "V00001" in
  let ds := Dataset.default "PROD.DATA" "V00001" 1000 in
  let s1 := (TMSSystem.add_volume default_configuration 5 vol
               TMSSystem.empty).2 in
  let s2 := (TMSSystem.add_dataset default_configuration 6 ds s1).2 in
  (∃ v2,
     TMSSystem.volumes_ s2 !! TapeVolume.volser vol = Some v2
     ∧ TapeVolume.status v2 = PRIVATE
     ∧ TapeVolume.datasets v2 = [Dataset.name ds])
  ∧ ∃ s3 v3,
      TMSSystem.delete_dataset 7 (Dataset.name ds) s2 = (ok (), s3)
      ∧ TMSSystem.volumes_ s3 !! TapeVolume.volser vol = Some v3
      ∧ TapeVolume.status v3 = SCRATCH
      ∧ TapeVolume.datasets v3 = [].
Proof.
  intros vol ds s1 s2.
  apply (dataset_add_delete_round_trip default_configuration TMSSystem.empty
           s1 s2 vol ds 5 6 7); vm_compute; reflexivity.
Defined.

(** ** Secondary index lookups after an update *)

Section secondary_index.

Import SecondaryIndex.

Implicit Types (idx : SecondaryIndex.t) (key val : string).

Lemma find_add val key idx val' k :
  k ∈ find val' (add val key idx)
  ↔ k ∈ find val' idx ∨ (val' = val ∧ k = key ∧ val ≠ "").
Proof.
  unfold find, add. case_decide as Hval.
  - naive_solver.
  - destruct (decide (val' = val)) as [->|Hne].
    + rewrite lookup_insert_eq. simpl. set_solver.
    + rewrite lookup_insert_ne by done. naive_solver.
Qed.

Lemma find_remove val key idx val' k :
  k ∈ find val' (remove val key idx)
  ↔ k ∈ find val' idx ∧ ¬ (val' = val ∧ k = key).
Proof.
  unfold find, remove.
  destruct (idx !! val) as [keys|] eqn:Hkeys.
  - simpl. case_decide as Hempty.
    + destruct (decide (val' = val)) as [->|Hne].
      * rewrite lookup_delete_eq, Hkeys. simpl. set_solver.
      * rewrite lookup_delete_ne by done. naive_solver.
    + destruct (decide (val' = val)) as [->|Hne].
      * rewrite lookup_insert_eq, Hkeys. simpl. set_solver.
      * rewrite lookup_insert_ne by done. naive_solver.
  - destruct (decide (val' = val)) as [->|Hne].
    + rewrite Hkeys. simpl. set_solver.
    + naive_solver.
Qed.

Lemma find_update old_value new_value key idx val' k :
  k ∈ find val' (update old_value new_value key idx)
  ↔ (k ∈ find val' idx ∧ ¬ (val' = old_value ∧ k = key))
    ∨ (val' = new_value ∧ k = key ∧ new_value ≠ "").
Proof. unfold update. rewrite find_add, find_remove. done. Qed.

Lemma find_add_list vals key idx val' k :
  k ∈ find val' (foldl (λ idx tag, add tag key idx) idx vals)
  ↔ k ∈ find val' idx ∨ (k = key ∧ val' ∈ vals ∧ val' ≠ "").
Proof.
  revert idx. induction vals as [|v vals IH]; intros idx; simpl.
  - set_solver.
  - rewrite IH, find_add. set_solver.
Qed.

Lemma find_remove_list vals key idx val' k :
  k ∈ find val' (foldl (λ idx tag, remove tag key idx) idx vals)
  ↔ k ∈ find val' idx ∧ ¬ (k = key ∧ val' ∈ vals).
Proof.
  revert idx. induction vals as [|v vals IH]; intros idx; simpl.
  - set_solver.
  - rewrite IH, find_remove. set_solver.
Qed.

Lemma find_add_list_unless (keep : gset string) vals key idx val' k :
  k ∈ find val'
        (foldl (λ idx tag, if decide (tag ∈ keep) then idx
                           else add tag key idx) idx vals)
  ↔ k ∈ find val' idx
    ∨ (k = key ∧ val' ∈ vals ∧ (val' ∉ keep) ∧ val' ≠ "").
Proof.
  revert idx. induction vals as [|v vals IH]; intros idx; simpl.
  - set_solver.
  - rewrite IH. case_decide; [|rewrite find_add]; set_solver.
Qed.

Lemma find_remove_list_unless (keep : gset string) vals key idx val' k :
  k ∈ find val'
        (foldl (λ idx tag, if decide (tag ∈ keep) then idx
                           else remove tag key idx) idx vals)
  ↔ k ∈ find val' idx ∧ ¬ (k = key ∧ val' ∈ vals ∧ val' ∉ keep).
Proof.
  revert idx. induction vals as [|v vals IH]; intros idx; simpl.
  - set_solver.
  - rewrite IH. case_decide; [|rewrite find_remove]; set_solver.
Qed.

End secondary_index.

(** ** Index updates as steps, and agreement across a step *)

Section index_steps.

Import TMSSystem.

Implicit Types (idx : SecondaryIndex.t) (key : string).

Lemma index_step_refl idx key (vals : gset string) :
  index_step idx idx key vals vals.
Proof. intros val k. naive_solver. Qed.

Lemma index_step_add idx key val :
  index_step idx (SecondaryIndex.add val key idx) key ∅ {[val]}.
Proof. intros val' k. rewrite find_add. set_solver. Qed.

Lemma index_step_remove idx key val :
  index_step idx (SecondaryIndex.remove val key idx) key {[val]} ∅.
Proof. intros val' k. rewrite find_remove. set_solver. Qed.

(** The guarded call of [update] in [update_volume], [update_dataset]. *)
Lemma index_step_update idx key (old_value new_value : string) :
  index_step idx
    (if decide (old_value ≠ new_value)
     then SecondaryIndex.update old_value new_value key idx else idx)
    key {[old_value]} {[new_value]}.
Proof.
  intros val' k. case_decide as Hne.
  - rewrite find_update. set_solver.
  - subst. naive_solver.
Qed.

Lemma index_step_add_tags idx key (tags : gset string) :
  index_step idx (add_tags tags key idx) key ∅ tags.
Proof.
  intros val' k. unfold add_tags. rewrite find_add_list.
  rewrite elem_of_sorted_elements. set_solver.
Qed.

Lemma index_step_remove_tags idx key (tags : gset string) :
  index_step idx (remove_tags tags key idx) key tags ∅.
Proof.
  intros val' k. unfold remove_tags. rewrite find_remove_list.
  rewrite elem_of_sorted_elements. set_solver.
Qed.

Lemma index_step_retag idx key (old_tags new_tags : gset string) :
  index_step idx (retag old_tags new_tags key idx) key old_tags new_tags.
Proof.
  intros val' k. unfold retag.
  rewrite find_add_list_unless, find_remove_list_unless.
  rewrite !elem_of_sorted_elements.
  destruct (decide (val' ∈ old_tags)), (decide (val' ∈ new_tags));
    naive_solver.
Qed.

Context {V : Type} (attrs : V → gset string).

(** Agreement survives a step that mirrors the change of the record at
    [key]. *)
Lemma index_agrees_step (m m' : gmap string V) idx idx' key
    (new : option V) :
  index_agrees attrs m idx →
  m' !! key = new →
  (∀ k, k ≠ key → m' !! k = m !! k) →
  index_step idx idx' key (attrs_of attrs (m !! key)) (attrs_of attrs new) →
  index_agrees attrs m' idx'.
Proof.
  intros Hagree Hkey Hother Hstep val k.
  rewrite (Hstep val k), (Hagree val k).
  destruct (decide (k = key)) as [->|Hne].
  - rewrite Hkey.
    destruct (m !! key) as [old|], new as [r|]; simpl;
      try destruct (decide (val ∈ attrs old));
      try destruct (decide (val ∈ attrs r)); naive_solver.
  - rewrite (Hother k Hne). naive_solver.
Qed.

Lemma index_agrees_insert (m : gmap string V) idx idx' key (r : V) :
  index_agrees attrs m idx →
  index_step idx idx' key (attrs_of attrs (m !! key)) (attrs r) →
  index_agrees attrs (<[key := r]> m) idx'.
Proof.
  intros Hagree Hstep.
  apply (index_agrees_step m _ idx idx' key (Some r)); [done| | |done].
  - apply lookup_insert_eq.
  - intros k Hne. by apply lookup_insert_ne.
Qed.

Lemma index_agrees_delete (m : gmap string V) idx idx' key :
  index_agrees attrs m idx →
  index_step idx idx' key (attrs_of attrs (m !! key)) ∅ →
  index_agrees attrs (delete key m) idx'.
Proof.
  intros Hagree Hstep.
  apply (index_agrees_step m _ idx idx' key None); [done| | |done].
  - apply lookup_delete_eq.
  - intros k Hne. by apply lookup_delete_ne.
Qed.

(** Replacing a record by one with the same indexed values needs no index
    update. *)
Lemma index_agrees_same_attrs (m : gmap string V) idx key (old r : V) :
  index_agrees attrs m idx →
  m !! key = Some old →
  attrs r = attrs old →
  index_agrees attrs (<[key := r]> m) idx.
Proof.
  intros Hagree Hold Hsame. apply (index_agrees_insert m idx idx key r);
    [done|]. rewrite Hold, Hsame. apply index_step_refl.
Qed.

Lemma index_agrees_empty : index_agrees attrs (∅ : gmap string V) ∅.
Proof.
  intros val k. unfold SecondaryIndex.find.
  rewrite !lookup_empty. simpl. set_solver.
Qed.

End index_steps.

(** ** The cascade of a forced volume deletion *)

Section cascade.

Import TMSSystem.

Implicit Types (s : t) (names : list string).

Lemma cascade_delete_dataset_fields s name :
  let s' := cascade_delete_dataset s name in
  volumes_ s' = volumes_ s
  ∧ volume_owner_index_ s' = volume_owner_index_ s
  ∧ volume_pool_index_ s' = volume_pool_index_ s
  ∧ volume_tag_index_ s' = volume_tag_index_ s
  ∧ audit_log_ s' = audit_log_ s
  ∧ current_user_ s' = current_user_ s
  ∧ datasets_ s' = delete name (datasets_ s).
Proof.
  unfold cascade_delete_dataset.
  destruct (datasets_ s !! name) eqn:Hds; simpl; split_and!; try done.
  by rewrite delete_id.
Qed.

Lemma cascade_fields s names :
  let s' := foldl cascade_delete_dataset s names in
  volumes_ s' = volumes_ s
  ∧ volume_owner_index_ s' = volume_owner_index_ s
  ∧ volume_pool_index_ s' = volume_pool_index_ s
  ∧ volume_tag_index_ s' = volume_tag_index_ s
  ∧ audit_log_ s' = audit_log_ s
  ∧ current_user_ s' = current_user_ s
  ∧ datasets_ s' = foldl (λ m n, delete n m) (datasets_ s) names.
Proof.
  revert s. induction names as [|n names IH]; intros s; [done|].
  simpl. destruct (IH (cascade_delete_dataset s n))
    as (-> & -> & -> & -> & -> & -> & ->).
  destruct (cascade_delete_dataset_fields s n)
    as (-> & -> & -> & -> & -> & -> & ->). done.
Qed.

Lemma lookup_delete_all (m : gmap string Dataset.t) names k :
  foldl (λ m n, delete n m) m names !! k
  = if decide (k ∈ names) then None else m !! k.
Proof.
  revert m. induction names as [|n names IH]; intros m.
  - rewrite decide_False by set_solver. done.
  - cbn [foldl]. rewrite IH. destruct (decide (k = n)) as [->|Hne].
    + rewrite lookup_delete_eq, (decide_True (P := n ∈ n :: names))
        by set_solver. by case_decide.
    + rewrite lookup_delete_ne by done.
      destruct (decide (k ∈ names)).
      * by rewrite decide_True by set_solver.
      * by rewrite decide_False by set_solver.
Qed.

Lemma cascade_delete_dataset_agrees s name :
  index_agrees dataset_owner (datasets_ s) (dataset_owner_index_ s) →
  index_agrees Dataset.tags (datasets_ s) (dataset_tag_index_ s) →
  let s' := cascade_delete_dataset s name in
  index_agrees dataset_owner (datasets_ s') (dataset_owner_index_ s')
  ∧ index_agrees Dataset.tags (datasets_ s') (dataset_tag_index_ s').
Proof.
  intros Ho Ht. unfold cascade_delete_dataset.
  destruct (datasets_ s !! name) as [ds|] eqn:Hds; [|done]. simpl. split.
  - eapply index_agrees_delete; [done|].
    rewrite Hds. apply index_step_remove.
  - eapply index_agrees_delete; [done|].
    rewrite Hds. apply index_step_remove_tags.
Qed.

Lemma cascade_agrees s names :
  index_agrees dataset_owner (datasets_ s) (dataset_owner_index_ s) →
  index_agrees Dataset.tags (datasets_ s) (dataset_tag_index_ s) →
  let s' := foldl cascade_delete_dataset s names in
  index_agrees dataset_owner (datasets_ s') (dataset_owner_index_ s')
  ∧ index_agrees Dataset.tags (datasets_ s') (dataset_tag_index_ s').
Proof.
  revert s. induction names as [|n names IH]; intros s Ho Ht; [done|].
  simpl. destruct (cascade_delete_dataset_agrees s n Ho Ht). by apply IH.
Qed.

End cascade.

Section more_outcomes.

Import TMSSystem.

Implicit Types (s : t) (now : Z).

(** What a successful [delete_volume] did. *)
Lemma delete_volume_ok now volser force s u s' :
  delete_volume now volser force s = (ok u, s') →
  ∃ v,
    volumes_ s !! volser = Some v
    ∧ (force = true ∨ TapeVolume.datasets v = [])
    ∧ TapeVolume.status v ≠ MOUNTED
    ∧ TapeVolume.is_reserved now v = false
    ∧ volumes_ s' = delete volser (volumes_ s)
    ∧ volume_owner_index_ s'
      = SecondaryIndex.remove (TapeVolume.owner v) volser
          (volume_owner_index_ s)
    ∧ volume_pool_index_ s'
      = SecondaryIndex.remove (TapeVolume.pool v) volser
          (volume_pool_index_ s)
    ∧ volume_tag_index_ s'
      = remove_tags (TapeVolume.tags v) volser (volume_tag_index_ s)
    ∧ datasets_ s'
      = (if force
         then foldl (λ m n, delete n m) (datasets_ s) (TapeVolume.datasets v)
         else datasets_ s)
    ∧ (force = false →
       dataset_owner_index_ s' = dataset_owner_index_ s
       ∧ dataset_tag_index_ s' = dataset_tag_index_ s)
    ∧ (index_agrees dataset_owner (datasets_ s) (dataset_owner_index_ s) →
       index_agrees Dataset.tags (datasets_ s) (dataset_tag_index_ s) →
       index_agrees dataset_owner (datasets_ s') (dataset_owner_index_ s')
       ∧ index_agrees Dataset.tags (datasets_ s') (dataset_tag_index_ s')).
Proof.
  unfold delete_volume.
  destruct (volumes_ s !! volser) as [v|] eqn:Hv; [|done].
  destruct (negb force
            && negb (bool_decide (TapeVolume.datasets v = []))) eqn:Hg;
    [done|].
  case_decide as Hm; [done|].
  destruct (TapeVolume.is_reserved now v) eqn:Hr; [done|].
  rewrite pair_equal_spec. intros [_ <-]. exists v.
  assert (force = true ∨ TapeVolume.datasets v = []) as Hforce.
  { apply andb_false_iff in Hg as [Hg|Hg].
    - left. by destruct force.
    - right. by apply negb_false_iff, bool_decide_eq_true in Hg. }
  destruct force; simpl.
  - match goal with
    | |- context [foldl cascade_delete_dataset ?s0 ?names] =>
        pose proof (cascade_fields s0 names) as Hc;
        pose proof (cascade_agrees s0 names) as Ha
    end.
    simpl in Hc, Ha. destruct Hc as (-> & -> & -> & -> & _ & _ & Hd).
    rewrite Hd in Ha |- *. by split_and!.
  - by split_and!.
Qed.

Lemma delete_volume_allowed now volser force s v :
  volumes_ s !! volser = Some v →
  force = true ∨ TapeVolume.datasets v = [] →
  TapeVolume.status v ≠ MOUNTED →
  TapeVolume.is_reserved now v = false →
  ∃ s', delete_volume now volser force s = (ok (), s').
Proof.
  intros Hv Hforce Hm Hr. unfold delete_volume. rewrite Hv, Hr.
  rewrite decide_False by done.
  assert (negb force && negb (bool_decide (TapeVolume.datasets v = []))
          = false) as ->.
  { destruct Hforce as [->| ->]; [done|].
    rewrite bool_decide_eq_true_2 by done. by destruct force. }
  by eexists.
Qed.

(** A refused [delete_volume] changes nothing and one of its guards
    failed. *)
Lemma delete_volume_refused now volser force s e s' :
  delete_volume now volser force s = (err e, s') →
  s' = s
  ∧ ∀ v, volumes_ s !! volser = Some v →
      TapeVolume.status v ≠ MOUNTED →
      TapeVolume.is_reserved now v = false →
      ¬ (TapeVolume.datasets v = [] ∨ force = true).
Proof.
  intros Hop. split; [by eapply delete_volume_err|].
  intros v Hv Hm Hr Hd.
  destruct (delete_volume_allowed now volser force s v) as [s'' Hok];
    [done|by destruct Hd; auto|done|done|congruence].
Qed.

(** What a successful [update_volume] did. *)
Lemma update_volume_ok now vol s u s' :
  update_volume now vol s = (ok u, s') →
  let key := TapeVolume.volser vol in
  ∃ old,
    volumes_ s !! key = Some old
    ∧ volumes_ s' = <[key := vol]> (volumes_ s)
    ∧ datasets_ s' = datasets_ s
    ∧ volume_owner_index_ s'
      = (if decide (TapeVolume.owner old ≠ TapeVolume.owner vol)
         then SecondaryIndex.update (TapeVolume.owner old)
                (TapeVolume.owner vol) key (volume_owner_index_ s)
         else volume_owner_index_ s)
    ∧ volume_pool_index_ s'
      = (if decide (TapeVolume.pool old ≠ TapeVolume.pool vol)
         then SecondaryIndex.update (TapeVolume.pool old)
                (TapeVolume.pool vol) key (volume_pool_index_ s)
         else volume_pool_index_ s)
    ∧ volume_tag_index_ s'
      = retag (TapeVolume.tags old) (TapeVolume.tags vol) key
          (volume_tag_index_ s)
    ∧ dataset_owner_index_ s' = dataset_owner_index_ s
    ∧ dataset_tag_index_ s' = dataset_tag_index_ s.
Proof.
  unfold update_volume.
  destruct (volumes_ s !! TapeVolume.volser vol) as [old|] eqn:Hold;
    [|done].
  rewrite pair_equal_spec. intros [_ <-]. exists old.
  repeat case_decide; simpl; by split_and!.
Qed.

(** What a successful [update_dataset] did. *)
Lemma update_dataset_ok now ds s u s' :
  update_dataset now ds s = (ok u, s') →
  let key := Dataset.name ds in
  ∃ old,
    datasets_ s !! key = Some old
    ∧ datasets_ s' = <[key := ds]> (datasets_ s)
    ∧ volumes_ s' = volumes_ s
    ∧ volume_owner_index_ s' = volume_owner_index_ s
    ∧ volume_pool_index_ s' = volume_pool_index_ s
    ∧ volume_tag_index_ s' = volume_tag_index_ s
    ∧ dataset_owner_index_ s'
      = (if decide (Dataset.owner old ≠ Dataset.owner ds)
         then SecondaryIndex.update (Dataset.owner old) (Dataset.owner ds)
                key (dataset_owner_index_ s)
         else dataset_owner_index_ s)
    ∧ dataset_tag_index_ s'
      = retag (Dataset.tags old) (Dataset.tags ds) key
          (dataset_tag_index_ s).
Proof.
  unfold update_dataset.
  destruct (datasets_ s !! Dataset.name ds) as [old|] eqn:Hold; [|done].
  rewrite pair_equal_spec. intros [_ <-]. exists old.
  repeat case_decide; simpl; by split_and!.
Qed.

End more_outcomes.

(** ** Index consistency is an invariant of the catalog operations *)

Section consistency.

Import TMSSystem.

Implicit Types (s : t) (cfg : Configuration) (now : Z).

Lemma index_consistent_empty : index_consistent empty.
Proof. split; apply index_agrees_empty. Qed.

Lemma add_volume_consistent cfg now vol s :
  index_consistent s → index_consistent (add_volume cfg now vol s).2.
Proof.
  intros [Ho Hp Ht Hdo Hdt].
  destruct (add_volume cfg now vol s) as [[u|e] s'] eqn:Hop; simpl.
  - apply add_volume_ok in Hop
      as (_ & _ & Hnew & Hvol & Hds & Hio & Hip & Hit & Hido & Hidt).
    destruct (prepare_volume_fields now vol)
      as (_ & _ & _ & Hp' & Ho' & Ht' & _).
    split; rewrite ?Hvol, ?Hds, ?Hio, ?Hip, ?Hit, ?Hido, ?Hidt; try done.
    + eapply index_agrees_insert; [done|]. rewrite Hnew.
      unfold volume_owner. rewrite Ho'. apply index_step_add.
    + eapply index_agrees_insert; [done|]. rewrite Hnew.
      unfold volume_pool. rewrite Hp'. apply index_step_add.
    + eapply index_agrees_insert; [done|]. rewrite Hnew, Ht'.
      apply index_step_add_tags.
  - apply add_volume_err in Hop as ->. by split.
Qed.

Lemma update_volume_consistent now vol s :
  index_consistent s → index_consistent (update_volume now vol s).2.
Proof.
  intros [Ho Hp Ht Hdo Hdt].
  destruct (update_volume now vol s) as [[u|e] s'] eqn:Hop; simpl.
  - apply update_volume_ok in Hop
      as (old & Hold & Hvol & Hds & Hio & Hip & Hit & Hido & Hidt).
    split; rewrite ?Hvol, ?Hds, ?Hio, ?Hip, ?Hit, ?Hido, ?Hidt; try done.
    + eapply index_agrees_insert; [done|]. rewrite Hold.
      apply index_step_update.
    + eapply index_agrees_insert; [done|]. rewrite Hold.
      apply index_step_update.
    + eapply index_agrees_insert; [done|]. rewrite Hold.
      apply index_step_retag.
  - apply update_volume_err in Hop as ->. by split.
Qed.

Lemma delete_volume_consistent now volser force s :
  index_consistent s → index_consistent (delete_volume now volser force s).2.
Proof.
  intros [Ho Hp Ht Hdo Hdt].
  destruct (delete_volume now volser force s) as [[u|e] s'] eqn:Hop; simpl.
  - apply delete_volume_ok in Hop
      as (v & Hv & _ & _ & _ & Hvol & Hio & Hip & Hit & _ & _ & Hcas).
    destruct (Hcas Hdo Hdt) as [Hdo' Hdt'].
    split; rewrite ?Hvol, ?Hio, ?Hip, ?Hit; try done.
    + eapply index_agrees_delete; [done|]. rewrite Hv.
      apply index_step_remove.
    + eapply index_agrees_delete; [done|]. rewrite Hv.
      apply index_step_remove.
    + eapply index_agrees_delete; [done|]. rewrite Hv.
      apply index_step_remove_tags.
  - apply delete_volume_err in Hop as ->. by split.
Qed.

Lemma add_dataset_consistent cfg now ds s :
  index_consistent s → index_consistent (add_dataset cfg now ds s).2.
Proof.
  intros [Ho Hp Ht Hdo Hdt].
  destruct (add_dataset cfg now ds s) as [[u|e] s'] eqn:Hop; simpl.
  - apply add_dataset_ok in Hop
      as (_ & Hnew & v & Hv & Hvol & Hds & Hio & Hip & Hit & Hido & Hidt).
    destruct (prepare_dataset_fields now ds) as (_ & _ & _ & Ho' & Ht').
    destruct (attach_dataset_fields (prepare_dataset now ds) v)
      as (_ & _ & _ & _ & Hao & Hap & Hat).
    split; rewrite ?Hvol, ?Hds, ?Hio, ?Hip, ?Hit, ?Hido, ?Hidt.
    + eapply index_agrees_same_attrs; [done..|].
      unfold volume_owner. by rewrite Hao.
    + eapply index_agrees_same_attrs; [done..|].
      unfold volume_pool. by rewrite Hap.
    + eapply index_agrees_same_attrs; done.
    + eapply index_agrees_insert; [done|]. rewrite Hnew.
      unfold dataset_owner. rewrite Ho'. apply index_step_add.
    + eapply index_agrees_insert; [done|]. rewrite Hnew, Ht'.
      apply index_step_add_tags.
  - apply add_dataset_err in Hop as ->. by split.
Qed.

Lemma update_dataset_consistent now ds s :
  index_consistent s → index_consistent (update_dataset now ds s).2.
Proof.
  intros [Ho Hp Ht Hdo Hdt].
  destruct (update_dataset now ds s) as [[u|e] s'] eqn:Hop; simpl.
  - apply update_dataset_ok in Hop
      as (old & Hold & Hds & Hvol & Hio & Hip & Hit & Hido & Hidt).
    split; rewrite ?Hvol, ?Hds, ?Hio, ?Hip, ?Hit, ?Hido, ?Hidt; try done.
    + eapply index_agrees_insert; [done|]. rewrite Hold.
      apply index_step_update.
    + eapply index_agrees_insert; [done|]. rewrite Hold.
      apply index_step_retag.
  - apply update_dataset_err in Hop as ->. by split.
Qed.

Lemma delete_dataset_consistent now name s :
  index_consistent s → index_consistent (delete_dataset now name s).2.
Proof.
  intros [Ho Hp Ht Hdo Hdt].
  destruct (delete_dataset now name s) as [[u|e] s'] eqn:Hop; simpl.
  - apply delete_dataset_ok in Hop
      as (ds & Hds & Hvol & Hdat & Hio & Hip & Hit & Hido & Hidt).
    assert (index_agrees volume_owner (volumes_ s') (volume_owner_index_ s)
            ∧ index_agrees volume_pool (volumes_ s') (volume_pool_index_ s)
            ∧ index_agrees TapeVolume.tags (volumes_ s')
                (volume_tag_index_ s)) as (Ho' & Hp' & Ht').
    { rewrite Hvol.
      destruct (volumes_ s !! Dataset.volser ds) as [v|] eqn:Hv; [|done].
      destruct (detach_dataset_fields ds name v)
        as (_ & _ & _ & _ & Hdo' & Hdp' & Hdt').
      split_and!; (eapply index_agrees_same_attrs; [done..|]);
        unfold volume_owner, volume_pool; congruence. }
    split; rewrite ?Hdat, ?Hio, ?Hip, ?Hit, ?Hido, ?Hidt; try done.
    + eapply index_agrees_delete; [done|]. rewrite Hds.
      apply index_step_remove.
    + eapply index_agrees_delete; [done|]. rewrite Hds.
      apply index_step_remove_tags.
  - apply delete_dataset_err in Hop as ->. by split.
Qed.

Lemma apply_op_consistent cfg s op :
  index_consistent s → index_consistent (apply_op cfg s op).
Proof.
  destruct op; simpl;
    auto using add_volume_consistent, update_volume_consistent,
      delete_volume_consistent, add_dataset_consistent,
      update_dataset_consistent, delete_dataset_consistent.
Qed.

Lemma run_consistent cfg ops s :
  index_consistent s → index_consistent (run cfg ops s).
Proof.
  revert s. induction ops as [|op ops IH]; intros s Hs; [done|].
  apply IH. by apply apply_op_consistent.
Qed.

End consistency.

(** ** The empty value is never indexed *)

Section empty_value.

Import TMSSystem.

Implicit Types (s : t) (idx : SecondaryIndex.t).

Lemma add_empty_value_absent val key idx :
  idx !! "" = None → SecondaryIndex.add val key idx !! "" = None.
Proof.
  intros Hidx. unfold SecondaryIndex.add. case_decide; [done|].
  by rewrite lookup_insert_ne.
Qed.

Lemma remove_empty_value_absent val key idx :
  idx !! "" = None → SecondaryIndex.remove val key idx !! "" = None.
Proof.
  intros Hidx. unfold SecondaryIndex.remove.
  destruct (idx !! val) as [keys|] eqn:Hval; [|done].
  assert (val ≠ "") by congruence. simpl.
  case_decide; [by rewrite lookup_delete_ne|by rewrite lookup_insert_ne].
Qed.

Lemma update_empty_value_absent old_value new_value key idx :
  idx !! "" = None →
  SecondaryIndex.update old_value new_value key idx !! "" = None.
Proof.
  intros. by apply add_empty_value_absent, remove_empty_value_absent.
Qed.

Lemma foldl_empty_value_absent {A} (f : SecondaryIndex.t → A → SecondaryIndex.t)
    (l : list A) idx :
  (∀ idx a, idx !! "" = None → f idx a !! "" = None) →
  idx !! "" = None → foldl f idx l !! "" = None.
Proof.
  intros Hf. revert idx. induction l as [|a l IH]; intros idx Hidx; [done|].
  simpl. by apply IH, Hf.
Qed.

Lemma add_tags_empty_value_absent tags key idx :
  idx !! "" = None → add_tags tags key idx !! "" = None.
Proof.
  apply foldl_empty_value_absent. intros. by apply add_empty_value_absent.
Qed.

Lemma remove_tags_empty_value_absent tags key idx :
  idx !! "" = None → remove_tags tags key idx !! "" = None.
Proof.
  apply foldl_empty_value_absent. intros. by apply remove_empty_value_absent.
Qed.

Lemma retag_empty_value_absent old_tags new_tags key idx :
  idx !! "" = None → retag old_tags new_tags key idx !! "" = None.
Proof.
  intros Hidx. unfold retag.
  apply foldl_empty_value_absent.
  { intros idx' tag Hidx'. case_decide; [done|].
    by apply add_empty_value_absent. }
  apply foldl_empty_value_absent; [|done].
  intros idx' tag Hidx'. case_decide; [done|].
  by apply remove_empty_value_absent.
Qed.

Lemma cascade_empty_value_absent s names :
  dataset_owner_index_ s !! "" = None →
  dataset_tag_index_ s !! "" = None →
  dataset_owner_index_ (foldl cascade_delete_dataset s names) !! "" = None
  ∧ dataset_tag_index_ (foldl cascade_delete_dataset s names) !! "" = None.
Proof.
  revert s. induction names as [|n names IH]; intros s Ho Ht; [done|].
  simpl. apply IH; unfold cascade_delete_dataset;
    destruct (datasets_ s !! n); simpl; try done.
  - by apply remove_empty_value_absent.
  - by apply remove_tags_empty_value_absent.
Qed.

Lemma delete_volume_empty_value_absent now volser force s :
  dataset_owner_index_ s !! "" = None →
  dataset_tag_index_ s !! "" = None →
  dataset_owner_index_ (delete_volume now volser force s).2 !! "" = None
  ∧ dataset_tag_index_ (delete_volume now volser force s).2 !! "" = None.
Proof.
  intros Ho Ht. unfold delete_volume.
  destruct (volumes_ s !! volser) as [v|]; [|done].
  destruct (negb force
            && negb (bool_decide (TapeVolume.datasets v = []))); [done|].
  case_decide; [done|].
  destruct (TapeVolume.is_reserved now v); [done|].
  destruct force; simpl; [|done].
  by apply cascade_empty_value_absent.
Qed.

Lemma apply_op_empty_value_absent cfg s op :
  empty_value_absent s → empty_value_absent (apply_op cfg s op).
Proof.
  intros (Ho & Hp & Ht & Hdo & Hdt). unfold empty_value_absent.
  destruct op; simpl.
  - destruct (add_volume cfg now volume s) as [[u|e] s'] eqn:Hop; simpl.
    + apply add_volume_ok
        in Hop as (_ & _ & _ & _ & _ & -> & -> & -> & -> & ->).
      split_and!; try done.
      * by apply add_empty_value_absent.
      * by apply add_empty_value_absent.
      * by apply add_tags_empty_value_absent.
    + by apply add_volume_err in Hop as ->.
  - destruct (update_volume now volume s) as [[u|e] s'] eqn:Hop; simpl.
    + apply update_volume_ok
        in Hop as (old & _ & _ & _ & -> & -> & -> & -> & ->).
      split_and!; try done.
      * case_decide; [by apply update_empty_value_absent|done].
      * case_decide; [by apply update_empty_value_absent|done].
      * by apply retag_empty_value_absent.
    + by apply update_volume_err in Hop as ->.
  - destruct (delete_volume_empty_value_absent now volser force s Hdo Hdt)
      as [Hdo' Hdt'].
    destruct (delete_volume now volser force s) as [[u|e] s'] eqn:Hop; simpl.
    + apply delete_volume_ok
        in Hop as (v & _ & _ & _ & _ & _ & -> & -> & -> & _).
      split_and!; try done.
      * by apply remove_empty_value_absent.
      * by apply remove_empty_value_absent.
      * by apply remove_tags_empty_value_absent.
    + by apply delete_volume_err in Hop as ->.
  - destruct (add_dataset cfg now dataset s) as [[u|e] s'] eqn:Hop; simpl.
    + apply add_dataset_ok
        in Hop as (_ & _ & v & _ & _ & _ & -> & -> & -> & -> & ->).
      split_and!; try done.
      * by apply add_empty_value_absent.
      * by apply add_tags_empty_value_absent.
    + by apply add_dataset_err in Hop as ->.
  - destruct (update_dataset now dataset s) as [[u|e] s'] eqn:Hop; simpl.
    + apply update_dataset_ok
        in Hop as (old & _ & _ & _ & -> & -> & -> & -> & ->).
      split_and!; try done.
      * case_decide; [by apply update_empty_value_absent|done].
      * by apply retag_empty_value_absent.
    + by apply update_dataset_err in Hop as ->.
  - destruct (delete_dataset now name s) as [[u|e] s'] eqn:Hop; simpl.
    + apply delete_dataset_ok
        in Hop as (ds & _ & _ & _ & -> & -> & -> & -> & ->).
      split_and!; try done.
      * by apply remove_empty_value_absent.
      * by apply remove_tags_empty_value_absent.
    + by apply delete_dataset_err in Hop as ->.
Qed.

Lemma run_empty_value_absent cfg ops s :
  empty_value_absent s → empty_value_absent (run cfg ops s).
Proof.
  revert s. induction ops as [|op ops IH]; intros s Hs; [done|].
  apply IH. by apply apply_op_empty_value_absent.
Qed.

Lemma empty_value_absent_empty : empty_value_absent empty.
Proof. unfold empty_value_absent. simpl. by rewrite !lookup_empty. Qed.

(** With the empty value absent from the indices, the lookups of the empty
    owner, pool or tag return nothing. *)
Lemma empty_value_lookups s :
  empty_value_absent s →
  get_volumes_by_owner "" s = []
  ∧ get_volumes_by_pool "" s = []
  ∧ find_volumes_by_tag "" s = []
  ∧ get_datasets_by_owner "" s = []
  ∧ find_datasets_by_tag "" s = [].
Proof.
  intros (Ho & Hp & Ht & Hdo & Hdt).
  unfold get_volumes_by_owner, get_volumes_by_pool, find_volumes_by_tag,
    get_datasets_by_owner, find_datasets_by_tag, SecondaryIndex.find.
  by rewrite Ho, Hp, Ht, Hdo, Hdt.
Qed.

End empty_value.

(** What agreement of the five indices means for the indexed lookups. *)
Lemma index_consistent_lookups (s : TMSSystem.t) :
  index_consistent s →
  (∀ key v, TMSSystem.volumes_ s !! key = Some v →
     (TapeVolume.owner v ≠ "" →
      v ∈ TMSSystem.get_volumes_by_owner (TapeVolume.owner v) s)
     ∧ (TapeVolume.pool v ≠ "" →
        v ∈ TMSSystem.get_volumes_by_pool (TapeVolume.pool v) s)
     ∧ (∀ tag, tag ∈ TapeVolume.tags v → tag ≠ "" →
          v ∈ TMSSystem.find_volumes_by_tag tag s))
  ∧ (∀ val key,
       key ∈ SecondaryIndex.find val (TMSSystem.volume_owner_index_ s) →
       ∃ v, TMSSystem.volumes_ s !! key = Some v ∧ TapeVolume.owner v = val)
  ∧ (∀ val key,
       key ∈ SecondaryIndex.find val (TMSSystem.volume_pool_index_ s) →
       ∃ v, TMSSystem.volumes_ s !! key = Some v ∧ TapeVolume.pool v = val)
  ∧ (∀ val key,
       key ∈ SecondaryIndex.find val (TMSSystem.volume_tag_index_ s) →
       ∃ v, TMSSystem.volumes_ s !! key = Some v ∧ val ∈ TapeVolume.tags v)
  ∧ (∀ name d, TMSSystem.datasets_ s !! name = Some d →
       (Dataset.owner d ≠ "" →
        d ∈ TMSSystem.get_datasets_by_owner (Dataset.owner d) s)
       ∧ (∀ tag, tag ∈ Dataset.tags d → tag ≠ "" →
            d ∈ TMSSystem.find_datasets_by_tag tag s))
  ∧ (∀ val name,
       name ∈ SecondaryIndex.find val (TMSSystem.dataset_owner_index_ s) →
       ∃ d, TMSSystem.datasets_ s !! name = Some d ∧ Dataset.owner d = val)
  ∧ (∀ val name,
       name ∈ SecondaryIndex.find val (TMSSystem.dataset_tag_index_ s) →
       ∃ d, TMSSystem.datasets_ s !! name = Some d ∧ val ∈ Dataset.tags d).
Proof.
  intros [Ho Hp Ht Hdo Hdt].
  unfold TMSSystem.get_volumes_by_owner, TMSSystem.get_volumes_by_pool,
    TMSSystem.find_volumes_by_tag, TMSSystem.get_datasets_by_owner,
    TMSSystem.find_datasets_by_tag.
  split_and!.
  - intros key v Hv. split_and!.
    + intros Hne. apply elem_of_collect. exists key. split; [|done].
      apply Ho. split; [done|]. exists v. split; [done|].
      unfold volume_owner. set_solver.
    + intros Hne. apply elem_of_collect. exists key. split; [|done].
      apply Hp. split; [done|]. exists v. split; [done|].
      unfold volume_pool. set_solver.
    + intros tag Htag Hne. apply elem_of_collect. exists key.
      split; [|done]. apply Ht. eauto.
  - intros val key (_ & v & Hv & Hin)%Ho. exists v. split; [done|].
    unfold volume_owner in Hin. set_solver.
  - intros val key (_ & v & Hv & Hin)%Hp. exists v. split; [done|].
    unfold volume_pool in Hin. set_solver.
  - intros val key (_ & v & Hv & Hin)%Ht. eauto.
  - intros name d Hd. split.
    + intros Hne. apply elem_of_collect. exists name. split; [|done].
      apply Hdo. split; [done|]. exists d. split; [done|].
      unfold dataset_owner. set_solver.
    + intros tag Htag Hne. apply elem_of_collect. exists name.
      split; [|done]. apply Hdt. eauto.
  - intros val name (_ & d & Hd & Hin)%Hdo. exists d. split; [done|].
    unfold dataset_owner in Hin. set_solver.
  - intros val name (_ & d & Hd & Hin)%Hdt. eauto.
Qed.

(** C2, as stated, fails: a volume added with the default (empty) owner is
    stored, yet [get_volumes_by_owner] of its owner does not return it,
    because [SecondaryIndex::add] skips empty values. *)
Lemma empty_owner_is_not_indexed :
  let s := run default_configuration [AddVolume 5 (TapeVolume.default "V00001")]
             TMSSystem.empty in
  ∃ v, TMSSystem.volumes_ s !! "V00001" = Some v
       ∧ v ∉ TMSSystem.get_volumes_by_owner (TapeVolume.owner v) s.
Proof.
  eexists. split; [vm_compute; reflexivity|].
  cbv zeta. match goal with
  | |- _ ∉ ?l => assert (l = []) as -> by (vm_compute; reflexivity)
  end.
  apply not_elem_of_nil.
Qed.

(** C2, amended: after every sequence of add, update and delete operations on
    volumes and datasets, starting from the empty catalog, every stored
    volume with a non-empty owner is returned by [get_volumes_by_owner] of
    that owner, and every volser the owner index lists under a value is a
    stored volume whose owner is that value; the same holds for the pool
    index, for each non-empty tag in the tag index, and for the dataset
    owner and tag indices.  Empty owner, pool and tag values are never
    indexed: none of the five indices has an entry for the empty string,
    and the lookups of the empty owner, pool or tag return nothing. *)
Theorem index_consistency_after_run (cfg : Configuration)
    (ops : list CatalogOp) :
  let s := run cfg ops TMSSystem.empty in
  (∀ key v, TMSSystem.volumes_ s !! key = Some v →
     (TapeVolume.owner v ≠ "" →
      v ∈ TMSSystem.get_volumes_by_owner (TapeVolume.owner v) s)
     ∧ (TapeVolume.pool v ≠ "" →
        v ∈ TMSSystem.get_volumes_by_pool (TapeVolume.pool v) s)
     ∧ (∀ tag, tag ∈ TapeVolume.tags v → tag ≠ "" →
          v ∈ TMSSystem.find_volumes_by_tag tag s))
  ∧ (∀ val key,
       key ∈ SecondaryIndex.find val (TMSSystem.volume_owner_index_ s) →
       ∃ v, TMSSystem.volumes_ s !! key = Some v ∧ TapeVolume.owner v = val)
  ∧ (∀ val key,
       key ∈ SecondaryIndex.find val (TMSSystem.volume_pool_index_ s) →
       ∃ v, TMSSystem.volumes_ s !! key = Some v ∧ TapeVolume.pool v = val)
  ∧ (∀ val key,
       key ∈ SecondaryIndex.find val (TMSSystem.volume_tag_index_ s) →
       ∃ v, TMSSystem.volumes_ s !! key = Some v ∧ val ∈ TapeVolume.tags v)
  ∧ (∀ name d, TMSSystem.datasets_ s !! name = Some d →
       (Dataset.owner d ≠ "" →
        d ∈ TMSSystem.get_datasets_by_owner (Dataset.owner d) s)
       ∧ (∀ tag, tag ∈ Dataset.tags d → tag ≠ "" →
            d ∈ TMSSystem.find_datasets_by_tag tag s))
  ∧ (∀ val name,
       name ∈ SecondaryIndex.find val (TMSSystem.dataset_owner_index_ s) →
       ∃ d, TMSSystem.datasets_ s !! name = Some d ∧ Dataset.owner d = val)
  ∧ (∀ val name,
       name ∈ SecondaryIndex.find val (TMSSystem.dataset_tag_index_ s) →
       ∃ d, TMSSystem.datasets_ s !! name = Some d ∧ val ∈ Dataset.tags d)
  ∧ TMSSystem.volume_owner_index_ s !! "" = None
  ∧ TMSSystem.volume_pool_index_ s !! "" = None
  ∧ TMSSystem.volume_tag_index_ s !! "" = None
  ∧ TMSSystem.dataset_owner_index_ s !! "" = None
  ∧ TMSSystem.dataset_tag_index_ s !! "" = None
  ∧ TMSSystem.get_volumes_by_owner "" s = []
  ∧ TMSSystem.get_volumes_by_pool "" s = []
  ∧ TMSSystem.find_volumes_by_tag "" s = []
  ∧ TMSSystem.get_datasets_by_owner "" s = []
  ∧ TMSSystem.find_datasets_by_tag "" s = [].
Proof.
  intros s.
  pose proof (index_consistent_lookups s
                (run_consistent cfg ops _ index_consistent_empty))
    as (H1 & H2 & H3 & H4 & H5 & H6 & H7).
  pose proof (run_empty_value_absent cfg ops _ empty_value_absent_empty)
    as Habsent.
  fold s in Habsent.
  pose proof (empty_value_lookups s Habsent) as (L1 & L2 & L3 & L4 & L5).
  destruct Habsent as (A1 & A2 & A3 & A4 & A5).
  by split_and!.
Qed.

(** ** Volume deletion *)

(** C7: [delete_volume] succeeds exactly when the volume exists, is not
    MOUNTED, is not reserved, and has an empty dataset list or [force] is
    set.  On success the volume is gone from the primary map and from the
    owner, pool and tag indices, and under [force] every dataset named in its
    list is gone from the dataset map; with consistent indices the volser is
    then listed under no index value at all and the cascaded datasets under
    no dataset index value.  A failed call leaves the engine unchanged. *)
Theorem delete_volume_guarded (now : Z) (volser : string) (force : bool)
    (s : TMSSystem.t) :
  let r := (TMSSystem.delete_volume now volser force s).1 in
  let s' := (TMSSystem.delete_volume now volser force s).2 in
  (is_success r = true
   ↔ ∃ v, TMSSystem.volumes_ s !! volser = Some v
          ∧ TapeVolume.status v ≠ MOUNTED
          ∧ TapeVolume.is_reserved now v = false
          ∧ (TapeVolume.datasets v = [] ∨ force = true))
  ∧ (is_success r = false → s' = s)
  ∧ (is_success r = true →
     ∀ v, TMSSystem.volumes_ s !! volser = Some v →
       TMSSystem.volumes_ s' = delete volser (TMSSystem.volumes_ s)
       ∧ (volser ∉ SecondaryIndex.find (TapeVolume.owner v)
                     (TMSSystem.volume_owner_index_ s'))
       ∧ (volser ∉ SecondaryIndex.find (TapeVolume.pool v)
                     (TMSSystem.volume_pool_index_ s'))
       ∧ (∀ tag, tag ∈ TapeVolume.tags v →
            volser ∉ SecondaryIndex.find tag (TMSSystem.volume_tag_index_ s'))
       ∧ (if force
          then ∀ n, n ∈ TapeVolume.datasets v →
                 TMSSystem.datasets_ s' !! n = None
          else TMSSystem.datasets_ s' = TMSSystem.datasets_ s)
       ∧ (index_consistent s →
          index_consistent s'
          ∧ (∀ val,
               (volser ∉ SecondaryIndex.find val
                           (TMSSystem.volume_owner_index_ s'))
               ∧ (volser ∉ SecondaryIndex.find val
                             (TMSSystem.volume_pool_index_ s'))
               ∧ (volser ∉ SecondaryIndex.find val
                             (TMSSystem.volume_tag_index_ s')))
          ∧ (force = true → ∀ n val, n ∈ TapeVolume.datasets v →
               (n ∉ SecondaryIndex.find val
                      (TMSSystem.dataset_owner_index_ s'))
               ∧ (n ∉ SecondaryIndex.find val
                        (TMSSystem.dataset_tag_index_ s'))))).
Proof.
  intros r s'. subst r s'.
  pose proof (delete_volume_consistent now volser force s) as Hcons.
  destruct (TMSSystem.delete_volume now volser force s) as [[u|e] s'] eqn:Hop;
    simpl in *.
  - apply delete_volume_ok in Hop
      as (v & Hv & Hforce & Hm & Hr & Hvol & Hio & Hip & Hit & Hds & _ & _).
    split_and!; [|done|].
    { split; [|done]. intros _. exists v. split_and!; try done.
      destruct Hforce; auto. }
    intros _ v' Hv'. rewrite Hv in Hv'. injection Hv' as <-.
    assert (∀ n, force = true → n ∈ TapeVolume.datasets v →
              TMSSystem.datasets_ s' !! n = None) as Hgone.
    { intros n -> Hn. rewrite Hds, lookup_delete_all.
      by rewrite decide_True. }
    split_and!; [done| | | | |].
    + rewrite Hio, find_remove. naive_solver.
    + rewrite Hip, find_remove. naive_solver.
    + intros tag Htag. rewrite Hit. unfold TMSSystem.remove_tags.
      rewrite find_remove_list, elem_of_sorted_elements. naive_solver.
    + destruct force; [by auto|done].
    + intros Hs. destruct (Hcons Hs) as [Ho Hp Ht Hdo Hdt].
      assert (TMSSystem.volumes_ s' !! volser = None) as Hnone
        by (rewrite Hvol; apply lookup_delete_eq).
      split_and!; [by split| |].
      * intros val. split_and!.
        -- intros (_ & r & Hr' & _)%Ho. congruence.
        -- intros (_ & r & Hr' & _)%Hp. congruence.
        -- intros (_ & r & Hr' & _)%Ht. congruence.
      * intros Hf n val Hn. specialize (Hgone n Hf Hn). split.
        -- intros (_ & r & Hr' & _)%Hdo. congruence.
        -- intros (_ & r & Hr' & _)%Hdt. congruence.
  - apply delete_volume_refused in Hop as [-> Hno].
    split_and!; [|done|done].
    split; [done|]. intros (v & Hv & Hm & Hr & Hd). exfalso.
    by apply (Hno v).
Qed.

(** ** Sequential batches *)

Section batch.

Import TMSSystem.

Variables (cfg : Configuration) (clock : nat → Z).

Implicit Types (s : t) (result : BatchResult.t) (volumes : list TapeVolume.t).

(** The engine a batch leaves behind does not depend on the counters. *)
Lemma add_volumes_loop_state i volumes result result' s :
  (add_volumes_loop cfg clock i volumes result s).2
  = (add_volumes_loop cfg clock i volumes result' s).2.
Proof.
  revert i result result' s.
  induction volumes as [|vol rest IH]; intros i result result' s; [done|].
  simpl. destruct (add_volume cfg (clock i) vol s) as [op s1]. apply IH.
Qed.

Lemma add_volumes_loop_app i l1 l2 result s :
  add_volumes_loop cfg clock i (l1 ++ l2) result s
  = add_volumes_loop cfg clock (i + length l1) l2
      (add_volumes_loop cfg clock i l1 result s).1
      (add_volumes_loop cfg clock i l1 result s).2.
Proof.
  revert i result s. induction l1 as [|vol l1 IH]; intros i result s; simpl.
  - by rewrite Nat.add_0_r.
  - destruct (add_volume cfg (clock i) vol s) as [op s1].
    rewrite IH. by rewrite Nat.add_succ_comm.
Qed.

(** Recorded failures are never dropped by later items. *)
Lemma add_volumes_loop_failures_mono i volumes result s x :
  x ∈ BatchResult.failures result →
  x ∈ BatchResult.failures (add_volumes_loop cfg clock i volumes result s).1.
Proof.
  revert i result s.
  induction volumes as [|vol rest IH]; intros i result s Hx; [done|].
  simpl. destruct (add_volume cfg (clock i) vol s) as [op s1]. apply IH.
  destruct op; simpl; [done|]. apply elem_of_app. by left.
Qed.

(** Every item is counted once, as a success or as a failure. *)
Lemma add_volumes_loop_counts i volumes result s :
  (BatchResult.succeeded result + BatchResult.failed result
   + N.of_nat (length volumes) < UINT64_MOD)%N →
  let result' := (add_volumes_loop cfg clock i volumes result s).1 in
  BatchResult.total result' = BatchResult.total result
  ∧ BatchResult.skipped result' = BatchResult.skipped result
  ∧ (BatchResult.succeeded result' + BatchResult.failed result'
     = BatchResult.succeeded result + BatchResult.failed result
       + N.of_nat (length volumes))%N
  ∧ (N.of_nat (length (BatchResult.failures result'))
     + BatchResult.failed result
     = N.of_nat (length (BatchResult.failures result))
       + BatchResult.failed result')%N.
Proof.
  revert i result s.
  induction volumes as [|vol rest IH]; intros i result s Hlt.
  - simpl. split_and!; [done|done|lia|lia].
  - simpl. destruct (add_volume cfg (clock i) vol s) as [op s1].
    simpl in Hlt.
    destruct op as [u|e]; simpl; unfold u64_add;
      rewrite N.mod_small by lia;
      match goal with
      | |- context [add_volumes_loop cfg clock (S i) rest ?r s1] =>
          destruct (IH (S i) r s1) as (-> & -> & IH1 & IH2)
      end; simpl in *; rewrite ?length_app in *; simpl in *;
      try split_and!; try done; lia.
Qed.

(** The state before item [i] is the state the batch of the first [i]
    items leaves; the item's [add_volume] runs on it whatever happened to
    the items before, and a failure is recorded under the item's volser. *)
Lemma add_volumes_batch_item volumes s i vol :
  volumes !! i = Some vol →
  let before := (add_volumes_batch cfg clock (take i volumes) s).2 in
  (add_volumes_batch cfg clock (take (S i) volumes) s).2
  = (add_volume cfg (clock i) vol before).2
  ∧ ∀ e, (add_volume cfg (clock i) vol before).1 = err e →
      (TapeVolume.volser vol, message e)
      ∈ BatchResult.failures (add_volumes_batch cfg clock volumes s).1.
Proof.
  intros Hi before. subst before.
  pose proof (take_drop_middle volumes i vol Hi) as Hsplit.
  assert (length (take i volumes) = i) as Hlen.
  { rewrite length_take. apply lookup_lt_Some in Hi. lia. }
  rewrite (take_S_r _ _ _ Hi).
  remember (take i volumes) as pre eqn:Hpre.
  remember (drop (S i) volumes) as post eqn:Hpost.
  clear Hpre Hpost Hi. subst volumes i.
  unfold add_volumes_batch. rewrite !add_volumes_loop_app. simpl.
  rewrite (add_volumes_loop_state 0 pre
             (empty_batch (length (pre ++ [vol])))
             (empty_batch (length pre))).
  rewrite (add_volumes_loop_state 0 pre
             (empty_batch (length (pre ++ vol :: post)))
             (empty_batch (length pre))).
  destruct (add_volume cfg (clock (length pre)) vol _) as [op s1]. simpl.
  split; [done|]. intros e ->.
  apply add_volumes_loop_failures_mono. simpl.
  apply elem_of_app. right. by apply list_elem_of_singleton.
Qed.

End batch.

Section batch_outcomes.

Import TMSSystem.

Variables (cfg : Configuration) (clock : nat → Z).

Implicit Types (s : t) (result : BatchResult.t) (volumes : list TapeVolume.t).

Lemma add_volume_new now vol s :
  validate_volser (TapeVolume.volser vol) = true →
  (N.of_nat (size (volumes_ s)) < get_max_volumes cfg)%N →
  volumes_ s !! TapeVolume.volser vol = None →
  ∃ s', add_volume cfg now vol s = (ok (), s').
Proof.
  intros Hval Hlim Hnew. unfold add_volume. rewrite Hval. simpl.
  destruct (N.leb_spec (get_max_volumes cfg) (N.of_nat (size (volumes_ s))));
    [lia|].
  rewrite decide_False by (rewrite Hnew; by intros [? ?]). by eexists.
Qed.

Lemma add_volume_duplicate now vol s :
  validate_volser (TapeVolume.volser vol) = true →
  (N.of_nat (size (volumes_ s)) < get_max_volumes cfg)%N →
  is_Some (volumes_ s !! TapeVolume.volser vol) →
  add_volume cfg now vol s
  = (fail VOLUME_ALREADY_EXISTS
       ("Volume already exists: " +:+ TapeVolume.volser vol), s).
Proof.
  intros Hval Hlim Hdup. unfold add_volume. rewrite Hval. simpl.
  destruct (N.leb_spec (get_max_volumes cfg) (N.of_nat (size (volumes_ s))));
    [lia|].
  by rewrite decide_True.
Qed.

(** A run of valid, distinct, new volsers within the limit: all succeed. *)
Lemma add_volumes_loop_all_new i volumes result s :
  Forall (λ v, validate_volser (TapeVolume.volser v) = true) volumes →
  NoDup (TapeVolume.volser <$> volumes) →
  (∀ v, v ∈ volumes → volumes_ s !! TapeVolume.volser v = None) →
  (N.of_nat (size (volumes_ s) + length volumes) ≤ get_max_volumes cfg)%N →
  (BatchResult.succeeded result + N.of_nat (length volumes) < UINT64_MOD)%N →
  let result' := (add_volumes_loop cfg clock i volumes result s).1 in
  let s' := (add_volumes_loop cfg clock i volumes result s).2 in
  result'
  = BatchResult.mk (BatchResult.total result)
      (BatchResult.succeeded result + N.of_nat (length volumes))
      (BatchResult.failed result) (BatchResult.skipped result)
      (BatchResult.failures result)
  ∧ size (volumes_ s') = size (volumes_ s) + length volumes
  ∧ ∀ k, volumes_ s !! k = None → k ∉ TapeVolume.volser <$> volumes →
      volumes_ s' !! k = None.
Proof.
  revert i result s.
  induction volumes as [|vol rest IH];
    intros i result s Hval Hnd Hnew Hlim Hcnt.
  - simpl. rewrite N.add_0_r, Nat.add_0_r. by destruct result.
  - simpl in *. apply Forall_cons in Hval as [Hv Hval].
    apply NoDup_cons in Hnd as [Hnotin Hnd].
    destruct (add_volume_new (clock i) vol s) as [s1 Hadd];
      [done|lia|apply Hnew; set_solver|].
    rewrite Hadd.
    apply add_volume_ok in Hadd as (_ & _ & Hnone & Hvol & _).
    assert (size (volumes_ s1) = S (size (volumes_ s))) as Hsize
      by (rewrite Hvol; by apply map_size_insert_None).
    destruct (IH (S i) (record_item (TapeVolume.volser vol) (ok ()) result)
                s1) as (-> & -> & Hrest); [done|done| |lia| |].
    + intros v Hin. rewrite Hvol, lookup_insert_ne.
      * apply Hnew. set_solver.
      * intros Heq. apply Hnotin. rewrite Heq. set_solver.
    + simpl. unfold u64_add. rewrite N.mod_small by lia. lia.
    + split_and!.
      * simpl. unfold u64_add. rewrite N.mod_small by lia. f_equal. lia.
      * lia.
      * intros k Hk Hkin. apply Hrest; [|set_solver].
        rewrite Hvol, lookup_insert_ne; [done|set_solver].
Qed.

End batch_outcomes.

Section batch_scenario.

Import TMSSystem.

Variables (cfg : Configuration) (clock : nat → Z).

Implicit Types (s : t) (result : BatchResult.t) (volumes : list TapeVolume.t).

(** [add_volume] never overwrites, so a batch keeps every stored record. *)
Lemma add_volumes_loop_keeps i volumes result s k v :
  volumes_ s !! k = Some v →
  volumes_ (add_volumes_loop cfg clock i volumes result s).2 !! k = Some v.
Proof.
  revert i result s.
  induction volumes as [|vol rest IH]; intros i result s Hk; [done|].
  simpl. destruct (add_volume cfg (clock i) vol s) as [[u|e] s1] eqn:Hadd.
  - apply IH. apply add_volume_ok in Hadd as (_ & _ & Hnone & -> & _).
    rewrite lookup_insert_ne; [done|congruence].
  - apply IH. by apply add_volume_err in Hadd as ->.
Qed.

(** A batch of valid, distinct volsers within the limit, exactly one of
    which is already catalogued. *)
Lemma add_volumes_batch_one_duplicate pre post dup s :
  let volumes := pre ++ dup :: post in
  Forall (λ v, validate_volser (TapeVolume.volser v) = true) volumes →
  NoDup (TapeVolume.volser <$> volumes) →
  (N.of_nat (size (volumes_ s) + length volumes) ≤ get_max_volumes cfg)%N →
  (N.of_nat (length volumes) < UINT64_MOD)%N →
  is_Some (volumes_ s !! TapeVolume.volser dup) →
  (∀ v, v ∈ pre ++ post → volumes_ s !! TapeVolume.volser v = None) →
  (add_volumes_batch cfg clock volumes s).1
  = BatchResult.mk (N.of_nat (length volumes))
      (N.of_nat (length volumes) - 1) 1 0
      [(TapeVolume.volser dup,
        "Volume already exists: " +:+ TapeVolume.volser dup)].
Proof.
  intros volumes Hval Hnd Hlim Hlen [old Hdup] Hnew. subst volumes.
  apply Forall_app in Hval as [Hvpre Hval].
  apply Forall_cons in Hval as [Hvdup Hvpost].
  rewrite fmap_app, fmap_cons in Hnd.
  apply NoDup_app in Hnd as (Hndpre & Hdisj & Hnd).
  apply NoDup_cons in Hnd as [Hdup_post Hndpost].
  rewrite length_app in Hlim, Hlen. simpl in Hlim, Hlen.
  unfold add_volumes_batch. rewrite add_volumes_loop_app. simpl.
  set (r0 := empty_batch (length (pre ++ dup :: post))).
  destruct (add_volumes_loop_all_new cfg clock 0 pre r0 s)
    as (Hr1 & Hsize1 & Hnone1);
    [done|done|intros v Hv; apply Hnew; set_solver|lia|simpl; lia|].
  pose proof (add_volumes_loop_keeps 0 pre r0 s _ _ Hdup) as Hdup1.
  rewrite (surjective_pairing (add_volumes_loop cfg clock 0 pre r0 s)).
  simpl. rewrite Hr1.
  rewrite add_volume_duplicate by (done || lia). simpl.
  match goal with
  | |- (add_volumes_loop _ _ ?i post ?r ?s1).1 = _ =>
      destruct (add_volumes_loop_all_new cfg clock i post r s1)
        as (-> & _ & _)
  end; [done|done| |lia|simpl; lia|].
  - intros v Hv. apply Hnone1.
    + apply Hnew. set_solver.
    + intros Hin. apply (Hdisj _ Hin). set_solver.
  - simpl. unfold u64_add. rewrite N.mod_small by (vm_compute; done).
    rewrite length_app. simpl. f_equal. lia.
Qed.

End batch_scenario.

(** C8: [add_volumes_batch] applies [add_volume] to every item, each on the
    state left by the items before it, whether or not those failed.  The
    result has [total] equal to the number of items and
    [succeeded + failed = total]; each failed item has its volser and error
    message in [failures], which holds one entry per failure.  In particular
    a batch of valid, distinct volsers within the volume limit, exactly one
    of which duplicates a catalogued volume, reports one failure, under the
    duplicate volser, and [total - 1] successes: for five volumes
    total = 5, succeeded = 4, failed = 1. *)
Theorem add_volumes_batch_partial_failure (cfg : Configuration)
    (clock : nat → Z) (volumes : list TapeVolume.t) (s : TMSSystem.t) :
  (N.of_nat (length volumes) < UINT64_MOD)%N →
  let result := (TMSSystem.add_volumes_batch cfg clock volumes s).1 in
  BatchResult.total result = N.of_nat (length volumes)
  ∧ (BatchResult.succeeded result + BatchResult.failed result
     = BatchResult.total result)%N
  ∧ BatchResult.failed result
    = N.of_nat (length (BatchResult.failures result))
  ∧ (∀ i vol, volumes !! i = Some vol →
       let before :=
         (TMSSystem.add_volumes_batch cfg clock (take i volumes) s).2 in
       (TMSSystem.add_volumes_batch cfg clock (take (S i) volumes) s).2
       = (TMSSystem.add_volume cfg (clock i) vol before).2
       ∧ ∀ e, (TMSSystem.add_volume cfg (clock i) vol before).1 = err e →
           (TapeVolume.volser vol, message e) ∈ BatchResult.failures result)
  ∧ (∀ j dup,
       volumes !! j = Some dup →
       Forall (λ v, validate_volser (TapeVolume.volser v) = true) volumes →
       NoDup (TapeVolume.volser <$> volumes) →
       (N.of_nat (size (TMSSystem.volumes_ s) + length volumes)
        ≤ get_max_volumes cfg)%N →
       (∀ i v, volumes !! i = Some v →
          is_Some (TMSSystem.volumes_ s !! TapeVolume.volser v) ↔ i = j) →
       BatchResult.failed result = 1%N
       ∧ BatchResult.succeeded result = (BatchResult.total result - 1)%N
       ∧ BatchResult.failures result
         = [(TapeVolume.volser dup,
             "Volume already exists: " +:+ TapeVolume.volser dup)]).
Proof.
  intros Hlen result. subst result.
  destruct (add_volumes_loop_counts cfg clock 0 volumes
              (TMSSystem.empty_batch (length volumes)) s)
    as (Htot & _ & Hsum & Hfail); [simpl; lia|].
  fold (TMSSystem.add_volumes_batch cfg clock volumes s) in Htot, Hsum, Hfail.
  simpl in Htot, Hsum, Hfail.
  split_and!; [done|lia|lia| |].
  - intros i vol Hi. by apply add_volumes_batch_item.
  - intros j dup Hj Hval Hnd Hlim Hexact.
    pose proof (take_drop_middle volumes j dup Hj) as Hsplit.
    assert (length (take j volumes) = j) as Hlenj.
    { rewrite length_take. apply lookup_lt_Some in Hj. lia. }
    rewrite <- Hsplit in Hval, Hnd, Hlim, Hlen |- *.
    rewrite add_volumes_batch_one_duplicate; try done.
    + by apply (Hexact j dup).
    + intros v [Hin|Hin]%elem_of_app.
      * apply list_elem_of_lookup in Hin as [i Hi].
        pose proof (lookup_lt_Some _ _ _ Hi) as Hlt.
        rewrite lookup_take_lt in Hi by lia.
        apply eq_None_not_Some. rewrite (Hexact i v Hi). lia.
      * apply list_elem_of_lookup in Hin as [i Hi].
        rewrite lookup_drop in Hi.
        apply eq_None_not_Some. rewrite (Hexact _ v Hi). lia.
Qed.

(** ** Capacity bookkeeping under add_dataset and delete_dataset *)

Section capacity.

Import TMSSystem.

Implicit Types (s : t) (cfg : Configuration) (now : Z).







End capacity.




(** The witness catalog indeed holds 40 bytes on V00001 at the end. *)
Example used_bytes_tracks_datasets_40 :
  let ops := [AddDataset 6 small_dataset;
              AddDataset 7 (Dataset.default "MORE.DATA" "V00001" 40);
              DeleteDataset 8 "SMALL.DATA"] in
  TapeVolume.used_bytes
    <$> TMSSystem.volumes_ (run default_configuration ops one_volume)
        !! "V00001"
  = Some 40%N.
Proof. vm_compute. reflexivity. Qed.

Lemma add_volumes_batch_partial_failure_witness :
  let result :=
    (TMSSystem.add_volumes_batch default_configuration (λ _, 5%Z)
       batch_example_volumes batch_example_state).1 in
  BatchResult.total result = 5%N
  ∧ BatchResult.succeeded result = 4%N
  ∧ BatchResult.failed result = 1%N
  ∧ BatchResult.failures result
    = [("BAT003", "Volume already exists: BAT003")].
Proof.
  destruct (add_volumes_batch_partial_failure default_configuration
              (λ _, 5%Z) batch_example_volumes batch_example_state)
    as (Htot & _ & _ & _ & Hone); [reflexivity|].
  destruct (Hone 2 (TapeVolume.default "BAT003")) as (Hf & Hs & Hfs).
  - reflexivity.
  - repeat constructor.
  - apply (bool_decide_unpack _). vm_compute. exact I.
  - vm_compute. discriminate.
  - intros i v Hi.
    do 5 (destruct i as [|i];
          [injection Hi as <-; split;
           [intros [x Hx]; vm_compute in Hx; first [done|discriminate]
           |intros Hj; first [discriminate Hj|vm_compute; by eexists]]|]).
    discriminate Hi.
  - rewrite Htot in Hs. by split_and!.
Defined.

(** ** Parallel batches *)

Section shards.

Import TMSSystem.

Lemma concat_chunks {A} (l : list A) (c m : nat) :
  concat ((λ t, take c (drop (t * c) l)) <$> seq 0 m) = take (m * c) l.
Proof.
  induction m as [|m IH]; [done|].
  rewrite seq_S, fmap_app, concat_app, IH. simpl.
  rewrite app_nil_r, take_take_drop. f_equal. lia.
Qed.

(** The shards are consecutive slices that together make up the input. *)
Lemma concat_shards (volumes : list TapeVolume.t) (thread_count : nat) :
  1 ≤ thread_count →
  concat (shard volumes (length volumes / thread_count) thread_count
          <$> seq 0 thread_count)
  = volumes.
Proof.
  intros Hpos. set (c := length volumes / thread_count).
  assert (thread_count * c ≤ length volumes) as Hle
    by (apply Nat.Div0.mul_div_le).
  destruct thread_count as [|m]; [lia|].
  rewrite seq_S, fmap_app, concat_app. simpl.
  rewrite (list_fmap_ext _ (λ t, take c (drop (t * c) volumes))).
  - rewrite concat_chunks, app_nil_r. unfold shard.
    rewrite decide_True by lia.
    rewrite (take_ge (drop _ _)) by (rewrite length_drop; lia).
    apply take_drop.
  - intros i t Ht. apply lookup_seq in Ht as [-> Hlt]. unfold shard.
    rewrite decide_False by lia. f_equal. lia.
Qed.

End shards.

Section parallel.

Import TMSSystem.

Variables (cfg : Configuration) (clock : nat → Z).

Implicit Types (s : t) (result : BatchResult.t) (volumes : list TapeVolume.t)
  (workers : list (list TapeVolume.t)).

Lemma concat_take_head workers w vol todo :
  workers !! w = Some (vol :: todo) →
  concat workers ≡ₚ vol :: concat (<[w := todo]> workers).
Proof.
  intros Hw. pose proof (lookup_lt_Some _ _ _ Hw) as Hlt.
  rewrite insert_take_drop by done.
  rewrite <- (take_drop_middle workers w _ Hw) at 1.
  rewrite !concat_app. simpl. symmetry. apply Permutation_middle.
Qed.

(** A parallel execution is the sequential loop over the items in the
    order the schedule hands them the lock; what the workers have left
    over, together with that trace, is a rearrangement of their shards. *)
Lemma parallel_run_trace schedule step workers result s :
  ∃ trace,
    (parallel_run cfg clock step schedule workers result s).2
    = add_volumes_loop cfg clock step trace result s
    ∧ concat workers
      ≡ₚ trace
         ++ concat (parallel_run cfg clock step schedule workers result s).1.
Proof.
  revert step workers result s.
  induction schedule as [|w schedule IH]; intros step workers result s.
  - exists []. done.
  - simpl. destruct (workers !! w) as [[|vol todo]|] eqn:Hw; [apply IH| |apply IH].
    destruct (add_volume cfg (clock step) vol s) as [op s1] eqn:Hadd.
    destruct (IH (S step) (<[w := todo]> workers)
                (record_item (TapeVolume.volser vol) op result) s1)
      as (trace & Hrun & Hperm).
    exists (vol :: trace). simpl. rewrite Hadd. split; [done|].
    rewrite (concat_take_head workers w vol todo Hw). by rewrite Hperm.
Qed.

Lemma all_joined_concat workers :
  all_joined workers = true → concat workers = [].
Proof.
  induction workers as [|[|x todo] workers IH]; simpl; [done| |done].
  intros Hrest. by apply IH.
Qed.

(** A completed parallel call is the sequential loop over a rearrangement
    of the input. *)
Lemma parallel_add_volumes_trace volumes thread_count schedule s outcome :
  1 ≤ thread_count →
  parallel_add_volumes cfg clock volumes thread_count schedule s
  = Some outcome →
  ∃ trace,
    trace ≡ₚ volumes
    ∧ outcome
      = add_volumes_loop cfg clock 0 trace (empty_batch (length volumes)) s.
Proof.
  intros Hpos. unfold parallel_add_volumes.
  destruct volumes as [|vol volumes]; [intros [= <-]; by exists []|].
  set (all := vol :: volumes).
  set (tc := (thread_count `min` length all) `min` MAX_PARALLEL_OPERATIONS).
  assert (1 ≤ tc) as Htc.
  { subst tc all. unfold MAX_PARALLEL_OPERATIONS. simpl. lia. }
  destruct (parallel_run_trace schedule 0
              (shard all (length all / tc) tc <$> seq 0 tc)
              (empty_batch (length all)) s) as (trace & Hrun & Hperm).
  destruct (parallel_run cfg clock 0 schedule _ _ s) as [left_over res].
  simpl in Hrun, Hperm.
  destruct (all_joined left_over) eqn:Hjoin; [|done]. intros [= <-].
  exists trace. split; [|done].
  rewrite concat_shards in Hperm by done.
  by rewrite (all_joined_concat _ Hjoin), app_nil_r in Hperm.
Qed.

End parallel.

(** ** Batches of independent items *)

Section independent.

Import TMSSystem.

Variables (cfg : Configuration).

Implicit Types (s : t) (result : BatchResult.t) (volumes : list TapeVolume.t).

(** The clock only reaches the three fields [timeless] resets. *)
Lemma timeless_prepare_volume now vol :
  timeless (prepare_volume now vol) = timeless (prepare_volume 0 vol).
Proof.
  unfold timeless, prepare_volume.
  destruct vol as [k st de po ow cd ed lu cb ub ds tg rb re hc]. simpl.
  destruct (decide (cd = 0%Z)); simpl;
    destruct (decide (ed = 0%Z)); simpl;
    destruct (decide (cb = 0%N)); reflexivity.
Qed.

(** With room left in the catalog, [add_volume] fails as [failure_of]
    says. *)
Lemma add_volume_outcome now vol s :
  (N.of_nat (size (volumes_ s)) < get_max_volumes cfg)%N →
  match (add_volume cfg now vol s).1 with
  | ok _ => failure_of s vol = None
  | err e => failure_of s vol = Some (TapeVolume.volser vol, message e)
  end.
Proof.
  intros Hlim. unfold add_volume, failure_of.
  destruct (validate_volser (TapeVolume.volser vol)); simpl; [|done].
  destruct (N.leb_spec (get_max_volumes cfg) (N.of_nat (size (volumes_ s))));
    [lia|].
  case_decide as Hex; simpl.
  - by destruct Hex as [old ->].
  - by apply eq_None_not_Some in Hex as ->.
Qed.

Lemma union_insert_present {A} (m1 m2 : gmap string A) k x :
  is_Some (m1 !! k) → m1 ∪ <[k := x]> m2 = m1 ∪ m2.
Proof.
  intros Hk. apply map_eq. intros j. destruct (decide (j = k)) as [->|Hne].
  - by rewrite !lookup_union_l'.
  - by rewrite !lookup_union, lookup_insert_ne.
Qed.

Lemma failure_of_agree s s1 (rest : list TapeVolume.t) :
  (∀ v, v ∈ rest →
     volumes_ s1 !! TapeVolume.volser v = volumes_ s !! TapeVolume.volser v) →
  omap (failure_of s1) rest = omap (failure_of s) rest.
Proof.
  intros Hsame. apply list_omap_ext, Forall_Forall2_diag, Forall_forall.
  intros v Hv. unfold failure_of. by rewrite (Hsame v Hv).
Qed.

(** The catalog and the failure list that a loop over independent items
    leaves, in closed form. *)
Lemma add_volumes_loop_independent clock i volumes result s :
  independent_items cfg volumes s →
  let outcome := add_volumes_loop cfg clock i volumes result s in
  timeless <$> volumes_ outcome.2
  = (timeless <$> volumes_ s)
    ∪ list_to_map
        (timeless_entry
         <$> filter (λ v, validate_volser (TapeVolume.volser v) = true)
               volumes)
  ∧ BatchResult.failures outcome.1
    = BatchResult.failures result ++ omap (failure_of s) volumes.
Proof.
  revert i result s.
  induction volumes as [|vol rest IH]; intros i result s [Hnd Hlim].
  - simpl. rewrite (right_id_L ∅ (∪)), app_nil_r. done.
  - rewrite fmap_cons in Hnd. apply NoDup_cons in Hnd as [Hfresh Hnd].
    simpl in Hlim.
    pose proof (add_volume_outcome (clock i) vol s) as Hout.
    cbn [add_volumes_loop].
    destruct (add_volume cfg (clock i) vol s) as [[u|e] s1] eqn:Hadd;
      simpl in Hout; (specialize (Hout ltac:(lia))).
    + apply add_volume_ok in Hadd as (Hval & _ & Hnone & Hvol & _).
      destruct (IH (S i) (record_item (TapeVolume.volser vol) (ok u) result)
                  s1) as [Hmap Hfail].
      { split; [done|]. rewrite Hvol, map_size_insert_None by done. lia. }
      cbv zeta. rewrite Hmap, Hfail. split.
      * rewrite filter_cons_True by done.
        rewrite fmap_cons. unfold timeless_entry at 2.
        rewrite list_to_map_cons, Hvol, fmap_insert.
        rewrite timeless_prepare_volume.
        rewrite <- insert_union_l, insert_union_r; [done|].
        by rewrite lookup_fmap, Hnone.
      * simpl. rewrite Hout. f_equal. apply failure_of_agree.
        intros v Hv. rewrite Hvol, lookup_insert_ne; [done|].
        intros Heq. apply Hfresh. rewrite Heq. by apply list_elem_of_fmap_2.
    + apply add_volume_err in Hadd as ->.
      destruct (IH (S i) (record_item (TapeVolume.volser vol) (err e) result)
                  s) as [Hmap Hfail].
      { split; [done|lia]. }
      cbv zeta. rewrite Hmap, Hfail. split.
      * destruct (validate_volser (TapeVolume.volser vol)) eqn:Hval.
        -- rewrite filter_cons_True by done.
           rewrite fmap_cons. unfold timeless_entry at 2.
           rewrite list_to_map_cons, union_insert_present; [done|].
           rewrite lookup_fmap. unfold failure_of in Hout. rewrite Hval in Hout.
           by destruct (volumes_ s !! TapeVolume.volser vol).
        -- rewrite filter_cons_False; [done|]. by rewrite Hval.
      * simpl. rewrite Hout. by rewrite <- app_assoc.
Qed.

Lemma independent_items_perm volumes trace s :
  trace ≡ₚ volumes →
  independent_items cfg volumes s → independent_items cfg trace s.
Proof.
  intros Hperm [Hnd Hlim]. split.
  - by rewrite Hperm.
  - by rewrite Hperm.
Qed.

Lemma NoDup_timeless_entries volumes :
  NoDup (TapeVolume.volser <$> volumes) →
  NoDup ((timeless_entry
          <$> filter (λ v, validate_volser (TapeVolume.volser v) = true)
                volumes).*1).
Proof.
  intros Hnd. rewrite <- list_fmap_compose.
  eapply sublist_NoDup; [exact Hnd|].
  apply fmap_sublist, sublist_filter.
Qed.

End independent.

(** C9: for a batch without inter-item dependencies (pairwise distinct
    volsers, room under the volume limit for all of them),
    [parallel_add_volumes] with any thread count [k] in [1, len(items)] and
    under any schedule of its workers leaves the same catalog as the
    sequential [add_volumes_batch]: the same set of stored volsers, each
    with the same record up to the timestamps taken from the wall clock at
    the moment of the call.  The counters of the two [BatchResult]s agree
    and their [failures] are rearrangements of each other. *)
Theorem parallel_add_volumes_equivalent (cfg : Configuration)
    (clock clock' : nat → Z) (volumes : list TapeVolume.t) (k : nat)
    (schedule : list nat) (s s' : TMSSystem.t) (result' : BatchResult.t) :
  1 ≤ k ≤ length volumes →
  (N.of_nat (length volumes) < UINT64_MOD)%N →
  independent_items cfg volumes s →
  TMSSystem.parallel_add_volumes cfg clock' volumes k schedule s
  = Some (result', s') →
  let result := (TMSSystem.add_volumes_batch cfg clock volumes s).1 in
  let s_seq := (TMSSystem.add_volumes_batch cfg clock volumes s).2 in
  dom (TMSSystem.volumes_ s') = dom (TMSSystem.volumes_ s_seq)
  ∧ timeless <$> TMSSystem.volumes_ s' = timeless <$> TMSSystem.volumes_ s_seq
  ∧ BatchResult.total result' = BatchResult.total result
  ∧ BatchResult.succeeded result' = BatchResult.succeeded result
  ∧ BatchResult.failed result' = BatchResult.failed result
  ∧ BatchResult.failures result' ≡ₚ BatchResult.failures result.
Proof.
  intros [Hk _] Hlen Hind Hpar result s_seq. subst result s_seq.
  apply parallel_add_volumes_trace in Hpar as (trace & Hperm & Hout); [|done].
  unfold TMSSystem.add_volumes_batch.
  set (r0 := TMSSystem.empty_batch (length volumes)) in *.
  pose proof (independent_items_perm cfg volumes trace s Hperm Hind) as Hind'.
  destruct (add_volumes_loop_independent cfg clock' 0 trace r0 s Hind')
    as [Hmap' Hfail'].
  destruct (add_volumes_loop_independent cfg clock 0 volumes r0 s Hind)
    as [Hmap Hfail].
  destruct (add_volumes_loop_counts cfg clock' 0 trace r0 s)
    as (Htot' & _ & Hsum' & Hlen'); [rewrite Hperm; simpl; lia|].
  destruct (add_volumes_loop_counts cfg clock 0 volumes r0 s)
    as (Htot & _ & Hsum & Hlen0); [simpl; lia|].
  rewrite <- Hout in Hmap', Hfail', Htot', Hsum', Hlen'.
  simpl in Hmap', Hfail', Htot', Hsum', Hlen', Hfail, Hsum, Hlen0.
  assert (timeless <$> TMSSystem.volumes_ s'
          = timeless
            <$> TMSSystem.volumes_
                  (TMSSystem.add_volumes_loop cfg clock 0 volumes r0 s).2)
    as Heq.
  { rewrite Hmap', Hmap. f_equal. apply list_to_map_proper.
    - apply NoDup_timeless_entries. by destruct Hind'.
    - by rewrite Hperm. }
  assert (BatchResult.failures result'
          ≡ₚ BatchResult.failures
               (TMSSystem.add_volumes_loop cfg clock 0 volumes r0 s).1)
    as Hfp by (rewrite Hfail', Hfail, Hperm; done).
  pose proof (Permutation_length Hfp) as Hfl.
  rewrite (Permutation_length Hperm) in Hsum'.
  split_and!; [|done|by rewrite Htot', Htot|lia|lia|done].
  apply (f_equal dom) in Heq. by rewrite !dom_fmap_L in Heq.
Qed.

Lemma parallel_add_volumes_equivalent_witness :
  ∃ result' s',
    TMSSystem.parallel_add_volumes default_configuration (λ n, Z.of_nat n + 100)%Z
      parallel_example_volumes 2 parallel_example_schedule batch_example_state
    = Some (result', s')
    ∧ dom (TMSSystem.volumes_ s')
      = dom (TMSSystem.volumes_
               (TMSSystem.add_volumes_batch default_configuration (λ _, 5%Z)
                  parallel_example_volumes batch_example_state).2)
    ∧ BatchResult.succeeded result' = 4%N.
Proof.
  eexists _, _. split; [vm_compute; reflexivity|].
  edestruct (parallel_add_volumes_equivalent default_configuration
               (λ _, 5%Z) (λ n, Z.of_nat n + 100)%Z parallel_example_volumes 2
               parallel_example_schedule batch_example_state)
    as (Hdom & _ & _ & Hsucc & _).
  - vm_compute. split; repeat constructor.
  - reflexivity.
  - split.
    + apply (bool_decide_unpack _). vm_compute. exact I.
    + vm_compute. discriminate.
  - vm_compute. reflexivity.
  - split; [exact Hdom|]. rewrite Hsucc. vm_compute. reflexivity.
Defined.

(** Why independence asks for room under the volume limit: with room for
    one volume only, two workers racing for it leave PAR002 in the catalog
    when the second worker wins, where the sequential batch leaves PAR001. *)
Example parallel_limit_dependence :
  let volumes := TapeVolume.default <$> ["PAR001"; "PAR002"] in
  let stored (s : TMSSystem.t) :=
    (TapeVolume.volser <$> TMSSystem.volumes_ s !! "PAR001",
     TapeVolume.volser <$> TMSSystem.volumes_ s !! "PAR002") in
  (stored ∘ snd
   <$> TMSSystem.parallel_add_volumes one_volume_limit (λ _, 5%Z) volumes 2
         [1; 0] TMSSystem.empty)
  = Some (None, Some "PAR002")
  ∧ stored
      (TMSSystem.add_volumes_batch one_volume_limit (λ _, 5%Z) volumes
         TMSSystem.empty).2
    = (Some "PAR001", None).
Proof. vm_compute. split; reflexivity. Qed.

(** ** Every parallel call has complete executions *)

Section completion.

Import TMSSystem.

Variables (cfg : Configuration) (clock : nat → Z).

Lemma not_all_joined (workers : list (list TapeVolume.t)) :
  all_joined workers = false →
  ∃ w vol todo, workers !! w = Some (vol :: todo).
Proof.
  induction workers as [|[|vol todo] workers IH]; simpl; [done| |].
  - intros (w & vol & todo & Hw)%IH. by exists (S w), vol, todo.
  - intros _. by exists 0, vol, todo.
Qed.

(** From any point, naming unfinished workers until none is left drains
    every shard. *)
Lemma parallel_run_drains (n : nat) :
  ∀ (workers : list (list TapeVolume.t)) step result s,
    length (concat workers) = n →
    ∃ schedule,
      all_joined (parallel_run cfg clock step schedule workers result s).1
      = true.
Proof.
  induction n as [|n IH]; intros workers step result s Hn.
  - exists []. simpl. destruct (all_joined workers) eqn:Hj; [done|].
    apply not_all_joined in Hj as (w & vol & todo & Hw).
    apply concat_take_head, Permutation_length in Hw. simpl in Hw. lia.
  - destruct (all_joined workers) eqn:Hj.
    { by exists []. }
    apply not_all_joined in Hj as (w & vol & todo & Hw).
    pose proof (Permutation_length (concat_take_head _ _ _ _ Hw)) as Hlen.
    simpl in Hlen.
    destruct (add_volume cfg (clock step) vol s) as [op s1] eqn:Hadd.
    destruct (IH (<[w := todo]> workers) (S step)
                (record_item (TapeVolume.volser vol) op result) s1)
      as [schedule Hdone]; [lia|].
    exists (w :: schedule). simpl. by rewrite Hw, Hadd.
Qed.

(** Some schedule lets the call return, whatever the input. *)
Lemma parallel_add_volumes_completes (volumes : list TapeVolume.t)
    (thread_count : nat) (s : t) :
  ∃ schedule,
    is_Some (parallel_add_volumes cfg clock volumes thread_count schedule s).
Proof.
  unfold parallel_add_volumes. destruct volumes as [|vol volumes].
  { exists []. by eexists. }
  match goal with
  | |- context [parallel_run cfg clock 0 _ ?workers ?r s] =>
      destruct (parallel_run_drains (length (concat workers)) workers 0 r s)
        as [schedule Hdone]; [done|]
  end.
  exists schedule.
  destruct (parallel_run cfg clock 0 schedule _ _ s) as [left_over outcome].
  simpl in Hdone. rewrite Hdone. by eexists.
Qed.

End completion.

(** * Further properties of the engine *)

(** ** Catalog file words *)

(** X1: the words the catalog file stores for a volume status, a dataset
    status and a tape density are read back as the enumerator that was
    written. *)
Theorem catalog_words_round_trip :
  (∀ st, string_to_volume_status (volume_status_to_string st) = st)
  ∧ (∀ st, string_to_dataset_status (dataset_status_to_string st) = st)
  ∧ (∀ d, string_to_density (density_to_string d) = d).
Proof. split_and!; intros []; reflexivity. Qed.

(** ** Secondary index: undoing an addition, listed values *)

Section index_values.

Implicit Types (idx : SecondaryIndex.t) (val key : string).

Lemma index_inhabited_add val key idx :
  index_inhabited idx → index_inhabited (SecondaryIndex.add val key idx).
Proof.
  intros Hwf val' keys. unfold SecondaryIndex.add.
  case_decide as Hval; [by apply Hwf|].
  destruct (decide (val' = val)) as [->|Hne].
  - rewrite lookup_insert_eq. intros [= <-]. split; [set_solver|done].
  - rewrite lookup_insert_ne by done. apply Hwf.
Qed.

Lemma index_inhabited_remove val key idx :
  index_inhabited idx → index_inhabited (SecondaryIndex.remove val key idx).
Proof.
  intros Hwf val' keys. unfold SecondaryIndex.remove.
  destruct (idx !! val) as [old|] eqn:Hold; [|by apply Hwf].
  simpl. case_decide as Hempty.
  - destruct (decide (val' = val)) as [->|Hne].
    + by rewrite lookup_delete_eq.
    + rewrite lookup_delete_ne by done. apply Hwf.
  - destruct (decide (val' = val)) as [->|Hne].
    + rewrite lookup_insert_eq. intros [= <-]. split; [done|].
      by apply (Hwf _ _ Hold).
    + rewrite lookup_insert_ne by done. apply Hwf.
Qed.

Lemma index_inhabited_run ops : index_inhabited (index_run ops).
Proof.
  unfold index_run. induction ops as [|op ops IH] using rev_ind.
  - intros val keys. simpl. by rewrite lookup_empty.
  - rewrite foldl_app. simpl. destruct op; simpl.
    + by apply index_inhabited_add.
    + by apply index_inhabited_remove.
    + by apply index_inhabited_add, index_inhabited_remove.
Qed.

End index_values.

(** X2: removing a key right after adding it gives the index back, when
    the key was not listed under the value before and the value held no
    empty key set. *)
Theorem index_remove_undoes_add (attr_value key : string)
    (idx : SecondaryIndex.t) :
  key ∉ SecondaryIndex.find attr_value idx →
  idx !! attr_value ≠ Some ∅ →
  SecondaryIndex.remove attr_value key (SecondaryIndex.add attr_value key idx)
  = idx.
Proof.
  unfold SecondaryIndex.find, SecondaryIndex.add, SecondaryIndex.remove.
  intros Hnew Hne. case_decide as Hval.
  - destruct (idx !! attr_value) as [keys|] eqn:Hkeys; [|done]. simpl in *.
    assert (keys ∖ {[key]} = keys) as -> by set_solver.
    case_decide as Hempty; [congruence|]. by apply insert_id.
  - rewrite lookup_insert_eq. simpl.
    assert (({[key]} ∪ default ∅ (idx !! attr_value)) ∖ {[key]}
            = default ∅ (idx !! attr_value)) as -> by set_solver.
    case_decide as Hempty.
    + rewrite delete_insert_eq. apply delete_id.
      destruct (idx !! attr_value) as [keys|] eqn:Hkeys; [|done].
      simpl in Hempty. congruence.
    + rewrite insert_insert_eq.
      destruct (idx !! attr_value) as [keys|] eqn:Hkeys; [|done].
      by apply insert_id.
Qed.

Lemma index_remove_undoes_add_witness :
  SecondaryIndex.remove "alice" "V00001"
    (SecondaryIndex.add "alice" "V00001"
       (SecondaryIndex.add "alice" "V00002" ∅))
  = SecondaryIndex.add "alice" "V00002" ∅.
Proof.
  apply index_remove_undoes_add.
  - apply (bool_decide_unpack _). vm_compute. exact I.
  - done.
Defined.

(** X3: for an index built by any calls of add, remove and update on an
    empty one, [get_all_values] lists exactly the values some key is
    indexed under, never the empty string, in ascending order and without
    repetition. *)
Theorem get_all_values_inhabited (ops : list IndexOp) :
  let idx := index_run ops in
  (∀ val, val ∈ SecondaryIndex.get_all_values idx
          ↔ ∃ key, key ∈ SecondaryIndex.find val idx)
  ∧ ("" ∉ SecondaryIndex.get_all_values idx)
  ∧ StronglySorted String.le (SecondaryIndex.get_all_values idx)
  ∧ NoDup (SecondaryIndex.get_all_values idx).
Proof.
  intros idx. pose proof (index_inhabited_run ops) as Hwf. fold idx in Hwf.
  unfold SecondaryIndex.get_all_values, SecondaryIndex.find.
  split_and!.
  - intros val. rewrite elem_of_sorted_elements, elem_of_dom. split.
    + intros [keys Hkeys]. rewrite Hkeys. simpl.
      destruct (Hwf _ _ Hkeys) as [Hne _].
      apply set_choose_L in Hne. done.
    + intros [key Hkey]. destruct (idx !! val) as [keys|]; [by eexists|].
      simpl in Hkey. set_solver.
  - rewrite elem_of_sorted_elements, elem_of_dom. intros [keys Hkeys].
    by destruct (Hwf _ _ Hkeys).
  - apply sorted_elements_sorted.
  - apply NoDup_sorted_elements.
Qed.

(** ** Audit log: limit, newest record, search *)

Lemma filter_all {A} (P : A → Prop) `{!∀ x, Decision (P x)} (l : list A) :
  Forall P l → filter P l = l.
Proof.
  induction 1 as [|x l Hx _ IH]; [done|].
  by rewrite filter_cons, decide_True, IH.
Qed.

Section audit_more.

Implicit Types (log : AuditLog.t) (recs : list AuditRecord).

Lemma audit_size_add_within record log :
  (5 ≤ AuditLog.max_records_ log)%N →
  (AuditLog.size log ≤ AuditLog.max_records_ log)%N →
  AuditLog.max_records_ (AuditLog.add record log) = AuditLog.max_records_ log
  ∧ (AuditLog.size (AuditLog.add record log) ≤ AuditLog.max_records_ log)%N.
Proof.
  intros Hmax Hsize. destruct log as [recs max pruned].
  unfold AuditLog.add, AuditLog.prune, AuditLog.size in *.
  cbn [AuditLog.records_ AuditLog.max_records_ AuditLog.pruned_count_] in *.
  assert (length (recs ++ [record]) = S (length recs)) as Hlen.
  { rewrite length_app. simpl. lia. }
  remember (recs ++ [record]) as l eqn:Hl. clear Hl.
  assert (1 ≤ max / 5)%N as Hfifth.
  { apply (N.Div0.div_le_mono _ _ 5) in Hmax. by rewrite N.div_same in Hmax. }
  assert (max / 5 ≤ max)%N as Hle by (apply N.Div0.div_le_upper_bound; lia).
  destruct (N.ltb_spec max (N.of_nat (length l))) as [Hover|Hunder];
    cbn [AuditLog.records_ AuditLog.max_records_]; [|split; [done|lia]].
  destruct (N.ltb_spec 0 (max / 5)) as [_|?]; [|lia].
  destruct (N.ltb_spec (max / 5) (N.of_nat (length l))) as [_|?]; [|lia].
  cbn [andb AuditLog.records_ AuditLog.max_records_].
  split; [done|]. rewrite length_drop. lia.
Qed.

Lemma audit_add_last record log :
  ∃ older, AuditLog.records_ (AuditLog.add record log) = older ++ [record].
Proof.
  destruct log as [recs max pruned].
  unfold AuditLog.add, AuditLog.prune, AuditLog.size. simpl.
  destruct (_ <? _)%N; simpl; [|by eexists].
  destruct (N.ltb_spec 0 (max / 5)) as [_|?]; simpl; [|by eexists].
  destruct (N.ltb_spec (max / 5) (N.of_nat (length (recs ++ [record]))))
    as [Hlt|?]; simpl; [|by eexists].
  rewrite length_app in Hlt. simpl in Hlt.
  exists (drop (N.to_nat (max / 5)) recs).
  rewrite drop_app_le by lia. done.
Qed.

Lemma audit_search_loop op_filter target_filter count recs result :
  length result ≤ N.to_nat count →
  AuditLog.search_loop op_filter target_filter count recs result
  = result
    ++ take (N.to_nat count - length result)
         (filter (λ r, AuditLog.record_matches op_filter target_filter r
                       = true) recs).
Proof.
  revert result. induction recs as [|r recs IH]; intros result Hlen.
  { by rewrite filter_nil, take_nil, app_nil_r. }
  cbn [AuditLog.search_loop].
  destruct (N.ltb_spec (N.of_nat (length result)) count) as [Hlt|Hge].
  - rewrite filter_cons.
    destruct (AuditLog.record_matches op_filter target_filter r) eqn:Hr.
    + rewrite decide_True by done. rewrite IH.
      2:{ rewrite length_app. simpl. lia. }
      rewrite length_app. simpl.
      replace (N.to_nat count - length result)
        with (S (N.to_nat count - (length result + 1))) by lia.
      simpl. by rewrite <- app_assoc.
    + rewrite decide_False by done. by apply IH.
  - replace (N.to_nat count - length result) with 0 by lia.
    by rewrite take_0, app_nil_r.
Qed.

End audit_more.

(** X4: with a limit of at least five records, the log built by any
    sequence of additions never holds more records than the limit. *)
Theorem audit_log_within_limit (max_records : N) (recs : list AuditRecord) :
  (5 ≤ max_records)%N →
  (AuditLog.size (AuditLog.add_all recs (AuditLog.make max_records))
   ≤ max_records)%N.
Proof.
  intros Hmax.
  cut (AuditLog.max_records_
         (AuditLog.add_all recs (AuditLog.make max_records)) = max_records
       ∧ (AuditLog.size (AuditLog.add_all recs (AuditLog.make max_records))
          ≤ max_records)%N); [by intros [_ ?]|].
  unfold AuditLog.add_all. induction recs as [|r recs IH] using rev_ind.
  - simpl. unfold AuditLog.size. simpl. split; [done|lia].
  - rewrite foldl_app. simpl. destruct IH as [Hm Hs].
    destruct (audit_size_add_within r
                (foldl (λ l r, AuditLog.add r l) (AuditLog.make max_records)
                   recs)) as [Hm' Hs']; [by rewrite Hm..|].
    rewrite Hm' , Hm in *. done.
Qed.

Lemma audit_log_within_limit_witness :
  (AuditLog.size
     (AuditLog.add_all (replicate 40 sample_record) (AuditLog.make 10))
   ≤ 10)%N.
Proof. apply audit_log_within_limit. lia. Defined.

(** X5: a limit below five disables pruning: every record added is kept
    and the pruned count does not move, whatever the number of records. *)
Theorem audit_log_small_limit_grows (log : AuditLog.t)
    (recs : list AuditRecord) :
  (AuditLog.max_records_ log < 5)%N →
  AuditLog.add_all recs log
  = AuditLog.mk (AuditLog.records_ log ++ recs) (AuditLog.max_records_ log)
      (AuditLog.pruned_count_ log).
Proof.
  intros Hmax. revert log Hmax.
  induction recs as [|r recs IH]; intros [old max pruned] Hmax; simpl in *.
  { by rewrite app_nil_r. }
  unfold AuditLog.add_all in *. simpl.
  assert (AuditLog.add r (AuditLog.mk old max pruned)
          = AuditLog.mk (old ++ [r]) max pruned) as ->.
  { unfold AuditLog.add, AuditLog.prune. simpl.
    rewrite (N.div_small max 5) by done. simpl.
    by destruct (_ <? _)%N. }
  rewrite IH by done. simpl. by rewrite <- app_assoc.
Qed.

Lemma audit_log_small_limit_grows_witness :
  AuditLog.add_all (replicate 9 sample_record) (AuditLog.make 4)
  = AuditLog.mk (replicate 9 sample_record) 4 0.
Proof. apply (audit_log_small_limit_grows (AuditLog.make 4)). done. Defined.

(** X6: the record just added is the newest one [get_recent] returns, for
    every positive count: pruning never removes it. *)
Theorem audit_add_keeps_newest (count : N) (record : AuditRecord)
    (log : AuditLog.t) :
  (0 < count)%N →
  last (AuditLog.get_recent count (AuditLog.add record log)) = Some record.
Proof.
  intros Hcount. destruct (audit_add_last record log) as [older Hrecs].
  unfold AuditLog.get_recent, AuditLog.size. rewrite Hrecs.
  rewrite length_app. cbn [length].
  destruct (N.ltb_spec count (N.of_nat (length older + 1))) as [Hlt|Hge].
  - rewrite drop_app_le by lia. by rewrite last_snoc.
  - change (N.to_nat 0) with 0. by rewrite drop_0, last_snoc.
Qed.

Lemma audit_add_keeps_newest_witness :
  last (AuditLog.get_recent 3
          (AuditLog.add sample_record
             (AuditLog.add_all (replicate 10 sample_record)
                (AuditLog.make 10))))
  = Some sample_record.
Proof. apply audit_add_keeps_newest. lia. Defined.


(** X8: a search without filters returns what [get_recent] returns for the
    same count, newest first. *)
Theorem audit_search_unfiltered_is_recent (count : N) (log : AuditLog.t) :
  AuditLog.search "" "" count log = rev (AuditLog.get_recent count log).
Proof.
  unfold AuditLog.search. rewrite audit_search_loop by (simpl; lia).
  simpl. rewrite Nat.sub_0_r.
  rewrite filter_all by (apply Forall_forall; intros r _; reflexivity).
  unfold AuditLog.get_recent, AuditLog.size.
  rewrite firstn_rev. do 2 f_equal.
  destruct (N.ltb_spec count (N.of_nat (length (AuditLog.records_ log))));
    lia.
Qed.

(** X9: lowering the limit below the current size prunes once, by a fifth
    of the new limit, and stores the limit; a log that was more than six
    fifths of the new limit long stays over it. *)
Theorem audit_set_max_records_prunes_once (max : N) (log : AuditLog.t) :
  (max < AuditLog.size log)%N →
  let log' := AuditLog.set_max_records max log in
  AuditLog.size log' = (AuditLog.size log - max / 5)%N
  ∧ AuditLog.max_records_ log' = max
  ∧ AuditLog.pruned_count_ log'
    = (if (0 <? max / 5)%N
       then u64_add (AuditLog.pruned_count_ log) (max / 5)
       else AuditLog.pruned_count_ log)
  ∧ ((max + max / 5 < AuditLog.size log)%N → (max < AuditLog.size log')%N).
Proof.
  intros Hover. destruct log as [recs old pruned].
  unfold AuditLog.set_max_records, AuditLog.prune, AuditLog.size in *.
  cbn [AuditLog.records_ AuditLog.max_records_ AuditLog.pruned_count_] in *.
  assert (max / 5 ≤ max)%N as Hle by (apply N.Div0.div_le_upper_bound; lia).
  remember (max / 5)%N as fifth eqn:Hfifth. clear Hfifth.
  destruct (N.ltb_spec max (N.of_nat (length recs))) as [_|?]; [|lia].
  destruct (N.ltb_spec 0 fifth) as [Hpos|Hzero]; cbn [andb].
  - destruct (N.ltb_spec fifth (N.of_nat (length recs))) as [_|?]; [|lia].
    cbn [AuditLog.records_ AuditLog.max_records_ AuditLog.pruned_count_].
    rewrite length_drop. split_and!; [lia|done..|lia].
  - cbn [AuditLog.records_ AuditLog.max_records_ AuditLog.pruned_count_].
    split_and!; [lia|done..|lia].
Qed.

Lemma audit_set_max_records_prunes_once_witness :
  let log := AuditLog.add_all (replicate 100 sample_record)
               (AuditLog.make 10000) in
  let log' := AuditLog.set_max_records 10 log in
  AuditLog.size log' = (AuditLog.size log - 10 / 5)%N
  ∧ AuditLog.max_records_ log' = 10%N
  ∧ AuditLog.pruned_count_ log'
    = (if (0 <? 10 / 5)%N
       then u64_add (AuditLog.pruned_count_ log) (10 / 5)
       else AuditLog.pruned_count_ log)
  ∧ ((10 + 10 / 5 < AuditLog.size log)%N → (10 < AuditLog.size log')%N).
Proof.
  apply (audit_set_max_records_prunes_once 10). vm_compute. reflexivity.
Defined.

(** ** Key-ordered listings *)

Section listings.

Context {V : Type}.
Implicit Types (m : gmap string V) (es : list (string * V)).

Lemma StronglySorted_filter {A} (R : relation A) (P : A → Prop)
    `{!∀ x, Decision (P x)} (l : list A) :
  StronglySorted R l → StronglySorted R (filter P l).
Proof.
  induction 1 as [|x l _ IH Hx]; [constructor|].
  rewrite filter_cons. case_decide; [|done].
  constructor; [done|].
  apply Forall_forall. intros y [_ Hy]%list_elem_of_filter.
  by apply (proj1 (Forall_forall _ _) Hx).
Qed.

Lemma StronglySorted_keys es :
  StronglySorted entry_le es → StronglySorted String.le es.*1.
Proof.
  induction 1 as [|e es _ IH He]; [constructor|].
  simpl. constructor; [done|]. by apply Forall_fmap.
Qed.

Lemma NoDup_sorted_entries_keys m : NoDup (sorted_entries m).*1.
Proof.
  unfold sorted_entries.
  rewrite (merge_sort_Permutation entry_le (map_to_list m)).
  apply NoDup_fst_map_to_list.
Qed.

Lemma NoDup_filter_keys es (P : string * V → Prop)
    `{!∀ e, Decision (P e)} :
  NoDup es.*1 → NoDup (filter P es).*1.
Proof.
  intros Hnd. apply (sublist_NoDup _ es.*1); [done|].
  apply fmap_sublist, sublist_filter.
Qed.

Lemma sorted_keys_unique (l1 l2 : list string) :
  StronglySorted String.le l1 → StronglySorted String.le l2 →
  NoDup l1 → NoDup l2 → (∀ k, k ∈ l1 ↔ k ∈ l2) → l1 = l2.
Proof.
  intros Hs1 Hs2 Hn1 Hn2 Hel.
  apply (StronglySorted_unique String.le); [done..|].
  by apply NoDup_Permutation.
Qed.

Lemma omap_filter_Some {A B} (f : A → option B) (l : list A) :
  omap f (filter (λ x, is_Some (f x)) l) = omap f l.
Proof.
  induction l as [|x l IH]; [done|].
  rewrite filter_cons. destruct (decide (is_Some (f x))) as [[y Hy]|Hn].
  - csimpl. rewrite Hy. by rewrite IH.
  - csimpl. destruct (f x) eqn:Hx; [|done]. destruct Hn. by eexists.
Qed.

(** Looking the keys of listed entries up again gives their records. *)
Lemma omap_lookup_entries m es :
  (∀ e, e ∈ es → m !! e.1 = Some e.2) →
  omap (λ k, m !! k) es.*1 = es.*2.
Proof.
  induction es as [|e es IH]; intros Hes; [done|].
  csimpl. rewrite (Hes e) by left. f_equal.
  apply IH. intros e' He'. apply Hes. by right.
Qed.

Lemma filter_snd es (P : V → Prop) `{!∀ v, Decision (P v)} :
  filter P es.*2 = (filter (λ e, P e.2) es).*2.
Proof.
  induction es as [|e es IH]; [done|].
  rewrite fmap_cons, !filter_cons.
  case_decide; [rewrite fmap_cons|]; by rewrite IH.
Qed.

(** The records of the keys in [X], in key order, are the entries of the
    map whose key is in [X], in key order. *)
Lemma collect_entries m (X : gset string) :
  TMSSystem.collect m X = (filter (λ e, e.1 ∈ X) (sorted_entries m)).*2.
Proof.
  unfold TMSSystem.collect.
  rewrite <- (omap_filter_Some (λ k, m !! k)).
  rewrite (sorted_keys_unique
             (filter (λ k, is_Some (m !! k)) (sorted_elements X))
             (filter (λ e, e.1 ∈ X) (sorted_entries m)).*1).
  - apply omap_lookup_entries. intros [k v] [_ He]%list_elem_of_filter.
    by apply elem_of_sorted_entries.
  - apply StronglySorted_filter, sorted_elements_sorted.
  - apply StronglySorted_keys, StronglySorted_filter, sorted_entries_sorted.
  - apply NoDup_filter, NoDup_sorted_elements.
  - apply NoDup_filter_keys, NoDup_sorted_entries_keys.
  - intros k. rewrite list_elem_of_filter, elem_of_sorted_elements.
    rewrite list_elem_of_fmap. split.
    + intros [[v Hv] Hk]. exists (k, v). split; [done|].
      apply list_elem_of_filter. split; [done|].
      by apply elem_of_sorted_entries.
    + intros [[k' v] [-> [Hk Hv]%list_elem_of_filter]].
      apply elem_of_sorted_entries in Hv. simpl in *. split; [by eexists|done].
Qed.

Lemma filter_entries_ext es (P Q : string * V → Prop)
    `{!∀ e, Decision (P e)} `{!∀ e, Decision (Q e)} :
  (∀ e, e ∈ es → P e ↔ Q e) → filter P es = filter Q es.
Proof.
  induction es as [|e es IH]; intros Hes; [done|].
  rewrite !filter_cons. rewrite IH by (intros; apply Hes; by right).
  destruct (decide (P e)) as [HP|HP], (decide (Q e)) as [HQ|HQ];
    try done; exfalso; apply (Hes e) in HP || apply (Hes e) in HQ;
    try done; by left.
Qed.

(** With an index that agrees with the map, the indexed lookup of a
    non-empty value returns what a scan of the map for it returns. *)
Lemma collect_is_scan (attrs : V → gset string) m idx val :
  index_agrees attrs m idx → val ≠ "" →
  TMSSystem.collect m (SecondaryIndex.find val idx)
  = filter (λ r, val ∈ attrs r) (sorted_entries m).*2.
Proof.
  intros Hagree Hval. rewrite collect_entries, filter_snd. f_equal.
  apply filter_entries_ext. intros [k v] He. simpl.
  apply elem_of_sorted_entries in He. rewrite (Hagree val k). split.
  - intros [_ [r [Hr Hin]]]. congruence.
  - intros Hin. split; [done|]. by exists v.
Qed.

Lemma list_all_entries es : (filter (λ e : string * V, true = true) es) = es.
Proof. apply filter_all, Forall_forall. done. Qed.

End listings.

(** ** Index consistency under the maintenance operations *)

Section maintenance.

Import TMSSystem.

Implicit Types (s : TMSSystem.t) (v : TapeVolume.t) (d : Dataset.t).

Lemma add_audit_record_consistent now op tgt det s :
  index_consistent s → index_consistent (add_audit_record now op tgt det s).
Proof. intros [? ? ? ? ?]. by constructor. Qed.

(** Replacing a volume by one with the same owner, pool and tags. *)
Lemma set_volume_consistent s k v v' :
  index_consistent s →
  volumes_ s !! k = Some v →
  TapeVolume.owner v' = TapeVolume.owner v →
  TapeVolume.pool v' = TapeVolume.pool v →
  TapeVolume.tags v' = TapeVolume.tags v →
  index_consistent (set_volumes (<[k := v']> (volumes_ s)) s).
Proof.
  intros [Ho Hp Ht Hdo Hdt] Hk Howner Hpool Htags.
  constructor; simpl; [| | |done..].
  - apply (index_agrees_same_attrs _ _ _ _ v); [done..|].
    unfold volume_owner. by rewrite Howner.
  - apply (index_agrees_same_attrs _ _ _ _ v); [done..|].
    unfold volume_pool. by rewrite Hpool.
  - by apply (index_agrees_same_attrs _ _ _ _ v).
Qed.

Lemma index_agrees_fmap {V} (attrs : V → gset string) (f : V → V)
    (m : gmap string V) idx :
  (∀ r, attrs (f r) = attrs r) →
  index_agrees attrs m idx → index_agrees attrs (f <$> m) idx.
Proof.
  intros Hf Hagree val key. rewrite (Hagree val key).
  split; intros [Hval [r [Hr Hin]]]; (split; [done|]).
  - exists (f r). rewrite lookup_fmap, Hr. split; [done|]. by rewrite Hf.
  - rewrite lookup_fmap in Hr.
    destruct (m !! key) as [r'|] eqn:Hr'; [|done].
    simpl in Hr. injection Hr as <-. exists r'. split; [done|].
    by rewrite <- Hf.
Qed.

Lemma fmap_volumes_consistent s (f : TapeVolume.t → TapeVolume.t) :
  (∀ v, TapeVolume.owner (f v) = TapeVolume.owner v
        ∧ TapeVolume.pool (f v) = TapeVolume.pool v
        ∧ TapeVolume.tags (f v) = TapeVolume.tags v) →
  index_consistent s →
  index_consistent (set_volumes (f <$> volumes_ s) s).
Proof.
  intros Hf [Ho Hp Ht Hdo Hdt].
  constructor; simpl; [| | |done..]; apply index_agrees_fmap; try done.
  - intros v. unfold volume_owner. by rewrite (proj1 (Hf v)).
  - intros v. unfold volume_pool. by rewrite (proj1 (proj2 (Hf v))).
  - intros v. apply Hf.
Qed.

Lemma fmap_datasets_consistent s (f : Dataset.t → Dataset.t) :
  (∀ d, Dataset.owner (f d) = Dataset.owner d
        ∧ Dataset.tags (f d) = Dataset.tags d) →
  index_consistent s →
  index_consistent (set_datasets (f <$> datasets_ s) s).
Proof.
  intros Hf [Ho Hp Ht Hdo Hdt].
  constructor; simpl; [done..| |]; apply index_agrees_fmap; try done.
  - intros d. unfold dataset_owner. by rewrite (proj1 (Hf d)).
  - intros d. apply Hf.
Qed.

Lemma reserve_volume_consistent now volser user duration s :
  index_consistent s →
  index_consistent (reserve_volume now volser user duration s).2.
Proof.
  intros Hs. unfold reserve_volume.
  destruct (volumes_ s !! volser) as [v|] eqn:Hv; [|done].
  destruct (_ && _); [done|]. simpl.
  apply add_audit_record_consistent.
  by apply (set_volume_consistent _ _ v).
Qed.

Lemma release_volume_consistent now volser user s :
  index_consistent s →
  index_consistent (release_volume now volser user s).2.
Proof.
  intros Hs. unfold release_volume.
  destruct (volumes_ s !! volser) as [v|] eqn:Hv; [|done].
  destruct (negb _); [done|]. destruct (negb _); [done|]. simpl.
  apply add_audit_record_consistent.
  by apply (set_volume_consistent _ _ v).
Qed.

Lemma extend_reservation_consistent now volser user additional_time s :
  index_consistent s →
  index_consistent (extend_reservation now volser user additional_time s).2.
Proof.
  intros Hs. unfold extend_reservation.
  destruct (volumes_ s !! volser) as [v|] eqn:Hv; [|done].
  destruct (_ || _); [done|]. simpl.
  apply add_audit_record_consistent.
  by apply (set_volume_consistent _ _ v).
Qed.

Lemma set_volume_offline_consistent now volser s :
  index_consistent s → index_consistent (set_volume_offline now volser s).2.
Proof.
  intros Hs. unfold set_volume_offline.
  destruct (volumes_ s !! volser) as [v|] eqn:Hv; [|done].
  case_decide; [done|]. simpl.
  apply add_audit_record_consistent.
  by apply (set_volume_consistent _ _ v).
Qed.

Lemma set_volume_online_consistent now volser s :
  index_consistent s → index_consistent (set_volume_online now volser s).2.
Proof.
  intros Hs. unfold set_volume_online.
  destruct (volumes_ s !! volser) as [v|] eqn:Hv; [|done].
  case_decide; [done|]. simpl.
  apply add_audit_record_consistent.
  by apply (set_volume_consistent _ _ v).
Qed.

Lemma allocate_scratch_volume_consistent now pool density s :
  index_consistent s →
  index_consistent (allocate_scratch_volume now pool density s).2.
Proof.
  intros Hs. unfold allocate_scratch_volume.
  destruct (scan_scratch _ _ _ _) as [[k v]|] eqn:Hscan; [|done].
  apply scan_scratch_lowest in Hscan as [Hk _]. simpl.
  apply add_audit_record_consistent.
  by apply (set_volume_consistent _ _ v).
Qed.

Lemma cleanup_expired_reservations_consistent now s :
  index_consistent s →
  index_consistent (cleanup_expired_reservations now s).2.
Proof.
  intros Hs. unfold cleanup_expired_reservations. simpl.
  match goal with
  | |- index_consistent (if ?b then _ else _) => destruct b
  end; [apply add_audit_record_consistent|];
    (apply fmap_volumes_consistent; [|done]);
    intros v; by destruct (reservation_lapsed now v).
Qed.

Lemma process_expirations_consistent now dry_run s :
  index_consistent s →
  index_consistent (process_expirations now dry_run s).2.
Proof.
  intros Hs. unfold process_expirations. destruct dry_run; [done|].
  cbv zeta. cbn [snd].
  match goal with
  | |- index_consistent (if ?b then _ else _) => destruct b
  end; [apply add_audit_record_consistent|];
    (apply fmap_datasets_consistent;
     [intros d; unfold expire_dataset;
      by destruct (dataset_expiring now d)|]);
    (apply fmap_volumes_consistent; [|done]);
    intros v; unfold expire_volume; by destruct (volume_expiring now v).
Qed.

Lemma scratch_volume_consistent now volser s :
  index_consistent s → index_consistent (scratch_volume now volser s).2.
Proof.
  intros Hs. unfold scratch_volume.
  destruct (volumes_ s !! volser) as [v|] eqn:Hv; [|done].
  case_decide; [done|]. simpl.
  apply add_audit_record_consistent.
  pose proof (cascade_fields s (TapeVolume.datasets v))
    as (Hvol & Ho & Hp & Ht & _ & _ & _).
  destruct Hs as [Hso Hsp Hst Hsdo Hsdt].
  destruct (cascade_agrees s (TapeVolume.datasets v) Hsdo Hsdt) as [Hdo Hdt].
  apply (set_volume_consistent _ _ v); [|by rewrite Hvol|done..].
  constructor; [by rewrite Hvol, Ho|by rewrite Hvol, Hp|by rewrite Hvol, Ht
               |done..].
Qed.

Lemma remove_volume_tag_consistent now volser tag s :
  index_consistent s →
  index_consistent (remove_volume_tag now volser tag s).2.
Proof.
  intros Hs. unfold remove_volume_tag.
  destruct (volumes_ s !! volser) as [v|] eqn:Hv; [|done]. simpl.
  apply add_audit_record_consistent.
  destruct Hs as [Ho Hp Ht Hdo Hdt]. constructor; simpl; [| | |done..].
  - by apply (index_agrees_same_attrs _ _ _ _ v).
  - by apply (index_agrees_same_attrs _ _ _ _ v).
  - intros val key. rewrite find_remove, (Ht val key).
    destruct (decide (key = volser)) as [->|Hne].
    + rewrite lookup_insert_eq, Hv. simpl. split.
      * intros [[Hval [r [[= <-] Hin]]] Hnot]. split; [done|].
        eexists. split; [done|]. simpl. set_solver.
      * intros [Hval [r [[= <-] Hin]]]. simpl in Hin. split.
        -- split; [done|]. exists v. split; [done|]. set_solver.
        -- intros [-> _]. set_solver.
    + rewrite lookup_insert_ne by done. naive_solver.
Qed.

Lemma remove_dataset_tag_consistent name tag s :
  index_consistent s → index_consistent (remove_dataset_tag name tag s).2.
Proof.
  intros Hs. unfold remove_dataset_tag.
  destruct (datasets_ s !! name) as [d|] eqn:Hd; [|done]. simpl.
  destruct Hs as [Ho Hp Ht Hdo Hdt]. constructor; simpl; [done..| |].
  - by apply (index_agrees_same_attrs _ _ _ _ d).
  - intros val key. rewrite find_remove, (Hdt val key).
    destruct (decide (key = name)) as [->|Hne].
    + rewrite lookup_insert_eq, Hd. simpl. split.
      * intros [[Hval [r [[= <-] Hin]]] Hnot]. split; [done|].
        eexists. split; [done|]. simpl. set_solver.
      * intros [Hval [r [[= <-] Hin]]]. simpl in Hin. split.
        -- split; [done|]. exists d. split; [done|]. set_solver.
        -- intros [-> _]. set_solver.
    + rewrite lookup_insert_ne by done. naive_solver.
Qed.

Lemma move_volume_to_pool_consistent now volser target_pool s :
  index_consistent s →
  index_consistent (move_volume_to_pool now volser target_pool s).2.
Proof.
  intros Hs. unfold move_volume_to_pool.
  destruct (volumes_ s !! volser) as [v|] eqn:Hv; [|done]. simpl.
  apply add_audit_record_consistent.
  destruct Hs as [Ho Hp Ht Hdo Hdt]. constructor; simpl; [| | |done..].
  - by apply (index_agrees_same_attrs _ _ _ _ v).
  - intros val key. rewrite find_update, (Hp val key).
    unfold volume_pool.
    destruct (decide (key = volser)) as [->|Hne].
    + rewrite lookup_insert_eq, Hv. simpl. split.
      * intros [[[Hval [r [[= <-] Hin]]] Hnot]|(-> & _ & Hval)].
        -- apply elem_of_singleton in Hin. naive_solver.
        -- split; [done|]. eexists. split; [done|]. simpl. set_solver.
      * intros [Hval [r [[= <-] Hin]]]. simpl in Hin.
        apply elem_of_singleton in Hin. subst val. by right.
    + rewrite lookup_insert_ne by done. naive_solver.
  - by apply (index_agrees_same_attrs _ _ _ _ v).
Qed.

Lemma clone_volume_consistent now source_volser new_volser s :
  index_consistent s →
  index_consistent (clone_volume now source_volser new_volser s).2.
Proof.
  intros Hs. unfold clone_volume.
  destruct (negb _); [done|].
  destruct (volumes_ s !! source_volser) as [v|] eqn:Hv; [|done].
  case_decide as Hnew; [done|]. simpl.
  apply add_audit_record_consistent.
  assert (volumes_ s !! new_volser = None) as Hnone.
  { destruct (volumes_ s !! new_volser) eqn:?; [|done].
    destruct Hnew. by eexists. }
  destruct Hs as [Ho Hp Ht Hdo Hdt]. constructor; simpl; [| | |done..].
  - eapply index_agrees_insert; [done|]. rewrite Hnone. simpl.
    apply index_step_add.
  - eapply index_agrees_insert; [done|]. rewrite Hnone. simpl.
    apply index_step_add.
  - eapply index_agrees_insert; [done|]. rewrite Hnone. simpl.
    apply index_step_add_tags.
Qed.

End maintenance.

(** ** Rebuilding the indices *)

Section rebuild.

Import TMSSystem.

Context {V : Type}.
Implicit Types (es : list (string * V)) (idx : SecondaryIndex.t).

Lemma find_fold_add (f : V → string) es idx val k :
  k ∈ SecondaryIndex.find val
        (foldl (λ idx e, SecondaryIndex.add (f e.2) e.1 idx) idx es)
  ↔ k ∈ SecondaryIndex.find val idx
    ∨ (val ≠ "" ∧ ∃ r, (k, r) ∈ es ∧ f r = val).
Proof.
  revert idx. induction es as [|[k' r'] es IH]; intros idx; simpl.
  { split; [by left|]. intros [?|(_ & r & Hr & _)]; [done|].
    by apply elem_of_nil in Hr. }
  rewrite IH, find_add. simpl. split.
  - intros [[?|(-> & -> & ?)]|(? & r & ? & ?)].
    + by left.
    + right. split; [done|]. exists r'. split; [left|done].
    + right. split; [done|]. exists r. split; [by right|done].
  - intros [?|(Hval & r & Hr & Hf)]; [by left; left|].
    apply elem_of_cons in Hr as [[= -> ->]|Hr].
    + left. right. by subst val.
    + right. split; [done|]. by exists r.
Qed.

Lemma find_fold_add_tags (f : V → gset string) es idx val k :
  k ∈ SecondaryIndex.find val
        (foldl (λ idx e, add_tags (f e.2) e.1 idx) idx es)
  ↔ k ∈ SecondaryIndex.find val idx
    ∨ (val ≠ "" ∧ ∃ r, (k, r) ∈ es ∧ val ∈ f r).
Proof.
  revert idx. induction es as [|[k' r'] es IH]; intros idx; simpl.
  { split; [by left|]. intros [?|(_ & r & Hr & _)]; [done|].
    by apply elem_of_nil in Hr. }
  rewrite IH, (index_step_add_tags idx k' (f r') val k). split.
  - intros [[[? _]|(-> & ? & _ & ?)]|(? & r & ? & ?)].
    + by left.
    + right. split; [done|]. exists r'. split; [left|done].
    + right. split; [done|]. exists r. split; [by right|done].
  - intros [?|(Hval & r & Hr & Hf)].
    { left. left. split; [done|]. set_solver. }
    apply elem_of_cons in Hr as [[= -> ->]|Hr].
    + left. right. split_and!; [done..|set_solver|done].
    + right. split; [done|]. by exists r.
Qed.

(** An index filled from the entries of a map agrees with the map. *)
Lemma index_agrees_fold_add (f : V → string) (m : gmap string V) :
  index_agrees (λ r, {[f r]}) m
    (foldl (λ idx e, SecondaryIndex.add (f e.2) e.1 idx) ∅
       (sorted_entries m)).
Proof.
  intros val key. rewrite find_fold_add. unfold SecondaryIndex.find at 1.
  rewrite lookup_empty. simpl. split.
  - intros [?|(Hval & r & Hr%elem_of_sorted_entries & <-)]; [set_solver|].
    split; [done|]. exists r. split; [done|]. set_solver.
  - intros (Hval & r & Hr & Hin). right. split; [done|]. exists r.
    split; [by apply elem_of_sorted_entries|]. set_solver.
Qed.

Lemma index_agrees_fold_add_tags (f : V → gset string) (m : gmap string V) :
  index_agrees f m
    (foldl (λ idx e, add_tags (f e.2) e.1 idx) ∅ (sorted_entries m)).
Proof.
  intros val key. rewrite find_fold_add_tags. unfold SecondaryIndex.find at 1.
  rewrite lookup_empty. simpl. split.
  - intros [?|(Hval & r & Hr%elem_of_sorted_entries & ?)]; [set_solver|].
    split; [done|]. by exists r.
  - intros (Hval & r & Hr & Hin). right. split; [done|]. exists r.
    split; [by apply elem_of_sorted_entries|done].
Qed.

End rebuild.

Section rebuild_state.

Import TMSSystem.

Lemma index_volume_fold es s :
  let s' := foldl index_volume s es in
  volumes_ s' = volumes_ s
  ∧ datasets_ s' = datasets_ s
  ∧ dataset_owner_index_ s' = dataset_owner_index_ s
  ∧ dataset_tag_index_ s' = dataset_tag_index_ s
  ∧ audit_log_ s' = audit_log_ s
  ∧ current_user_ s' = current_user_ s
  ∧ volume_owner_index_ s'
    = foldl (λ idx e, SecondaryIndex.add (TapeVolume.owner e.2) e.1 idx)
        (volume_owner_index_ s) es
  ∧ volume_pool_index_ s'
    = foldl (λ idx e, SecondaryIndex.add (TapeVolume.pool e.2) e.1 idx)
        (volume_pool_index_ s) es
  ∧ volume_tag_index_ s'
    = foldl (λ idx e, add_tags (TapeVolume.tags e.2) e.1 idx)
        (volume_tag_index_ s) es.
Proof.
  revert s. induction es as [|e es IH]; intros s; [done|].
  cbn [foldl]. destruct (IH (index_volume s e))
    as (-> & -> & -> & -> & -> & -> & -> & -> & ->).
  done.
Qed.

Lemma index_dataset_fold es s :
  let s' := foldl index_dataset s es in
  volumes_ s' = volumes_ s
  ∧ datasets_ s' = datasets_ s
  ∧ volume_owner_index_ s' = volume_owner_index_ s
  ∧ volume_pool_index_ s' = volume_pool_index_ s
  ∧ volume_tag_index_ s' = volume_tag_index_ s
  ∧ audit_log_ s' = audit_log_ s
  ∧ current_user_ s' = current_user_ s
  ∧ dataset_owner_index_ s'
    = foldl (λ idx e, SecondaryIndex.add (Dataset.owner e.2) e.1 idx)
        (dataset_owner_index_ s) es
  ∧ dataset_tag_index_ s'
    = foldl (λ idx e, add_tags (Dataset.tags e.2) e.1 idx)
        (dataset_tag_index_ s) es.
Proof.
  revert s. induction es as [|e es IH]; intros s; [done|].
  cbn [foldl]. destruct (IH (index_dataset s e))
    as (-> & -> & -> & -> & -> & -> & -> & -> & ->).
  done.
Qed.

Lemma rebuild_indices_fields s :
  let s' := rebuild_indices s in
  volumes_ s' = volumes_ s
  ∧ datasets_ s' = datasets_ s
  ∧ audit_log_ s' = audit_log_ s
  ∧ current_user_ s' = current_user_ s
  ∧ volume_owner_index_ s'
    = foldl (λ idx e, SecondaryIndex.add (TapeVolume.owner e.2) e.1 idx) ∅
        (sorted_entries (volumes_ s))
  ∧ volume_pool_index_ s'
    = foldl (λ idx e, SecondaryIndex.add (TapeVolume.pool e.2) e.1 idx) ∅
        (sorted_entries (volumes_ s))
  ∧ volume_tag_index_ s'
    = foldl (λ idx e, add_tags (TapeVolume.tags e.2) e.1 idx) ∅
        (sorted_entries (volumes_ s))
  ∧ dataset_owner_index_ s'
    = foldl (λ idx e, SecondaryIndex.add (Dataset.owner e.2) e.1 idx) ∅
        (sorted_entries (datasets_ s))
  ∧ dataset_tag_index_ s'
    = foldl (λ idx e, add_tags (Dataset.tags e.2) e.1 idx) ∅
        (sorted_entries (datasets_ s)).
Proof.
  unfold rebuild_indices. cbv zeta.
  match goal with
  | |- context [foldl index_dataset ?s1 ?es] =>
      destruct (index_dataset_fold es s1)
        as (-> & -> & -> & -> & -> & -> & -> & -> & ->)
  end.
  match goal with
  | |- context [foldl index_volume ?s0 ?es] =>
      destruct (index_volume_fold es s0)
        as (-> & -> & -> & -> & -> & -> & -> & -> & ->)
  end.
  done.
Qed.

Lemma rebuild_indices_consistent s : index_consistent (rebuild_indices s).
Proof.
  destruct (rebuild_indices_fields s)
    as (Hv & Hd & _ & _ & Hvo & Hvp & Hvt & Hdo & Hdt).
  constructor; rewrite ?Hv, ?Hd.
  - rewrite Hvo. apply (index_agrees_fold_add TapeVolume.owner).
  - rewrite Hvp. apply (index_agrees_fold_add TapeVolume.pool).
  - rewrite Hvt. apply (index_agrees_fold_add_tags TapeVolume.tags).
  - rewrite Hdo. apply (index_agrees_fold_add Dataset.owner).
  - rewrite Hdt. apply (index_agrees_fold_add_tags Dataset.tags).
Qed.

End rebuild_state.

Lemma apply_maintenance_consistent s op :
  index_consistent s → index_consistent (apply_maintenance s op).
Proof.
  intros Hs. destruct op; simpl.
  - by apply remove_volume_tag_consistent.
  - by apply remove_dataset_tag_consistent.
  - by apply move_volume_to_pool_consistent.
  - by apply clone_volume_consistent.
  - by apply reserve_volume_consistent.
  - by apply release_volume_consistent.
  - by apply extend_reservation_consistent.
  - by apply cleanup_expired_reservations_consistent.
  - by apply scratch_volume_consistent.
  - by apply set_volume_offline_consistent.
  - by apply set_volume_online_consistent.
  - by apply allocate_scratch_volume_consistent.
  - by apply process_expirations_consistent.
  - apply rebuild_indices_consistent.
Qed.

Lemma any_run_consistent cfg (ops : list (CatalogOp + MaintenanceOp)) s :
  index_consistent s → index_consistent (foldl (apply_any cfg) s ops).
Proof.
  revert s. induction ops as [|[op|op] ops IH]; intros s Hs; [done|..];
    simpl; apply IH.
  - by apply apply_op_consistent.
  - by apply apply_maintenance_consistent.
Qed.

(** An agreeing index lists nothing under the empty value. *)
Lemma find_empty_value {V} (attrs : V → gset string) (m : gmap string V) idx :
  index_agrees attrs m idx → SecondaryIndex.find "" idx = ∅.
Proof.
  intros Hagree. apply elem_of_equiv_empty_L. intros k Hk.
  by apply Hagree in Hk as [? _].
Qed.

(** X10: [rebuild_indices] leaves both primary maps as they are and makes
    the five indices agree with them, whatever the indices held before. *)
Theorem rebuild_indices_restores (s : TMSSystem.t) :
  let s' := TMSSystem.rebuild_indices s in
  TMSSystem.volumes_ s' = TMSSystem.volumes_ s
  ∧ TMSSystem.datasets_ s' = TMSSystem.datasets_ s
  ∧ index_consistent s'.
Proof.
  destruct (rebuild_indices_fields s) as (Hv & Hd & _).
  split_and!; [done..|]. apply rebuild_indices_consistent.
Qed.

(** X11: the five indices agree with the primary maps after any sequence,
    on a new engine, of these twenty operations: [add_volume],
    [update_volume], [delete_volume], [add_dataset], [update_dataset],
    [delete_dataset], [remove_volume_tag], [remove_dataset_tag],
    [move_volume_to_pool], [clone_volume], [reserve_volume],
    [release_volume], [extend_reservation], [cleanup_expired_reservations],
    [scratch_volume], [set_volume_offline], [set_volume_online],
    [allocate_scratch_volume], [process_expirations] and [rebuild_indices].
    The statement is about these operations only; the other mutators of
    the engine ([restore_from_snapshot], which overwrites the tags of a
    record without touching the tag index, [add_volume_tag],
    [add_dataset_tag], [rename_pool], [merge_pools], [load_catalog] and
    the remaining ones) are outside it. *)
Theorem indices_agree_after_listed_operations (cfg : Configuration)
    (ops : list (CatalogOp + MaintenanceOp)) :
  index_consistent (foldl (apply_any cfg) TMSSystem.empty ops).
Proof. apply any_run_consistent, index_consistent_empty. Qed.

(** X12: after any sequence, on a new engine, of the twenty operations of
    [CatalogOp] and [MaintenanceOp] ([add_volume], [update_volume],
    [delete_volume], [add_dataset], [update_dataset], [delete_dataset],
    [remove_volume_tag], [remove_dataset_tag], [move_volume_to_pool],
    [clone_volume], [reserve_volume], [release_volume],
    [extend_reservation], [cleanup_expired_reservations], [scratch_volume],
    [set_volume_offline], [set_volume_online], [allocate_scratch_volume],
    [process_expirations], [rebuild_indices]), a lookup through an index
    for a non-empty owner, pool or tag returns exactly the records a scan
    of the whole catalog selects, in the same order; a lookup of the empty
    owner or pool returns nothing.  Sequences that contain another mutator
    are outside the statement: after [restore_from_snapshot], which
    overwrites the tags of a record without touching the tag index,
    [find_volumes_by_tag] reads an index that no longer matches the
    records. *)
Theorem indexed_lookup_after_listed_operations (cfg : Configuration)
    (ops : list (CatalogOp + MaintenanceOp)) :
  let s := foldl (apply_any cfg) TMSSystem.empty ops in
  (∀ owner, owner ≠ "" →
     TMSSystem.get_volumes_by_owner owner s
     = filter (λ v, TapeVolume.owner v = owner)
         (TMSSystem.list_volumes None s))
  ∧ (∀ pool, pool ≠ "" →
       TMSSystem.get_volumes_by_pool pool s
       = filter (λ v, TapeVolume.pool v = pool)
           (TMSSystem.list_volumes None s))
  ∧ (∀ tag, tag ≠ "" →
       TMSSystem.find_volumes_by_tag tag s
       = filter (λ v, tag ∈ TapeVolume.tags v)
           (TMSSystem.list_volumes None s))
  ∧ (∀ owner, owner ≠ "" →
       TMSSystem.get_datasets_by_owner owner s
       = filter (λ d, Dataset.owner d = owner)
           (TMSSystem.list_datasets None s))
  ∧ (∀ tag, tag ≠ "" →
       TMSSystem.find_datasets_by_tag tag s
       = filter (λ d, tag ∈ Dataset.tags d)
           (TMSSystem.list_datasets None s))
  ∧ TMSSystem.get_volumes_by_owner "" s = []
  ∧ TMSSystem.get_volumes_by_pool "" s = []
  ∧ TMSSystem.get_datasets_by_owner "" s = [].
Proof.
  intros s.
  destruct (any_run_consistent cfg ops TMSSystem.empty index_consistent_empty)
    as [Ho Hp Ht Hdo Hdt]. fold s in Ho, Hp, Ht, Hdo, Hdt.
  unfold TMSSystem.list_volumes, TMSSystem.list_datasets. simpl.
  rewrite !list_all_entries.
  split_and!; [intros val Hval..| | |].
  - unfold TMSSystem.get_volumes_by_owner.
    rewrite (collect_is_scan volume_owner) by done.
    rewrite !filter_snd. f_equal. apply filter_entries_ext.
    intros e _. unfold volume_owner. set_solver.
  - unfold TMSSystem.get_volumes_by_pool.
    rewrite (collect_is_scan volume_pool) by done.
    rewrite !filter_snd. f_equal. apply filter_entries_ext.
    intros e _. unfold volume_pool. set_solver.
  - unfold TMSSystem.find_volumes_by_tag.
    by rewrite (collect_is_scan TapeVolume.tags).
  - unfold TMSSystem.get_datasets_by_owner.
    rewrite (collect_is_scan dataset_owner) by done.
    rewrite !filter_snd. f_equal. apply filter_entries_ext.
    intros e _. unfold dataset_owner. set_solver.
  - unfold TMSSystem.find_datasets_by_tag.
    by rewrite (collect_is_scan Dataset.tags).
  - unfold TMSSystem.get_volumes_by_owner.
    by rewrite (find_empty_value _ _ _ Ho).
  - unfold TMSSystem.get_volumes_by_pool.
    by rewrite (find_empty_value _ _ _ Hp).
  - unfold TMSSystem.get_datasets_by_owner.
    by rewrite (find_empty_value _ _ _ Hdo).
Qed.

(** ** Tags, pools and clones *)



(** X15: [clone_volume] does not consult the volume limit.  On a catalog
    that is full, where [add_volume] refuses any volume, cloning a
    catalogued volume to a valid unused serial succeeds and the catalog
    grows by one.  The clone is SCRATCH, empty and unreserved and has the
    owner, pool, tags, density and capacity of its source. *)
Theorem clone_volume_ignores_limit (cfg : Configuration) (now : Z)
    (source_volser new_volser : string) (s : TMSSystem.t)
    (source vol : TapeVolume.t) :
  validate_volser new_volser = true →
  TMSSystem.volumes_ s !! source_volser = Some source →
  TMSSystem.volumes_ s !! new_volser = None →
  TapeVolume.volser vol = new_volser →
  (get_max_volumes cfg ≤ N.of_nat (size (TMSSystem.volumes_ s)))%N →
  error_code (TMSSystem.add_volume cfg now vol s).1
  = Some VOLUME_LIMIT_REACHED
  ∧ ∃ cloned s',
      TMSSystem.clone_volume now source_volser new_volser s = (ok cloned, s')
      ∧ TMSSystem.volumes_ s' = <[new_volser := cloned]> (TMSSystem.volumes_ s)
      ∧ size (TMSSystem.volumes_ s') = S (size (TMSSystem.volumes_ s))
      ∧ TapeVolume.volser cloned = new_volser
      ∧ TapeVolume.status cloned = SCRATCH
      ∧ TapeVolume.datasets cloned = []
      ∧ TapeVolume.used_bytes cloned = 0%N
      ∧ TapeVolume.reserved_by cloned = ""
      ∧ TapeVolume.owner cloned = TapeVolume.owner source
      ∧ TapeVolume.pool cloned = TapeVolume.pool source
      ∧ TapeVolume.tags cloned = TapeVolume.tags source
      ∧ TapeVolume.density cloned = TapeVolume.density source
      ∧ TapeVolume.capacity_bytes cloned = TapeVolume.capacity_bytes source.
Proof.
  intros Hvalid Hsource Hnew Hvol Hfull. split.
  - unfold TMSSystem.add_volume. rewrite Hvol, Hvalid. simpl.
    by destruct (N.leb_spec (get_max_volumes cfg)
                   (N.of_nat (size (TMSSystem.volumes_ s)))); [|lia].
  - unfold TMSSystem.clone_volume. rewrite Hvalid, Hsource. simpl.
    rewrite decide_False by (rewrite Hnew; by intros [? ?]).
    eexists _, _. split; [reflexivity|]. simpl.
    split_and!; try reflexivity. by rewrite map_size_insert_None.
Qed.

Lemma clone_volume_ignores_limit_witness :
  error_code
    (TMSSystem.add_volume one_volume_limit 9 (TapeVolume.default "V00002")
       one_volume).1
  = Some VOLUME_LIMIT_REACHED
  ∧ ∃ cloned s',
      TMSSystem.clone_volume 9 "V00001" "V00002" one_volume = (ok cloned, s')
      ∧ TMSSystem.volumes_ s'
        = <["V00002" := cloned]> (TMSSystem.volumes_ one_volume)
      ∧ size (TMSSystem.volumes_ s') = S (size (TMSSystem.volumes_ one_volume))
      ∧ TapeVolume.volser cloned = "V00002"
      ∧ TapeVolume.status cloned = SCRATCH
      ∧ TapeVolume.datasets cloned = []
      ∧ TapeVolume.used_bytes cloned = 0%N
      ∧ TapeVolume.reserved_by cloned = ""
      ∧ TapeVolume.owner cloned
        = TapeVolume.owner (TMSSystem.prepare_volume 5
                              (TapeVolume.default "V00001"))
      ∧ TapeVolume.pool cloned
        = TapeVolume.pool (TMSSystem.prepare_volume 5
                             (TapeVolume.default "V00001"))
      ∧ TapeVolume.tags cloned
        = TapeVolume.tags (TMSSystem.prepare_volume 5
                             (TapeVolume.default "V00001"))
      ∧ TapeVolume.density cloned
        = TapeVolume.density (TMSSystem.prepare_volume 5
                                (TapeVolume.default "V00001"))
      ∧ TapeVolume.capacity_bytes cloned
        = TapeVolume.capacity_bytes
            (TMSSystem.prepare_volume 5 (TapeVolume.default "V00001")).
Proof.
  apply (clone_volume_ignores_limit one_volume_limit 9 "V00001" "V00002"
           one_volume
           (TMSSystem.prepare_volume 5 (TapeVolume.default "V00001"))
           (TapeVolume.default "V00002")).
  - reflexivity.
  - vm_compute. reflexivity.
  - vm_compute. reflexivity.
  - reflexivity.
  - vm_compute. discriminate.
Defined.

(** ** Tape operations *)

(** X16: [scratch_volume] refuses a volume that is not catalogued or is
    MOUNTED and then changes nothing.  Otherwise it succeeds, also for a
    reserved volume: the record becomes SCRATCH with no datasets and no
    bytes used and keeps its reservation, every dataset named in its list
    is gone from the catalog, and no other dataset or volume changes. *)
Theorem scratch_volume_resets (now : Z) (volser : string) (s : TMSSystem.t) :
  let r := TMSSystem.scratch_volume now volser s in
  match TMSSystem.volumes_ s !! volser with
  | None => r = (fail VOLUME_NOT_FOUND ("Volume not found: " +:+ volser), s)
  | Some v =>
      if decide (TapeVolume.status v = MOUNTED)
      then r = (fail VOLUME_MOUNTED "Cannot scratch mounted volume", s)
      else
        r.1 = ok ()
        ∧ (∃ v', TMSSystem.volumes_ r.2 = <[volser := v']> (TMSSystem.volumes_ s)
                 ∧ TapeVolume.status v' = SCRATCH
                 ∧ TapeVolume.datasets v' = []
                 ∧ TapeVolume.used_bytes v' = 0%N
                 ∧ TapeVolume.reserved_by v' = TapeVolume.reserved_by v
                 ∧ TapeVolume.reservation_expires v'
                   = TapeVolume.reservation_expires v
                 ∧ TapeVolume.owner v' = TapeVolume.owner v
                 ∧ TapeVolume.pool v' = TapeVolume.pool v
                 ∧ TapeVolume.tags v' = TapeVolume.tags v)
        ∧ (∀ n, TMSSystem.datasets_ r.2 !! n
                = if decide (n ∈ TapeVolume.datasets v) then None
                  else TMSSystem.datasets_ s !! n)
  end.
Proof.
  intros r. subst r. unfold TMSSystem.scratch_volume.
  destruct (TMSSystem.volumes_ s !! volser) as [v|] eqn:Hv; [|done].
  case_decide; [done|]. simpl.
  pose proof (cascade_fields s (TapeVolume.datasets v))
    as (Hvol & _ & _ & _ & _ & _ & Hds).
  split_and!; [done| |].
  - eexists. rewrite Hvol. split; [reflexivity|]. done.
  - intros n. rewrite Hds. apply lookup_delete_all.
Qed.



(** ** Reservations: extension, round trip, sweep *)

(** ** 64-bit arithmetic of the reservation expiry *)

Lemma int64_wrap_representable (z : Z) :
  int64_representable z → int64_wrap z = z.
Proof.
  unfold int64_representable, int64_wrap. intros Hz.
  rewrite Z.mod_small by lia. lia.
Qed.

Lemma int64_wrap_range (z : Z) : int64_representable (int64_wrap z).
Proof.
  unfold int64_representable, int64_wrap.
  pose proof (Z.mod_pos_bound (z + 2 ^ 63) (2 ^ 64)). lia.
Qed.

(** Where neither the conversion to ticks nor the sum leaves the 64-bit
    range, the expiry is the mathematical sum. *)
Lemma time_point_add_exact (tp secs : Z) :
  int64_representable (seconds secs) →
  int64_representable (tp + seconds secs) →
  time_point_add tp (to_ticks secs) = (tp + seconds secs)%Z.
Proof.
  intros Hs Hsum. unfold time_point_add, to_ticks.
  by rewrite (int64_wrap_representable (seconds secs)),
    int64_wrap_representable.
Qed.

(** A duration whose tick count does not fit 64 bits wraps: a reservation
    for 9223372037 seconds made at tick 10 expires in the past. *)
Example time_point_add_wraps :
  time_point_add 10 (to_ticks 9223372037) = (-9223372036709551606)%Z.
Proof. vm_compute. reflexivity. Qed.

(** X18: [extend_reservation] succeeds exactly for the holder of a
    reservation that has not lapsed.  The stored expiry is then the old
    one plus the given seconds, computed in 64-bit ticks: it is the exact
    sum whenever the tick count of the seconds and the sum are
    representable, and the wrapped value otherwise; the holder and every
    other field of the record, every other record, the datasets and the
    five indices are unchanged.  A failed call changes nothing; in
    particular a lapsed reservation cannot be extended, not even by its
    holder, and the call is refused with ACCESS_DENIED. *)
Theorem extend_reservation_by_holder (now : Z) (volser user : string)
    (additional_time : Z) (s : TMSSystem.t) :
  let r := TMSSystem.extend_reservation now volser user additional_time s in
  (is_success r.1 = true
   ↔ ∃ v, TMSSystem.volumes_ s !! volser = Some v
          ∧ TapeVolume.is_reserved now v = true
          ∧ TapeVolume.reserved_by v = user)
  ∧ (is_success r.1 = false → r.2 = s)
  ∧ (∀ v, TMSSystem.volumes_ s !! volser = Some v →
       (is_success r.1 = true →
        TMSSystem.volumes_ r.2
        = <[volser := TapeVolume.set_reservation_expires
                        (time_point_add (TapeVolume.reservation_expires v)
                           (to_ticks additional_time)) v]>
            (TMSSystem.volumes_ s)
        ∧ (∃ v',
             TMSSystem.volumes_ r.2 !! volser = Some v'
             ∧ TapeVolume.reservation_expires v'
               = int64_wrap (TapeVolume.reservation_expires v
                             + int64_wrap (additional_time * 1000000000))
             ∧ (int64_representable (additional_time * 1000000000) →
                int64_representable
                  (TapeVolume.reservation_expires v
                   + additional_time * 1000000000) →
                TapeVolume.reservation_expires v'
                = (TapeVolume.reservation_expires v
                   + additional_time * 1000000000)%Z)
             ∧ TapeVolume.reserved_by v' = user
             ∧ TapeVolume.volser v' = TapeVolume.volser v
             ∧ TapeVolume.status v' = TapeVolume.status v
             ∧ TapeVolume.density v' = TapeVolume.density v
             ∧ TapeVolume.pool v' = TapeVolume.pool v
             ∧ TapeVolume.owner v' = TapeVolume.owner v
             ∧ TapeVolume.creation_date v' = TapeVolume.creation_date v
             ∧ TapeVolume.expiration_date v' = TapeVolume.expiration_date v
             ∧ TapeVolume.last_used v' = TapeVolume.last_used v
             ∧ TapeVolume.capacity_bytes v' = TapeVolume.capacity_bytes v
             ∧ TapeVolume.used_bytes v' = TapeVolume.used_bytes v
             ∧ TapeVolume.datasets v' = TapeVolume.datasets v
             ∧ TapeVolume.tags v' = TapeVolume.tags v
             ∧ TapeVolume.last_health_check v'
               = TapeVolume.last_health_check v)
        ∧ (∀ k, k ≠ volser →
             TMSSystem.volumes_ r.2 !! k = TMSSystem.volumes_ s !! k)
        ∧ TMSSystem.datasets_ r.2 = TMSSystem.datasets_ s
        ∧ TMSSystem.volume_owner_index_ r.2 = TMSSystem.volume_owner_index_ s
        ∧ TMSSystem.volume_pool_index_ r.2 = TMSSystem.volume_pool_index_ s
        ∧ TMSSystem.volume_tag_index_ r.2 = TMSSystem.volume_tag_index_ s
        ∧ TMSSystem.dataset_owner_index_ r.2
          = TMSSystem.dataset_owner_index_ s
        ∧ TMSSystem.dataset_tag_index_ r.2 = TMSSystem.dataset_tag_index_ s)
       ∧ (is_success r.1 = false → error_code r.1 = Some ACCESS_DENIED)
       ∧ ((TapeVolume.reservation_expires v ≤ now)%Z →
          error_code r.1 = Some ACCESS_DENIED)).
Proof.
  intros r. subst r. unfold TMSSystem.extend_reservation.
  destruct (TMSSystem.volumes_ s !! volser) as [v|] eqn:Hv; simpl.
  2:{ split_and!; [|done..]. split; [done|]. by intros (? & ? & _). }
  destruct (TapeVolume.is_reserved now v) eqn:Hres; simpl.
  - destruct (bool_decide (TapeVolume.reserved_by v = user)) eqn:Huser; simpl.
    + apply bool_decide_eq_true in Huser. split_and!; [|done|].
      * split; [|done]. intros _. by exists v.
      * intros v' [= <-]. split_and!; [|done|].
        -- intros _. split_and!; try done.
           ++ eexists. split; [apply lookup_insert_eq|].
              split_and!; try done.
              intros Hs Hsum.
              apply (time_point_add_exact _ additional_time Hs Hsum).
           ++ intros k Hk. by apply lookup_insert_ne.
        -- intros Hexp. apply is_reserved_true in Hres. lia.
    + apply bool_decide_eq_false in Huser. split_and!; [|done|].
      * split; [done|]. intros (v' & [= <-] & _ & ?). done.
      * intros v' [= <-]. done.
  - split_and!; [|done|].
    + split; [done|]. intros (v' & [= <-] & ? & _). congruence.
    + intros v' [= <-]. done.
Qed.

(** On the reservation example, alice, who holds V1 until tick
    3600000000010, extends by a minute at tick 20. *)
Example extend_reservation_one_minute :
  let r := TMSSystem.extend_reservation 20 "V1" "alice" 60
             reservation_scenario in
  r.1 = ok ()
  ∧ TapeVolume.reservation_expires <$> TMSSystem.volumes_ r.2 !! "V1"
    = Some 3660000000010%Z
  ∧ TapeVolume.reserved_by <$> TMSSystem.volumes_ r.2 !! "V1" = Some "alice".
Proof. vm_compute. by split_and!. Qed.

(** X19: reserving a volume that is not reserved at that instant (it has
    no holder, or its reservation has lapsed) for a non-empty user, and
    releasing it by the same user before the new expiry, both succeed.
    Afterwards the record has no holder and a cleared expiry and is
    otherwise as it was; every other record, every dataset and the five
    indices are unchanged.  The catalog is given back exactly as it was if
    and only if the record had no holder and a cleared expiry to begin
    with: a lapsed reservation is wiped, not restored.  The expiry the
    release is measured against is the one [reserve_volume] stores, in
    64-bit ticks. *)
Theorem reserve_release_round_trip (now1 now2 duration : Z)
    (volser user : string) (s : TMSSystem.t) (v : TapeVolume.t) :
  TMSSystem.volumes_ s !! volser = Some v →
  TapeVolume.is_reserved now1 v = false →
  user ≠ "" →
  (now2 < int64_wrap (now1 + int64_wrap (duration * 1000000000)))%Z →
  ∃ s1 s2,
    TMSSystem.reserve_volume now1 volser user duration s = (ok (), s1)
    ∧ TMSSystem.release_volume now2 volser user s1 = (ok (), s2)
    ∧ TMSSystem.volumes_ s2
      = <[volser := TapeVolume.set_reservation_expires 0
                      (TapeVolume.set_reserved_by "" v)]>
          (TMSSystem.volumes_ s)
    ∧ (∃ v',
         TMSSystem.volumes_ s2 !! volser = Some v'
         ∧ TapeVolume.reserved_by v' = ""
         ∧ TapeVolume.reservation_expires v' = 0%Z
         ∧ TapeVolume.volser v' = TapeVolume.volser v
         ∧ TapeVolume.status v' = TapeVolume.status v
         ∧ TapeVolume.density v' = TapeVolume.density v
         ∧ TapeVolume.pool v' = TapeVolume.pool v
         ∧ TapeVolume.owner v' = TapeVolume.owner v
         ∧ TapeVolume.creation_date v' = TapeVolume.creation_date v
         ∧ TapeVolume.expiration_date v' = TapeVolume.expiration_date v
         ∧ TapeVolume.last_used v' = TapeVolume.last_used v
         ∧ TapeVolume.capacity_bytes v' = TapeVolume.capacity_bytes v
         ∧ TapeVolume.used_bytes v' = TapeVolume.used_bytes v
         ∧ TapeVolume.datasets v' = TapeVolume.datasets v
         ∧ TapeVolume.tags v' = TapeVolume.tags v
         ∧ TapeVolume.last_health_check v' = TapeVolume.last_health_check v)
    ∧ (∀ k, k ≠ volser →
         TMSSystem.volumes_ s2 !! k = TMSSystem.volumes_ s !! k)
    ∧ (TMSSystem.volumes_ s2 = TMSSystem.volumes_ s
       ↔ TapeVolume.reserved_by v = ""
         ∧ TapeVolume.reservation_expires v = 0%Z)
    ∧ TMSSystem.datasets_ s2 = TMSSystem.datasets_ s
    ∧ TMSSystem.volume_owner_index_ s2 = TMSSystem.volume_owner_index_ s
    ∧ TMSSystem.volume_pool_index_ s2 = TMSSystem.volume_pool_index_ s
    ∧ TMSSystem.volume_tag_index_ s2 = TMSSystem.volume_tag_index_ s
    ∧ TMSSystem.dataset_owner_index_ s2 = TMSSystem.dataset_owner_index_ s
    ∧ TMSSystem.dataset_tag_index_ s2 = TMSSystem.dataset_tag_index_ s.
Proof.
  intros Hv Hfree Huser Hnow.
  unfold TMSSystem.reserve_volume. rewrite Hv, Hfree.
  simpl. eexists _, _. split; [reflexivity|].
  unfold TMSSystem.release_volume. simpl. rewrite lookup_insert_eq.
  assert (TapeVolume.is_reserved now2
            (TapeVolume.set_reservation_expires
               (time_point_add now1 (to_ticks duration))
               (TapeVolume.set_reserved_by user v)) = true) as ->.
  { apply is_reserved_true. done. }
  simpl. rewrite bool_decide_eq_true_2 by done. simpl.
  split; [reflexivity|]. simpl. rewrite insert_insert_eq.
  split_and!; try reflexivity.
  - eexists. split; [apply lookup_insert_eq|]. by split_and!.
  - intros k Hk. by apply lookup_insert_ne.
  - split.
    + intros Heq. apply (f_equal (λ m, m !! volser)) in Heq.
      rewrite lookup_insert_eq, Hv in Heq. injection Heq as Heq.
      split.
      * by apply (f_equal TapeVolume.reserved_by) in Heq.
      * by apply (f_equal TapeVolume.reservation_expires) in Heq.
    + intros [Hby Hexp]. apply insert_id. rewrite Hv. f_equal.
      destruct v. simpl in *. by subst.
Qed.

(** At tick 10^13 alice's reservation of V1 has lapsed: bob reserves and
    releases the volume, and alice's lapsed reservation is gone. *)
Lemma reserve_release_round_trip_witness :
  ∃ s1 s2 v v',
    TMSSystem.volumes_ reservation_scenario !! "V1" = Some v
    ∧ TapeVolume.reserved_by v = "alice"
    ∧ TMSSystem.reserve_volume 10000000000000 "V1" "bob" 60
        reservation_scenario = (ok (), s1)
    ∧ TMSSystem.release_volume 10000000000001 "V1" "bob" s1 = (ok (), s2)
    ∧ TMSSystem.volumes_ s2 !! "V1" = Some v'
    ∧ TapeVolume.reserved_by v' = ""
    ∧ TapeVolume.reservation_expires v' = 0%Z
    ∧ TMSSystem.datasets_ s2 = TMSSystem.datasets_ reservation_scenario.
Proof.
  destruct (TMSSystem.volumes_ reservation_scenario !! "V1") as [v|] eqn:Hv;
    [|vm_compute in Hv; discriminate].
  assert (TapeVolume.reserved_by v = "alice") as Hby.
  { vm_compute in Hv. by injection Hv as <-. }
  destruct (reserve_release_round_trip 10000000000000 10000000000001 60
              "V1" "bob" reservation_scenario v)
    as (s1 & s2 & H1 & H2 & _ & (v' & Hv' & Hby' & Hexp' & _) & _ & _ & Hd & _).
  - exact Hv.
  - vm_compute in Hv. injection Hv as <-. vm_compute. reflexivity.
  - discriminate.
  - vm_compute. reflexivity.
  - exists s1, s2, v, v'. by split_and!.
Defined.

(** ** Traversal of a map whose records were rewritten in place *)

Section rewritten.

Context {V : Type}.
Implicit Types (m : gmap string V) (es : list (string * V)) (f : V → V).

Lemma filter_none {A} (P : A → Prop) `{!∀ x, Decision (P x)} (l : list A) :
  Forall (λ x, ¬ P x) l → filter P l = [].
Proof.
  induction 1 as [|x l Hx _ IH]; [done|].
  by rewrite filter_cons, decide_False, IH.
Qed.

Lemma StronglySorted_rewritten f es :
  StronglySorted entry_le es →
  StronglySorted entry_le (prod_map id f <$> es).
Proof.
  induction 1 as [|e es _ IH He]; [constructor|].
  rewrite fmap_cons. constructor; [done|].
  apply Forall_fmap. eapply Forall_impl; [done|]. by intros [? ?].
Qed.

(** A loop that rewrites the records of a map visits the same keys, in the
    same order, as a loop over the map before it. *)
Lemma sorted_entries_fmap f m :
  sorted_entries (f <$> m) = prod_map id f <$> sorted_entries m.
Proof.
  apply (StronglySorted_unique_strong entry_le).
  - intros [k1 v1] [k2 v2] H1 H2 Hle1 Hle2. unfold entry_le in *. simpl in *.
    assert (k1 = k2) as <- by (by apply (anti_symm String.le)).
    apply elem_of_sorted_entries in H1.
    apply list_elem_of_fmap in H2 as [[k v] [[= -> ->] Hv]].
    apply elem_of_sorted_entries in Hv.
    rewrite lookup_fmap, Hv in H1. simpl in H1. congruence.
  - apply sorted_entries_sorted.
  - apply StronglySorted_rewritten, sorted_entries_sorted.
  - rewrite sorted_entries_perm, map_to_list_fmap.
    by rewrite (sorted_entries_perm m).
Qed.

Lemma fmap_idempotent f m : (∀ v, f (f v) = f v) → f <$> (f <$> m) = f <$> m.
Proof.
  intros Hf. rewrite <- map_fmap_compose. apply map_fmap_ext.
  intros k v _. apply Hf.
Qed.

End rewritten.

(** ** The sweep of lapsed reservations *)

Section sweep.

Import TMSSystem.

Lemma set_volumes_same s : set_volumes (volumes_ s) s = s.
Proof. by destruct s. Qed.

Lemma set_datasets_same s : set_datasets (datasets_ s) s = s.
Proof. by destruct s. Qed.

Lemma cleanup_expired_reservations_volumes now s :
  volumes_ (cleanup_expired_reservations now s).2 = swept now <$> volumes_ s.
Proof.
  unfold cleanup_expired_reservations. simpl. by destruct (_ <? _)%N.
Qed.

Lemma swept_not_lapsed now v : reservation_lapsed now (swept now v) = false.
Proof.
  unfold swept. destruct (reservation_lapsed now v) eqn:Hv; [|done].
  reflexivity.
Qed.

Lemma swept_reserved now v :
  TapeVolume.is_reserved now v = true → swept now v = v.
Proof.
  intros [Hby Hexp]%is_reserved_true. unfold swept, TMSSystem.reservation_lapsed.
  rewrite (bool_decide_eq_false_2 (_ ≤ _)%Z) by lia.
  by rewrite andb_false_r.
Qed.

Lemma swept_is_reserved now v :
  TapeVolume.is_reserved now (swept now v) = TapeVolume.is_reserved now v.
Proof.
  destruct (TapeVolume.is_reserved now v) eqn:Hres.
  { by rewrite swept_reserved. }
  unfold swept. destruct (reservation_lapsed now v); [reflexivity|done].
Qed.

End sweep.

(** X20: a second sweep of lapsed reservations at the same instant finds
    nothing and changes nothing, the audit log included, and the sweep does
    not change which volumes [list_reserved_volumes] reports. *)
Theorem cleanup_expired_reservations_idempotent (now : Z) (s : TMSSystem.t) :
  let r := TMSSystem.cleanup_expired_reservations now s in
  TMSSystem.cleanup_expired_reservations now r.2 = (0%N, r.2)
  ∧ TMSSystem.list_reserved_volumes now r.2
    = TMSSystem.list_reserved_volumes now s.
Proof.
  intros r.
  pose proof (cleanup_expired_reservations_volumes now s) as Hvol.
  fold r in Hvol. split.
  - unfold TMSSystem.cleanup_expired_reservations at 1.
    rewrite filter_none.
    2:{ apply Forall_forall. intros [k v] Hkv%elem_of_sorted_entries.
        rewrite Hvol, lookup_fmap in Hkv.
        destruct (TMSSystem.volumes_ s !! k) as [v0|]; [|done].
        injection Hkv as <-. simpl. by rewrite swept_not_lapsed. }
    simpl. f_equal.
    change (TMSSystem.set_volumes (swept now <$> TMSSystem.volumes_ r.2) r.2
            = r.2).
    rewrite Hvol, fmap_idempotent.
    + rewrite <- Hvol. apply set_volumes_same.
    + intros v. unfold swept at 1. by rewrite swept_not_lapsed.
  - unfold TMSSystem.list_reserved_volumes.
    rewrite Hvol, sorted_entries_fmap.
    induction (sorted_entries (TMSSystem.volumes_ s)) as [|[k v] es IH];
      [done|].
    rewrite fmap_cons, !filter_cons. simpl. rewrite swept_is_reserved.
    destruct (TapeVolume.is_reserved now v) eqn:Hres.
    + rewrite !decide_True by done. rewrite !fmap_cons. simpl.
      by rewrite swept_reserved, IH.
    + rewrite !decide_False by done. apply IH.
Qed.

(** ** Scratch pool listings *)

Section scratch_pool.

Import TMSSystem.

Variables (now : Z) (pool : string).

Implicit Types (entries : list (string * TapeVolume.t)).

Lemma scratch_candidate_any_density v :
  scratch_candidate pool None now v
  = TapeVolume.is_available_for_scratch now v
    && (bool_decide (pool = "") || bool_decide (TapeVolume.pool v = pool)).
Proof. unfold scratch_candidate, scratch_filters. by rewrite andb_true_r. Qed.

Lemma scratch_pool_loop_spec count entries result :
  count = 0%N ∨ length result < N.to_nat count →
  scratch_pool_loop now count pool entries result
  = result
    ++ (if decide (count = 0%N) then pool_candidates now pool entries
        else take (N.to_nat count - length result) (pool_candidates now pool entries)).
Proof.
  revert result. unfold pool_candidates.
  induction entries as [|[k v] entries IH]; intros result Hcount.
  { cbn [scratch_pool_loop]. rewrite filter_nil, fmap_nil, take_nil.
    case_decide; by rewrite app_nil_r. }
  cbn [scratch_pool_loop]. rewrite filter_cons. cbn [snd].
  rewrite scratch_candidate_any_density.
  destruct (TapeVolume.is_available_for_scratch now v); cbn [andb];
    [|rewrite (decide_False (P := false = true)) by discriminate;
      by apply IH].
  destruct (_ || _); cbn [andb];
    [|rewrite (decide_False (P := false = true)) by discriminate;
      by apply IH].
  rewrite (decide_True (P := true = true)) by done.
  rewrite fmap_cons. cbn [fst]. rewrite length_app. cbn [length].
  destruct (N.ltb_spec 0 count) as [Hpos|Hzero]; cbn [andb].
  - destruct Hcount as [->|Hlen]; [lia|].
    rewrite (decide_False (P := count = 0%N)) by lia.
    destruct (N.leb_spec count (N.of_nat (length result + 1))) as [Hfull|Hmore].
    + replace (N.to_nat count - length result) with 1 by lia.
      cbn [take]. by rewrite take_0.
    + rewrite IH by (right; rewrite length_app; simpl; lia).
      rewrite (decide_False (P := count = 0%N)) by lia.
      rewrite length_app. cbn [length].
      replace (N.to_nat count - length result)
        with (S (N.to_nat count - (length result + 1))) by lia.
      cbn [take]. by rewrite <- app_assoc.
  - assert (count = 0%N) as -> by lia.
    rewrite IH by (by left). rewrite !decide_True by done.
    by rewrite <- app_assoc.
Qed.

Lemma scan_scratch_head entries :
  scan_scratch pool None now entries
  = head (filter (λ e, scratch_candidate pool None now e.2 = true) entries).
Proof.
  induction entries as [|[k v] entries IH]; [done|].
  rewrite scan_scratch_cons, filter_cons. simpl.
  destruct (scratch_candidate pool None now v); [done|].
  by rewrite decide_False.
Qed.

End scratch_pool.

(** X21: [get_scratch_pool] lists the volsers of the volumes available for
    scratch in the pool in ascending order; a count of zero lists all of
    them, a positive count the first [count]. *)
Theorem get_scratch_pool_limit (now : Z) (count : N) (pool : string)
    (s : TMSSystem.t) :
  let all :=
    (filter (λ e, TMSSystem.scratch_candidate pool None now e.2 = true)
       (sorted_entries (TMSSystem.volumes_ s))).*1 in
  TMSSystem.get_scratch_pool now count pool s
  = (if decide (count = 0%N) then all else take (N.to_nat count) all)
  ∧ StronglySorted String.le (TMSSystem.get_scratch_pool now count pool s).
Proof.
  intros all. unfold TMSSystem.get_scratch_pool.
  rewrite scratch_pool_loop_spec by (simpl; lia).
  cbn [app length]. rewrite Nat.sub_0_r. split; [done|].
  assert (StronglySorted String.le all) as Hall.
  { apply StronglySorted_keys, StronglySorted_filter, sorted_entries_sorted. }
  case_decide; [done|].
  rewrite <- (take_drop (N.to_nat count) all) in Hall.
  by apply StronglySorted_app_1_l in Hall.
Qed.

(** X22: [allocate_scratch_volume] without a density filter hands out the
    first volume [get_scratch_pool] lists for the pool, whatever the count
    limit, and fails with NO_SCRATCH_AVAILABLE exactly when that list is
    empty. *)
Theorem allocation_takes_head_of_pool (now : Z) (count : N) (pool : string)
    (s : TMSSystem.t) :
  (TMSSystem.allocate_scratch_volume now pool None s).1
  = match head (TMSSystem.get_scratch_pool now count pool s) with
    | Some volser => ok volser
    | None => fail NO_SCRATCH_AVAILABLE "No scratch volumes available"
    end.
Proof.
  unfold TMSSystem.allocate_scratch_volume, TMSSystem.get_scratch_pool.
  rewrite scratch_pool_loop_spec by (simpl; lia).
  cbn [app length]. rewrite Nat.sub_0_r. rewrite scan_scratch_head.
  unfold pool_candidates.
  destruct (filter _ (sorted_entries (TMSSystem.volumes_ s)))
    as [|[k v] rest]; simpl.
  - case_decide; [done|]. by rewrite take_nil.
  - case_decide; [done|].
    destruct (N.to_nat count) eqn:Hc; [lia|done].
Qed.

(** X23: the first component of [get_scratch_pool_stats] is the number of
    volsers the unlimited [get_scratch_pool] lists for the pool, and it is
    at most the second component, which is at most the number of volumes
    catalogued. *)
Theorem scratch_pool_stats_count (now : Z) (pool : string) (s : TMSSystem.t) :
  let stats := TMSSystem.get_scratch_pool_stats now pool s in
  stats.1 = N.of_nat (length (TMSSystem.get_scratch_pool now 0 pool s))
  ∧ (stats.1 ≤ stats.2)%N
  ∧ (stats.2 ≤ N.of_nat (size (TMSSystem.volumes_ s)))%N.
Proof.
  intros stats. subst stats. unfold TMSSystem.get_scratch_pool_stats.
  cbn [fst snd]. split_and!.
  - unfold TMSSystem.get_scratch_pool.
    rewrite scratch_pool_loop_spec by (by left).
    rewrite decide_True by done. cbn [app]. unfold pool_candidates.
    rewrite length_fmap. do 2 f_equal.
    rewrite list_filter_filter. apply filter_entries_ext.
    intros [k v] _. cbn [snd]. rewrite scratch_candidate_any_density.
    rewrite andb_true_iff, orb_true_iff, !bool_decide_eq_true. tauto.
  - match goal with
    | |- (N.of_nat (length (filter ?P ?l)) ≤ _)%N =>
        pose proof (length_filter P l)
    end. lia.
  - match goal with
    | |- (N.of_nat (length (filter ?P ?l)) ≤ _)%N =>
        pose proof (length_filter P l) as Hlen
    end.
    unfold sorted_entries in Hlen at 2.
    rewrite merge_sort_Permutation, length_map_to_list in Hlen. lia.
Qed.



(** ** Expiration *)

Section expiration.

Import TMSSystem.

Variable now : Z.

Lemma expire_volume_settled v : volume_expiring now (expire_volume now v) = false.
Proof.
  unfold expire_volume. destruct (volume_expiring now v) eqn:Hv; [|done].
  reflexivity.
Qed.

Lemma expire_dataset_settled d :
  dataset_expiring now (expire_dataset now d) = false.
Proof.
  unfold expire_dataset. destruct (dataset_expiring now d) eqn:Hd; [|done].
  reflexivity.
Qed.

Lemma expire_volume_status v :
  TapeVolume.status (expire_volume now v) = EXPIRED
  ↔ TapeVolume.status v = EXPIRED ∨ volume_expiring now v = true.
Proof.
  unfold expire_volume. destruct (volume_expiring now v) eqn:Hv; simpl.
  - split; [by right|done].
  - split; [by left|]. by intros [?|?].
Qed.

Lemma expire_dataset_status d :
  Dataset.status (expire_dataset now d) = DS_EXPIRED
  ↔ Dataset.status d = DS_EXPIRED ∨ dataset_expiring now d = true.
Proof.
  unfold expire_dataset. destruct (dataset_expiring now d) eqn:Hd; simpl.
  - split; [by right|done].
  - split; [by left|]. by intros [?|?].
Qed.

Lemma process_expirations_fields s :
  let s' := (process_expirations now false s).2 in
  volumes_ s' = expire_volume now <$> volumes_ s
  ∧ datasets_ s' = expire_dataset now <$> datasets_ s.
Proof. unfold process_expirations. simpl. by destruct (_ <? _)%N. Qed.

(** The keys of the entries selected after a rewrite of the records. *)
Lemma filter_rewritten_keys {V} (f : V → V) (P Q : string * V → Prop)
    `{!∀ e, Decision (P e)} `{!∀ e, Decision (Q e)}
    (es : list (string * V)) :
  (∀ k v, P (k, f v) ↔ Q (k, v)) →
  (filter P (prod_map id f <$> es)).*1 = (filter Q es).*1.
Proof.
  intros HPQ. induction es as [|[k v] es IH]; [done|].
  rewrite fmap_cons, !filter_cons. simpl.
  destruct (decide (P (k, f v))) as [HP|HP], (decide (Q (k, v))) as [HQ|HQ];
    try (by apply HPQ in HP); try (by apply HPQ in HQ).
  - rewrite !fmap_cons. simpl. by rewrite IH.
  - done.
Qed.

(** Two tests that exclude each other split what their disjunction
    selects. *)
Lemma length_filter_or {A} (P Q : A → Prop) `{!∀ x, Decision (P x)}
    `{!∀ x, Decision (Q x)} (l : list A) :
  (∀ x, P x → Q x → False) →
  length (filter (λ x, P x ∨ Q x) l)
  = length (filter P l) + length (filter Q l).
Proof.
  intros Hdisj. induction l as [|x l IH]; [done|].
  rewrite !filter_cons.
  destruct (decide (P x)) as [HP|HP], (decide (Q x)) as [HQ|HQ].
  - destruct (Hdisj x HP HQ).
  - rewrite decide_True by (by left). simpl. lia.
  - rewrite decide_True by (by right). simpl. lia.
  - rewrite decide_False by (by intros [?|?]). done.
Qed.

End expiration.

(** X25: a dry run of [process_expirations] reports the count of the real
    run and changes nothing.  After a real run nothing is left to expire at
    that instant: another run, dry or not, reports zero and changes
    nothing.  The volumes and datasets then listed as expired are those
    that were EXPIRED before or past their expiration date, and the count
    reported is the number of records that became EXPIRED. *)
Theorem process_expirations_settles (now : Z) (s : TMSSystem.t) :
  let r := TMSSystem.process_expirations now false s in
  TMSSystem.process_expirations now true s = (r.1, s)
  ∧ (∀ dry_run, TMSSystem.process_expirations now dry_run r.2 = (0%N, r.2))
  ∧ TMSSystem.list_expired_volumes r.2
    = (filter (λ e, TapeVolume.status e.2 = EXPIRED
                    ∨ (TapeVolume.expiration_date e.2 < now)%Z)
         (sorted_entries (TMSSystem.volumes_ s))).*1
  ∧ TMSSystem.list_expired_datasets r.2
    = (filter (λ e, Dataset.status e.2 = DS_EXPIRED
                    ∨ (Dataset.expiration_date e.2 < now)%Z)
         (sorted_entries (TMSSystem.datasets_ s))).*1
  ∧ (N.of_nat (length (TMSSystem.list_expired_volumes s)
               + length (TMSSystem.list_expired_datasets s)) + r.1
     = N.of_nat (length (TMSSystem.list_expired_volumes r.2)
                 + length (TMSSystem.list_expired_datasets r.2)))%N.
Proof.
  intros r. destruct (process_expirations_fields now s) as [Hvol Hds].
  fold r in Hvol, Hds.
  assert (TMSSystem.list_expired_volumes r.2
          = (filter (λ e, TapeVolume.status e.2 = EXPIRED
                          ∨ TMSSystem.volume_expiring now e.2 = true)
               (sorted_entries (TMSSystem.volumes_ s))).*1) as Hlv.
  { unfold TMSSystem.list_expired_volumes.
    rewrite Hvol, sorted_entries_fmap.
    apply (filter_rewritten_keys (TMSSystem.expire_volume now)).
    intros k v. apply expire_volume_status. }
  assert (TMSSystem.list_expired_datasets r.2
          = (filter (λ e, Dataset.status e.2 = DS_EXPIRED
                          ∨ TMSSystem.dataset_expiring now e.2 = true)
               (sorted_entries (TMSSystem.datasets_ s))).*1) as Hld.
  { unfold TMSSystem.list_expired_datasets.
    rewrite Hds, sorted_entries_fmap.
    apply (filter_rewritten_keys (TMSSystem.expire_dataset now)).
    intros k d. apply expire_dataset_status. }
  split_and!.
  - done.
  - intros dry_run. clear Hlv Hld.
    remember r.2 as s' eqn:Hs'. clear Hs' r.
    unfold TMSSystem.process_expirations.
    rewrite !filter_none.
    2:{ apply Forall_forall. intros [k d] Hkd%elem_of_sorted_entries.
        rewrite Hds, lookup_fmap in Hkd.
        destruct (TMSSystem.datasets_ s !! k) as [d0|]; [|done].
        injection Hkd as <-. simpl. by rewrite expire_dataset_settled. }
    2:{ apply Forall_forall. intros [k v] Hkv%elem_of_sorted_entries.
        rewrite Hvol, lookup_fmap in Hkv.
        destruct (TMSSystem.volumes_ s !! k) as [v0|]; [|done].
        injection Hkv as <-. simpl. by rewrite expire_volume_settled. }
    destruct dry_run; [done|]. simpl. f_equal.
    rewrite Hvol, Hds.
    rewrite (fmap_idempotent (TMSSystem.expire_volume now)).
    2:{ intros v. unfold TMSSystem.expire_volume at 1.
        by rewrite expire_volume_settled. }
    rewrite (fmap_idempotent (TMSSystem.expire_dataset now)).
    2:{ intros d. unfold TMSSystem.expire_dataset at 1.
        by rewrite expire_dataset_settled. }
    rewrite <- Hvol, <- Hds. by destruct s'.
  - rewrite Hlv. f_equal. apply filter_entries_ext. intros [k v] _. simpl.
    unfold TMSSystem.volume_expiring.
    rewrite andb_true_iff, negb_true_iff, bool_decide_eq_false,
      bool_decide_eq_true.
    destruct (decide (TapeVolume.status v = EXPIRED)); tauto.
  - rewrite Hld. f_equal. apply filter_entries_ext. intros [k d] _. simpl.
    unfold TMSSystem.dataset_expiring.
    rewrite andb_true_iff, negb_true_iff, bool_decide_eq_false,
      bool_decide_eq_true.
    destruct (decide (Dataset.status d = DS_EXPIRED)); tauto.
  - rewrite Hlv, Hld. unfold TMSSystem.list_expired_volumes,
      TMSSystem.list_expired_datasets. rewrite !length_fmap.
    rewrite (length_filter_or
               (λ e : string * TapeVolume.t, TapeVolume.status e.2 = EXPIRED)
               (λ e, TMSSystem.volume_expiring now e.2 = true)).
    2:{ intros [k v] Hst Hexp. simpl in *.
        unfold TMSSystem.volume_expiring in Hexp.
        rewrite bool_decide_eq_true_2 in Hexp by done. done. }
    rewrite (length_filter_or
               (λ e : string * Dataset.t, Dataset.status e.2 = DS_EXPIRED)
               (λ e, TMSSystem.dataset_expiring now e.2 = true)).
    2:{ intros [k d] Hst Hexp. simpl in *.
        unfold TMSSystem.dataset_expiring in Hexp.
        rewrite bool_decide_eq_true_2 in Hexp by done. done. }
    subst r. unfold TMSSystem.process_expirations. cbn [fst]. lia.
Qed.

(** ** The shared batch loop *)

Section batch_loop.

Import TMSSystem.

Context {A : Type} (op : nat → A → t → OperationResult * t)
  (key : A → string).

Implicit Types (items : list A) (result : BatchResult.t) (s : t).

(** The counters after the loop, and a measure of the state that every
    successful call moves by [d] and every failed call leaves alone. *)
Lemma batch_loop_counts (measure : t → Z) (d : Z) i items result s :
  (∀ i item s,
     measure (op i item s).2
     = (measure s + if is_success (op i item s).1 then d else 0)%Z) →
  (BatchResult.succeeded result + BatchResult.failed result
   + N.of_nat (length items) < UINT64_MOD)%N →
  let out := batch_loop op key i items result s in
  BatchResult.total out.1 = BatchResult.total result
  ∧ BatchResult.skipped out.1 = BatchResult.skipped result
  ∧ (BatchResult.succeeded out.1 + BatchResult.failed out.1
     = BatchResult.succeeded result + BatchResult.failed result
       + N.of_nat (length items))%N
  ∧ (N.of_nat (length (BatchResult.failures out.1))
     + BatchResult.failed result
     = N.of_nat (length (BatchResult.failures result))
       + BatchResult.failed out.1)%N
  ∧ (BatchResult.succeeded result ≤ BatchResult.succeeded out.1)%N
  ∧ measure out.2
    = (measure s
       + d * (Z.of_N (BatchResult.succeeded out.1)
              - Z.of_N (BatchResult.succeeded result)))%Z.
Proof.
  intros Hop. revert i result s.
  induction items as [|item rest IH]; intros i result s Hlt.
  - simpl. split_and!; [done|done|lia|lia|lia|lia].
  - cbn [batch_loop]. pose proof (Hop i item s) as Hstep.
    destruct (op i item s) as [r s1]. cbn [fst snd] in Hstep.
    cbn [length] in Hlt.
    destruct r as [u|e]; cbn [record_item is_success] in *; unfold u64_add;
      rewrite N.mod_small by lia;
      match goal with
      | |- context [batch_loop op key (S i) rest ?r s1] =>
          destruct (IH (S i) r s1) as (-> & -> & IH1 & IH2 & IH3 & ->)
      end; cbn [BatchResult.total BatchResult.succeeded BatchResult.failed
                BatchResult.skipped BatchResult.failures] in *;
      rewrite ?length_app in *; cbn [length] in *;
      try split_and!; try done; lia.
Qed.

Lemma batch_loop_failures_mono i items result s x :
  x ∈ BatchResult.failures result →
  x ∈ BatchResult.failures (batch_loop op key i items result s).1.
Proof.
  revert i result s. induction items as [|item rest IH]; intros i result s Hx;
    [done|].
  cbn [batch_loop]. destruct (op i item s) as [[u|e] s1]; apply IH; simpl.
  - done.
  - apply elem_of_app. by left.
Qed.

(** Every failure the loop books names an item of the batch and carries
    the message of the failed call. *)
Lemma batch_loop_failures (Φ : A → string → Prop) i items result s x :
  (∀ i item s e, (op i item s).1 = err e → Φ item (message e)) →
  x ∈ BatchResult.failures (batch_loop op key i items result s).1 →
  x ∈ BatchResult.failures result
  ∨ ∃ item, item ∈ items ∧ x.1 = key item ∧ Φ item x.2.
Proof.
  intros Hop. revert i result s.
  induction items as [|item rest IH]; intros i result s Hx; [by left|].
  cbn [batch_loop] in Hx. pose proof (Hop i item s) as Hstep.
  destruct (op i item s) as [[u|e] s1]; apply IH in Hx; simpl in *.
  - destruct Hx as [?|(item' & ? & ?)]; [by left|].
    right. exists item'. split; [by right|done].
  - destruct Hx as [[?|Hx%list_elem_of_singleton]%elem_of_app
                   |(item' & ? & ?)].
    + by left.
    + right. exists item. subst x. split; [left|]. split; [done|].
      by apply Hstep.
    + right. exists item'. split; [by right|done].
Qed.

(** A property of the state that every call preserves holds after the
    loop. *)
Lemma batch_loop_invariant (P : t → Prop) i items result s :
  (∀ i item s, P s → P (op i item s).2) →
  P s → P (batch_loop op key i items result s).2.
Proof.
  intros Hop. revert i result s.
  induction items as [|item rest IH]; intros i result s Hs; [done|].
  cbn [batch_loop]. pose proof (Hop i item s Hs) as Hstep.
  destruct (op i item s) as [r s1]. by apply IH.
Qed.

(** An item is either reported as failed, or its call succeeded on some
    state and the rest of the batch ran on from the state it produced. *)
Lemma batch_loop_item (Q : A → t → Prop) i items result s item :
  (∀ i item s u, (op i item s).1 = ok u → Q item (op i item s).2) →
  (∀ i item' item s, Q item s → Q item (op i item' s).2) →
  item ∈ items →
  Q item (batch_loop op key i items result s).2
  ∨ key item ∈ (BatchResult.failures (batch_loop op key i items result s).1).*1.
Proof.
  intros Hok Hkeep. revert i result s.
  induction items as [|item' rest IH]; intros i result s Hin.
  { by apply elem_of_nil in Hin. }
  cbn [batch_loop]. apply elem_of_cons in Hin as [<-|Hin].
  - pose proof (Hok i item s) as Hstep.
    destruct (op i item s) as [[u|e] s1]; cbn [fst snd] in *.
    + left. apply (batch_loop_invariant (Q item)); [by intros; apply Hkeep|].
      by apply (Hstep u).
    + right. apply list_elem_of_fmap. exists (key item, message e).
      split; [done|]. apply batch_loop_failures_mono. simpl.
      apply elem_of_app. right. by left.
  - destruct (op i item' s) as [r s1]. by apply IH.
Qed.

End batch_loop.

(** ** The other sequential batches *)

Section batches.

Import TMSSystem.

Variables (cfg : Configuration) (clock : nat → Z).

Lemma map_size_delete_S {V} (m : gmap string V) i x :
  m !! i = Some x → size m = S (size (delete i m)).
Proof.
  intros Hi. rewrite <- (insert_delete_id m i x) at 1 by done.
  rewrite map_size_insert_None; [done|]. apply lookup_delete_eq.
Qed.

Lemma delete_dataset_lookup now name s n :
  datasets_ (delete_dataset now name s).2 !! n
  = if decide (n = name) then None else datasets_ s !! n.
Proof.
  destruct (delete_dataset now name s) as [[u|e] s'] eqn:Hop; cbn [snd].
  - apply delete_dataset_ok in Hop as (ds & _ & _ & -> & _).
    case_decide as Hn; [subst; apply lookup_delete_eq|].
    by apply lookup_delete_ne.
  - pose proof Hop as ->%delete_dataset_err.
    case_decide as Hn; [subst|done].
    unfold delete_dataset in Hop.
    by destruct (datasets_ s !! name).
Qed.

Lemma delete_dataset_size now name s :
  Z.of_nat (size (datasets_ (delete_dataset now name s).2))
  = (Z.of_nat (size (datasets_ s))
     + if is_success (delete_dataset now name s).1 then -1 else 0)%Z.
Proof.
  destruct (delete_dataset now name s) as [[u|e] s'] eqn:Hop;
    cbn [fst snd is_success].
  - apply delete_dataset_ok in Hop as (ds & Hds & _ & -> & _).
    pose proof (map_size_delete_S (datasets_ s) name ds Hds). lia.
  - apply delete_dataset_err in Hop as ->. lia.
Qed.

Lemma delete_dataset_message now name s e :
  (delete_dataset now name s).1 = err e →
  message e = "Dataset not found: " +:+ name.
Proof.
  unfold delete_dataset. destruct (datasets_ s !! name); [done|].
  by intros [= <-].
Qed.

Lemma delete_datasets_loop_lookup i names result s n :
  datasets_
    (batch_loop (λ i name, delete_dataset (clock i) name) id i names result
       s).2 !! n
  = if decide (n ∈ names) then None else datasets_ s !! n.
Proof.
  revert i result s. induction names as [|name rest IH]; intros i result s.
  { cbn [batch_loop snd]. by rewrite decide_False by apply not_elem_of_nil. }
  cbn [batch_loop].
  pose proof (delete_dataset_lookup (clock i) name s n) as Hstep.
  destruct (delete_dataset (clock i) name s) as [r s1]. cbn [snd] in Hstep.
  rewrite IH, Hstep.
  destruct (decide (n ∈ rest)), (decide (n = name)) as [->|];
    repeat case_decide; set_solver.
Qed.

Lemma delete_volume_size now volser force s :
  Z.of_nat (size (volumes_ (delete_volume now volser force s).2))
  = (Z.of_nat (size (volumes_ s))
     + if is_success (delete_volume now volser force s).1 then -1 else 0)%Z.
Proof.
  destruct (delete_volume now volser force s) as [[u|e] s'] eqn:Hop;
    cbn [fst snd is_success].
  - apply delete_volume_ok in Hop as (v & Hv & _ & _ & _ & -> & _).
    pose proof (map_size_delete_S (volumes_ s) volser v Hv). lia.
  - apply delete_volume_err in Hop as ->. lia.
Qed.

Lemma delete_volume_shrinks now volser force s k v :
  volumes_ (delete_volume now volser force s).2 !! k = Some v →
  volumes_ s !! k = Some v.
Proof.
  destruct (delete_volume now volser force s) as [[u|e] s'] eqn:Hop;
    cbn [snd].
  - apply delete_volume_ok in Hop as (v' & _ & _ & _ & _ & -> & _).
    by intros [_ ?]%lookup_delete_Some.
  - by apply delete_volume_err in Hop as ->.
Qed.

Lemma delete_volume_keeps_datasets now volser s :
  datasets_ (delete_volume now volser false s).2 = datasets_ s.
Proof.
  destruct (delete_volume now volser false s) as [[u|e] s'] eqn:Hop;
    cbn [snd].
  - by apply delete_volume_ok
      in Hop as (v' & _ & _ & _ & _ & _ & _ & _ & _ & -> & _).
  - by apply delete_volume_err in Hop as ->.
Qed.

Lemma add_dataset_size now ds s :
  Z.of_nat (size (datasets_ (add_dataset cfg now ds s).2))
  = (Z.of_nat (size (datasets_ s))
     + if is_success (add_dataset cfg now ds s).1 then 1 else 0)%Z.
Proof.
  destruct (add_dataset cfg now ds s) as [[u|e] s'] eqn:Hop;
    cbn [fst snd is_success].
  - apply add_dataset_ok in Hop as (_ & Hnew & v & _ & _ & -> & _).
    rewrite map_size_insert_None by done. lia.
  - apply add_dataset_err in Hop as ->. lia.
Qed.

Lemma add_dataset_keeps now ds s n d :
  datasets_ s !! n = Some d →
  datasets_ (add_dataset cfg now ds s).2 !! n = Some d.
Proof.
  intros Hn.
  destruct (add_dataset cfg now ds s) as [[u|e] s'] eqn:Hop; cbn [snd].
  - apply add_dataset_ok in Hop as (_ & Hnew & v & _ & _ & -> & _).
    rewrite lookup_insert_ne; [done|]. intros <-. congruence.
  - by apply add_dataset_err in Hop as ->.
Qed.

Lemma add_dataset_volume_keys now ds s :
  dom (volumes_ (add_dataset cfg now ds s).2) = dom (volumes_ s).
Proof.
  destruct (add_dataset cfg now ds s) as [[u|e] s'] eqn:Hop; cbn [snd].
  - apply add_dataset_ok in Hop as (_ & _ & v & Hv & -> & _).
    rewrite dom_insert_L. apply elem_of_dom_2 in Hv. set_solver.
  - by apply add_dataset_err in Hop as ->.
Qed.

End batches.

(** X26: after [delete_datasets_batch] none of the named datasets is
    catalogued and every other dataset is as before.  The counters add up
    to the number of names, the catalog holds [succeeded] datasets fewer,
    and every failure is the "Dataset not found" of a name of the batch. *)
Theorem delete_datasets_batch_removes (clock : nat → Z) (names : list string)
    (s : TMSSystem.t) :
  (N.of_nat (length names) < UINT64_MOD)%N →
  let out := TMSSystem.delete_datasets_batch clock names s in
  BatchResult.total out.1 = N.of_nat (length names)
  ∧ (BatchResult.succeeded out.1 + BatchResult.failed out.1
     = BatchResult.total out.1)%N
  ∧ BatchResult.failed out.1
    = N.of_nat (length (BatchResult.failures out.1))
  ∧ (∀ n, TMSSystem.datasets_ out.2 !! n
          = if decide (n ∈ names) then None
            else TMSSystem.datasets_ s !! n)
  ∧ size (TMSSystem.datasets_ s)
    = size (TMSSystem.datasets_ out.2)
      + N.to_nat (BatchResult.succeeded out.1)
  ∧ (∀ x, x ∈ BatchResult.failures out.1 →
          x.1 ∈ names ∧ x.2 = "Dataset not found: " +:+ x.1).
Proof.
  intros Hlen out. subst out. unfold TMSSystem.delete_datasets_batch.
  destruct (batch_loop_counts
              (λ i name, TMSSystem.delete_dataset (clock i) name) id
              (λ s, Z.of_nat (size (TMSSystem.datasets_ s))) (-1) 0 names
              (TMSSystem.empty_batch (length names)) s)
    as (Htot & _ & Hsum & Hfail & _ & Hsize).
  { intros i name s'. apply delete_dataset_size. }
  { simpl. lia. }
  cbn [TMSSystem.empty_batch BatchResult.total BatchResult.succeeded
       BatchResult.failed BatchResult.failures length] in *.
  split_and!.
  - done.
  - rewrite Htot. lia.
  - lia.
  - apply delete_datasets_loop_lookup.
  - lia.
  - intros x Hx.
    apply (batch_loop_failures _ _
             (λ name msg, msg = "Dataset not found: " +:+ name)) in Hx.
    + destruct Hx as [Hx|(name & Hname & -> & ->)]; [|done].
      by apply elem_of_nil in Hx.
    + intros i name s' e. apply delete_dataset_message.
Qed.

Lemma delete_datasets_batch_removes_witness :
  let s := (TMSSystem.add_dataset default_configuration 6 small_dataset
              one_volume).2 in
  let names := ["SMALL.DATA"; "MISSING.DATA"; "SMALL.DATA"] in
  let out := TMSSystem.delete_datasets_batch (λ _, 7%Z) names s in
  BatchResult.total out.1 = N.of_nat (length names)
  ∧ (BatchResult.succeeded out.1 + BatchResult.failed out.1
     = BatchResult.total out.1)%N
  ∧ BatchResult.failed out.1
    = N.of_nat (length (BatchResult.failures out.1))
  ∧ (∀ n, TMSSystem.datasets_ out.2 !! n
          = if decide (n ∈ names) then None
            else TMSSystem.datasets_ s !! n)
  ∧ size (TMSSystem.datasets_ s)
    = size (TMSSystem.datasets_ out.2)
      + N.to_nat (BatchResult.succeeded out.1)
  ∧ (∀ x, x ∈ BatchResult.failures out.1 →
          x.1 ∈ names ∧ x.2 = "Dataset not found: " +:+ x.1).
Proof.
  intros s names. apply (delete_datasets_batch_removes (λ _, 7%Z) names s).
  vm_compute. reflexivity.
Defined.

(** X27: [delete_volumes_batch] never adds or changes a volume: what is
    catalogued afterwards was catalogued, unchanged, before.  The counters
    add up to the number of volsers, the catalog holds [succeeded] volumes
    fewer, every volser of the batch is either gone or named in the failure
    list, and without [force] no dataset is touched. *)
Theorem delete_volumes_batch_accounts (clock : nat → Z)
    (volsers : list string) (force : bool) (s : TMSSystem.t) :
  (N.of_nat (length volsers) < UINT64_MOD)%N →
  let out := TMSSystem.delete_volumes_batch clock volsers force s in
  BatchResult.total out.1 = N.of_nat (length volsers)
  ∧ (BatchResult.succeeded out.1 + BatchResult.failed out.1
     = BatchResult.total out.1)%N
  ∧ BatchResult.failed out.1
    = N.of_nat (length (BatchResult.failures out.1))
  ∧ size (TMSSystem.volumes_ s)
    = size (TMSSystem.volumes_ out.2)
      + N.to_nat (BatchResult.succeeded out.1)
  ∧ (∀ k v, TMSSystem.volumes_ out.2 !! k = Some v →
            TMSSystem.volumes_ s !! k = Some v)
  ∧ (∀ k, k ∈ volsers →
          TMSSystem.volumes_ out.2 !! k = None
          ∨ k ∈ (BatchResult.failures out.1).*1)
  ∧ (force = false → TMSSystem.datasets_ out.2 = TMSSystem.datasets_ s).
Proof.
  intros Hlen out. subst out. unfold TMSSystem.delete_volumes_batch.
  destruct (batch_loop_counts
              (λ i volser, TMSSystem.delete_volume (clock i) volser force) id
              (λ s, Z.of_nat (size (TMSSystem.volumes_ s))) (-1) 0 volsers
              (TMSSystem.empty_batch (length volsers)) s)
    as (Htot & _ & Hsum & Hfail & _ & Hsize).
  { intros i volser s'. apply delete_volume_size. }
  { simpl. lia. }
  cbn [TMSSystem.empty_batch BatchResult.total BatchResult.succeeded
       BatchResult.failed BatchResult.failures length] in *.
  split_and!.
  - done.
  - rewrite Htot. lia.
  - lia.
  - lia.
  - apply (batch_loop_invariant _ _
             (λ s', ∀ k v, TMSSystem.volumes_ s' !! k = Some v →
                           TMSSystem.volumes_ s !! k = Some v));
      [|done].
    intros i volser s' Hs' k v Hk. eapply Hs', delete_volume_shrinks, Hk.
  - intros k Hk.
    apply (batch_loop_item _ id
             (λ volser s', TMSSystem.volumes_ s' !! volser = None));
      [| |done].
    + intros i volser s' u Hop.
      destruct (TMSSystem.delete_volume (clock i) volser force s')
        as [r s1] eqn:Hdel. cbn [fst snd] in *. subst r.
      apply delete_volume_ok in Hdel as (v & _ & _ & _ & _ & -> & _).
      apply lookup_delete_eq.
    + intros i volser' volser s' Hnone.
      destruct (TMSSystem.volumes_
                  (TMSSystem.delete_volume (clock i) volser' force s').2
                  !! volser) as [v|] eqn:Hv; [|done].
      apply delete_volume_shrinks in Hv. congruence.
  - intros ->.
    apply (batch_loop_invariant _ _
             (λ s', TMSSystem.datasets_ s' = TMSSystem.datasets_ s));
      [|done].
    intros i volser s' Hs'. by rewrite delete_volume_keeps_datasets.
Qed.

Lemma delete_volumes_batch_accounts_witness :
  let volsers := ["A01"; "C01"; "A01"; "B01"] in
  let out := TMSSystem.delete_volumes_batch (λ _, 7%Z) volsers false
               two_scratch_volumes in
  BatchResult.total out.1 = N.of_nat (length volsers)
  ∧ (BatchResult.succeeded out.1 + BatchResult.failed out.1
     = BatchResult.total out.1)%N
  ∧ BatchResult.failed out.1
    = N.of_nat (length (BatchResult.failures out.1))
  ∧ size (TMSSystem.volumes_ two_scratch_volumes)
    = size (TMSSystem.volumes_ out.2)
      + N.to_nat (BatchResult.succeeded out.1)
  ∧ (∀ k v, TMSSystem.volumes_ out.2 !! k = Some v →
            TMSSystem.volumes_ two_scratch_volumes !! k = Some v)
  ∧ (∀ k, k ∈ volsers →
          TMSSystem.volumes_ out.2 !! k = None
          ∨ k ∈ (BatchResult.failures out.1).*1)
  ∧ (false = false →
     TMSSystem.datasets_ out.2 = TMSSystem.datasets_ two_scratch_volumes).
Proof.
  intros volsers.
  apply (delete_volumes_batch_accounts (λ _, 7%Z) volsers false
           two_scratch_volumes).
  vm_compute. reflexivity.
Defined.

(** X28: [add_datasets_batch] keeps every dataset that was catalogued and
    creates no volume.  The counters add up to the number of items, the
    catalog holds [succeeded] datasets more, and every item is either
    catalogued afterwards or named in the failure list. *)
Theorem add_datasets_batch_accounts (cfg : Configuration) (clock : nat → Z)
    (datasets : list Dataset.t) (s : TMSSystem.t) :
  (N.of_nat (length datasets) < UINT64_MOD)%N →
  let out := TMSSystem.add_datasets_batch cfg clock datasets s in
  BatchResult.total out.1 = N.of_nat (length datasets)
  ∧ (BatchResult.succeeded out.1 + BatchResult.failed out.1
     = BatchResult.total out.1)%N
  ∧ BatchResult.failed out.1
    = N.of_nat (length (BatchResult.failures out.1))
  ∧ size (TMSSystem.datasets_ out.2)
    = size (TMSSystem.datasets_ s) + N.to_nat (BatchResult.succeeded out.1)
  ∧ (∀ n d, TMSSystem.datasets_ s !! n = Some d →
            TMSSystem.datasets_ out.2 !! n = Some d)
  ∧ dom (TMSSystem.volumes_ out.2) = dom (TMSSystem.volumes_ s)
  ∧ (∀ ds, ds ∈ datasets →
           is_Some (TMSSystem.datasets_ out.2 !! Dataset.name ds)
           ∨ Dataset.name ds ∈ (BatchResult.failures out.1).*1).
Proof.
  intros Hlen out. subst out. unfold TMSSystem.add_datasets_batch.
  destruct (batch_loop_counts
              (λ i ds, TMSSystem.add_dataset cfg (clock i) ds) Dataset.name
              (λ s, Z.of_nat (size (TMSSystem.datasets_ s))) 1 0 datasets
              (TMSSystem.empty_batch (length datasets)) s)
    as (Htot & _ & Hsum & Hfail & _ & Hsize).
  { intros i ds s'. apply add_dataset_size. }
  { simpl. lia. }
  cbn [TMSSystem.empty_batch BatchResult.total BatchResult.succeeded
       BatchResult.failed BatchResult.failures length] in *.
  split_and!.
  - done.
  - rewrite Htot. lia.
  - lia.
  - lia.
  - apply (batch_loop_invariant _ _
             (λ s', ∀ n d, TMSSystem.datasets_ s !! n = Some d →
                           TMSSystem.datasets_ s' !! n = Some d));
      [|done].
    intros i ds s' Hs' n d Hn. by apply add_dataset_keeps, Hs'.
  - apply (batch_loop_invariant _ _
             (λ s', dom (TMSSystem.volumes_ s')
                    = dom (TMSSystem.volumes_ s))); [|done].
    intros i ds s' Hs'. by rewrite add_dataset_volume_keys.
  - intros ds Hds.
    apply (batch_loop_item _ Dataset.name
             (λ ds s', is_Some (TMSSystem.datasets_ s' !! Dataset.name ds)));
      [| |done].
    + intros i ds' s' u Hop.
      destruct (TMSSystem.add_dataset cfg (clock i) ds' s')
        as [r s1] eqn:Hadd. cbn [fst snd] in *. subst r.
      apply add_dataset_ok in Hadd as (_ & _ & v & _ & _ & -> & _).
      rewrite lookup_insert_eq. by eexists.
    + intros i ds' ds0 s' [d Hd]. exists d. by apply add_dataset_keeps.
Qed.

Lemma add_datasets_batch_accounts_witness :
  let datasets := [small_dataset; Dataset.default "LOST.DATA" "NOVOL" 1;
                   small_dataset] in
  let out := TMSSystem.add_datasets_batch default_configuration (λ _, 7%Z)
               datasets one_volume in
  BatchResult.total out.1 = N.of_nat (length datasets)
  ∧ (BatchResult.succeeded out.1 + BatchResult.failed out.1
     = BatchResult.total out.1)%N
  ∧ BatchResult.failed out.1
    = N.of_nat (length (BatchResult.failures out.1))
  ∧ size (TMSSystem.datasets_ out.2)
    = size (TMSSystem.datasets_ one_volume)
      + N.to_nat (BatchResult.succeeded out.1)
  ∧ (∀ n d, TMSSystem.datasets_ one_volume !! n = Some d →
            TMSSystem.datasets_ out.2 !! n = Some d)
  ∧ dom (TMSSystem.volumes_ out.2) = dom (TMSSystem.volumes_ one_volume)
  ∧ (∀ ds, ds ∈ datasets →
           is_Some (TMSSystem.datasets_ out.2 !! Dataset.name ds)
           ∨ Dataset.name ds ∈ (BatchResult.failures out.1).*1).
Proof.
  intros datasets.
  apply (add_datasets_batch_accounts default_configuration (λ _, 7%Z)
           datasets one_volume).
  vm_compute. reflexivity.
Defined.

(** ** Records are stored under their own key *)

Section keys.

Import TMSSystem.

Implicit Types (s : TMSSystem.t) (v : TapeVolume.t) (d : Dataset.t).

Lemma keys_match_maps s s' :
  volumes_ s' = volumes_ s → datasets_ s' = datasets_ s →
  keys_match s → keys_match s'.
Proof. unfold keys_match. by intros -> ->. Qed.

Lemma keys_match_audit now op tgt det s :
  keys_match s → keys_match (add_audit_record now op tgt det s).
Proof. by apply keys_match_maps. Qed.

Lemma keys_match_set_volume s k v v' :
  keys_match s → volumes_ s !! k = Some v →
  TapeVolume.volser v' = TapeVolume.volser v →
  keys_match (set_volumes (<[k := v']> (volumes_ s)) s).
Proof.
  intros [Hv Hd] Hk Hvolser. split; [|done]. simpl.
  apply map_Forall_insert_2; [|done].
  destruct (Hv k v Hk) as [<- ?]. by rewrite Hvolser.
Qed.

Lemma keys_match_new_volume s k v' :
  keys_match s → validate_volser k = true → TapeVolume.volser v' = k →
  keys_match (set_volumes (<[k := v']> (volumes_ s)) s).
Proof.
  intros [Hv Hd] Hvalid Hvolser. split; [|done]. simpl.
  by apply map_Forall_insert_2.
Qed.

Lemma keys_match_set_dataset s k d d' :
  keys_match s → datasets_ s !! k = Some d →
  Dataset.name d' = Dataset.name d →
  keys_match (set_datasets (<[k := d']> (datasets_ s)) s).
Proof.
  intros [Hv Hd] Hk Hname. split; [done|]. simpl.
  apply map_Forall_insert_2; [|done].
  destruct (Hd k d Hk) as [<- ?]. by rewrite Hname.
Qed.

Lemma keys_match_fmap_volumes s (f : TapeVolume.t → TapeVolume.t) :
  (∀ v, TapeVolume.volser (f v) = TapeVolume.volser v) →
  keys_match s → keys_match (set_volumes (f <$> volumes_ s) s).
Proof.
  intros Hf [Hv Hd]. split; [|done]. simpl.
  intros k v'. rewrite lookup_fmap.
  destruct (volumes_ s !! k) as [v|] eqn:Hk; [|done].
  intros [= <-]. rewrite Hf. by apply Hv.
Qed.

Lemma keys_match_fmap_datasets s (f : Dataset.t → Dataset.t) :
  (∀ d, Dataset.name (f d) = Dataset.name d) →
  keys_match s → keys_match (set_datasets (f <$> datasets_ s) s).
Proof.
  intros Hf [Hv Hd]. split; [done|]. simpl.
  intros k d'. rewrite lookup_fmap.
  destruct (datasets_ s !! k) as [d|] eqn:Hk; [|done].
  intros [= <-]. rewrite Hf. by apply Hd.
Qed.

Lemma map_Forall_delete_all {V} (P : string → V → Prop)
    (m : gmap string V) names :
  map_Forall P m → map_Forall P (foldl (λ m n, delete n m) m names).
Proof.
  revert m. induction names as [|n names IH]; intros m Hm; [done|].
  simpl. by apply IH, map_Forall_delete.
Qed.

Lemma keys_match_cascade s names :
  keys_match s → keys_match (foldl cascade_delete_dataset s names).
Proof.
  intros [Hv Hd].
  destruct (cascade_fields s names) as (Hvol & _ & _ & _ & _ & _ & Hds).
  split; [by rewrite Hvol|]. rewrite Hds. by apply map_Forall_delete_all.
Qed.

Lemma apply_op_keys_match cfg s op :
  keys_match s → keys_match (apply_op cfg s op).
Proof.
  intros Hs. pose proof Hs as [Hv Hd]. destruct op; simpl.
  - destruct (add_volume cfg now volume s) as [[u|e] s'] eqn:Hop; simpl.
    + apply add_volume_ok in Hop as (Hvalid & _ & _ & Hvol & Hds & _).
      split; [|by rewrite Hds]. rewrite Hvol.
      apply map_Forall_insert_2; [|done]. split; [|done].
      apply prepare_volume_fields.
    + by apply add_volume_err in Hop as ->.
  - destruct (update_volume now volume s) as [[u|e] s'] eqn:Hop; simpl.
    + apply update_volume_ok in Hop as (old & Hold & Hvol & Hds & _).
      split; [|by rewrite Hds]. rewrite Hvol.
      apply map_Forall_insert_2; [|done]. split; [done|].
      by apply (Hv _ _ Hold).
    + by apply update_volume_err in Hop as ->.
  - destruct (delete_volume now volser force s) as [[u|e] s'] eqn:Hop; simpl.
    + apply delete_volume_ok
        in Hop as (v & _ & _ & _ & _ & Hvol & _ & _ & _ & Hds & _).
      split; [rewrite Hvol; by apply map_Forall_delete|]. rewrite Hds.
      destruct force; [by apply map_Forall_delete_all|done].
    + by apply delete_volume_err in Hop as ->.
  - destruct (add_dataset cfg now dataset s) as [[u|e] s'] eqn:Hop; simpl.
    + apply add_dataset_ok in Hop as (Hvalid & _ & v & Hvk & Hvol & Hds & _).
      split.
      * rewrite Hvol. apply map_Forall_insert_2; [|done].
        destruct (Hv _ _ Hvk) as [<- ?]. split; [|done].
        apply attach_dataset_fields.
      * rewrite Hds. apply map_Forall_insert_2; [|done]. split; [|done].
        apply prepare_dataset_fields.
    + by apply add_dataset_err in Hop as ->.
  - destruct (update_dataset now dataset s) as [[u|e] s'] eqn:Hop; simpl.
    + apply update_dataset_ok in Hop as (old & Hold & Hds & Hvol & _).
      split; [by rewrite Hvol|]. rewrite Hds.
      apply map_Forall_insert_2; [|done]. split; [done|].
      by apply (Hd _ _ Hold).
    + by apply update_dataset_err in Hop as ->.
  - destruct (delete_dataset now name s) as [[u|e] s'] eqn:Hop; simpl.
    + apply delete_dataset_ok in Hop as (ds & _ & Hvol & Hds & _).
      split; [|rewrite Hds; by apply map_Forall_delete].
      rewrite Hvol.
      destruct (volumes_ s !! Dataset.volser ds) as [v|] eqn:Hvk; [|done].
      apply map_Forall_insert_2; [|done].
      destruct (Hv _ _ Hvk) as [<- ?]. split; [|done].
      apply detach_dataset_fields.
    + by apply delete_dataset_err in Hop as ->.
Qed.

Lemma apply_maintenance_keys_match s op :
  keys_match s → keys_match (apply_maintenance s op).
Proof.
  intros Hs. pose proof Hs as [Hv Hd]. destruct op; simpl.
  - unfold remove_volume_tag.
    destruct (volumes_ s !! volser) as [v|] eqn:Hk; [|done]. simpl.
    apply keys_match_audit.
    apply (keys_match_maps
             (set_volumes (<[volser := TapeVolume.set_tags
                                         (TapeVolume.tags v ∖ {[tag]}) v]>
                             (volumes_ s)) s)); [done..|].
    by apply (keys_match_set_volume _ _ v).
  - unfold remove_dataset_tag.
    destruct (datasets_ s !! name) as [d|] eqn:Hk; [|done]. simpl.
    apply (keys_match_maps
             (set_datasets (<[name := Dataset.set_tags
                                        (Dataset.tags d ∖ {[tag]}) d]>
                              (datasets_ s)) s)); [done..|].
    by apply (keys_match_set_dataset _ _ d).
  - unfold move_volume_to_pool.
    destruct (volumes_ s !! volser) as [v|] eqn:Hk; [|done]. simpl.
    apply keys_match_audit.
    apply (keys_match_maps
             (set_volumes (<[volser := TapeVolume.set_pool target_pool v]>
                             (volumes_ s)) s)); [done..|].
    by apply (keys_match_set_volume _ _ v).
  - unfold clone_volume.
    destruct (validate_volser new_volser) eqn:Hvalid; [|done]. simpl.
    destruct (volumes_ s !! source_volser) as [v|] eqn:Hk; [|done].
    case_decide; [done|]. simpl. apply keys_match_audit.
    match goal with
    | |- keys_match ?s' =>
        apply (keys_match_maps
                 (set_volumes (volumes_ s') s)); [done..|]
    end.
    by apply keys_match_new_volume.
  - unfold reserve_volume.
    destruct (volumes_ s !! volser) as [v|] eqn:Hk; [|done].
    destruct (_ && _); [done|]. simpl. apply keys_match_audit.
    by apply (keys_match_set_volume _ _ v).
  - unfold release_volume.
    destruct (volumes_ s !! volser) as [v|] eqn:Hk; [|done].
    destruct (negb _); [done|]. destruct (negb _); [done|]. simpl.
    apply keys_match_audit. by apply (keys_match_set_volume _ _ v).
  - unfold extend_reservation.
    destruct (volumes_ s !! volser) as [v|] eqn:Hk; [|done].
    destruct (_ || _); [done|]. simpl. apply keys_match_audit.
    by apply (keys_match_set_volume _ _ v).
  - unfold cleanup_expired_reservations. simpl.
    match goal with
    | |- keys_match (if ?b then _ else _) => destruct b
    end; [apply keys_match_audit|];
      (apply keys_match_fmap_volumes; [|done]);
      intros v; by destruct (reservation_lapsed now v).
  - unfold scratch_volume.
    destruct (volumes_ s !! volser) as [v|] eqn:Hk; [|done].
    case_decide; [done|]. simpl. apply keys_match_audit.
    pose proof (cascade_fields s (TapeVolume.datasets v)) as (Hvol & _).
    apply (keys_match_set_volume _ _ v);
      [by apply keys_match_cascade|by rewrite Hvol|done].
  - unfold set_volume_offline.
    destruct (volumes_ s !! volser) as [v|] eqn:Hk; [|done].
    case_decide; [done|]. simpl. apply keys_match_audit.
    by apply (keys_match_set_volume _ _ v).
  - unfold set_volume_online.
    destruct (volumes_ s !! volser) as [v|] eqn:Hk; [|done].
    case_decide; [done|]. simpl. apply keys_match_audit.
    by apply (keys_match_set_volume _ _ v).
  - unfold allocate_scratch_volume.
    destruct (scan_scratch _ _ _ _) as [[k v]|] eqn:Hscan; [|done].
    apply scan_scratch_lowest in Hscan as [Hk _]. simpl.
    apply keys_match_audit. by apply (keys_match_set_volume _ _ v).
  - unfold process_expirations. destruct dry_run; [done|].
    cbv zeta. cbn [snd].
    match goal with
    | |- keys_match (if ?b then _ else _) => destruct b
    end; [apply keys_match_audit|];
      (apply keys_match_fmap_datasets;
       [intros d; unfold expire_dataset;
        by destruct (dataset_expiring now d)|]);
      (apply keys_match_fmap_volumes; [|done]);
      intros v; unfold expire_volume; by destruct (volume_expiring now v).
  - destruct (rebuild_indices_fields s) as (Hvol & Hds & _).
    by apply (keys_match_maps s).
Qed.

End keys.

(** X29: after any sequence of mutating operations on a new engine every
    volume is stored under its own serial and every dataset under its own
    name, and every such key passes the validation of its kind. *)
Theorem records_stored_under_own_key (cfg : Configuration)
    (ops : list (CatalogOp + MaintenanceOp)) :
  let s := foldl (apply_any cfg) TMSSystem.empty ops in
  (∀ key v, TMSSystem.volumes_ s !! key = Some v →
     TapeVolume.volser v = key ∧ validate_volser key = true)
  ∧ (∀ name d, TMSSystem.datasets_ s !! name = Some d →
       Dataset.name d = name ∧ validate_dataset_name name = true).
Proof.
  intros s. subst s.
  cut (keys_match (foldl (apply_any cfg) TMSSystem.empty ops)); [done|].
  induction ops as [|op ops IH] using rev_ind.
  - split; apply map_Forall_empty.
  - rewrite foldl_app. simpl. destruct op as [op|op]; simpl.
    + by apply apply_op_keys_match.
    + by apply apply_maintenance_keys_match.
Qed.

(** ** Owners and pools in use *)

Section in_use.

Import TMSSystem.

Implicit Types (s : TMSSystem.t) (idx : SecondaryIndex.t).

Lemma index_inhabited_empty : index_inhabited ∅.
Proof. intros val keys. by rewrite lookup_empty. Qed.

Lemma index_inhabited_update old_value new_value key idx :
  index_inhabited idx →
  index_inhabited (SecondaryIndex.update old_value new_value key idx).
Proof. intros. by apply index_inhabited_add, index_inhabited_remove. Qed.

Lemma index_inhabited_fold_add {V} (f : V → string)
    (es : list (string * V)) idx :
  index_inhabited idx →
  index_inhabited (foldl (λ idx e, SecondaryIndex.add (f e.2) e.1 idx) idx es).
Proof.
  revert idx. induction es as [|e es IH]; intros idx Hidx; [done|].
  simpl. by apply IH, index_inhabited_add.
Qed.

(** The owner index and the pool index hold no empty entry. *)
Lemma apply_op_inhabited cfg s op :
  index_inhabited (volume_owner_index_ s)
  ∧ index_inhabited (volume_pool_index_ s) →
  index_inhabited (volume_owner_index_ (apply_op cfg s op))
  ∧ index_inhabited (volume_pool_index_ (apply_op cfg s op)).
Proof.
  intros [Ho Hp]. destruct op; simpl.
  - destruct (add_volume cfg now volume s) as [[u|e] s'] eqn:Hop; simpl.
    + apply add_volume_ok in Hop as (_ & _ & _ & _ & _ & -> & -> & _).
      split; by apply index_inhabited_add.
    + by apply add_volume_err in Hop as ->.
  - destruct (update_volume now volume s) as [[u|e] s'] eqn:Hop; simpl.
    + apply update_volume_ok in Hop as (old & _ & _ & _ & -> & -> & _).
      split; case_decide; try done; by apply index_inhabited_update.
    + by apply update_volume_err in Hop as ->.
  - destruct (delete_volume now volser force s) as [[u|e] s'] eqn:Hop; simpl.
    + apply delete_volume_ok
        in Hop as (v & _ & _ & _ & _ & _ & -> & -> & _).
      split; by apply index_inhabited_remove.
    + by apply delete_volume_err in Hop as ->.
  - destruct (add_dataset cfg now dataset s) as [[u|e] s'] eqn:Hop; simpl.
    + by apply add_dataset_ok
        in Hop as (_ & _ & v & _ & _ & _ & -> & -> & _).
    + by apply add_dataset_err in Hop as ->.
  - destruct (update_dataset now dataset s) as [[u|e] s'] eqn:Hop; simpl.
    + by apply update_dataset_ok in Hop as (old & _ & _ & _ & -> & -> & _).
    + by apply update_dataset_err in Hop as ->.
  - destruct (delete_dataset now name s) as [[u|e] s'] eqn:Hop; simpl.
    + by apply delete_dataset_ok in Hop as (ds & _ & _ & _ & -> & -> & _).
    + by apply delete_dataset_err in Hop as ->.
Qed.

Lemma apply_maintenance_inhabited s op :
  index_inhabited (volume_owner_index_ s)
  ∧ index_inhabited (volume_pool_index_ s) →
  index_inhabited (volume_owner_index_ (apply_maintenance s op))
  ∧ index_inhabited (volume_pool_index_ (apply_maintenance s op)).
Proof.
  intros [Ho Hp]. destruct op; simpl.
  - unfold remove_volume_tag. by destruct (volumes_ s !! volser).
  - unfold remove_dataset_tag. by destruct (datasets_ s !! name).
  - unfold move_volume_to_pool.
    destruct (volumes_ s !! volser); [|done]. simpl.
    split; [done|]. by apply index_inhabited_update.
  - unfold clone_volume. destruct (negb _); [done|].
    destruct (volumes_ s !! source_volser); [|done].
    case_decide; [done|]. simpl. split; by apply index_inhabited_add.
  - unfold reserve_volume. destruct (volumes_ s !! volser); [|done].
    by destruct (_ && _).
  - unfold release_volume. destruct (volumes_ s !! volser); [|done].
    destruct (negb _); [done|]. by destruct (negb _).
  - unfold extend_reservation. destruct (volumes_ s !! volser); [|done].
    by destruct (_ || _).
  - unfold cleanup_expired_reservations. simpl. by destruct (_ <? _)%N.
  - unfold scratch_volume. destruct (volumes_ s !! volser) as [v|]; [|done].
    case_decide; [done|]. simpl.
    pose proof (cascade_fields s (TapeVolume.datasets v))
      as (_ & -> & -> & _). done.
  - unfold set_volume_offline. destruct (volumes_ s !! volser); [|done].
    by case_decide.
  - unfold set_volume_online. destruct (volumes_ s !! volser); [|done].
    by case_decide.
  - unfold allocate_scratch_volume.
    by destruct (scan_scratch _ _ _ _) as [[k v]|].
  - unfold process_expirations. destruct dry_run; [done|]. simpl.
    by destruct (_ <? _)%N.
  - destruct (rebuild_indices_fields s) as (_ & _ & _ & _ & -> & -> & _).
    split; apply index_inhabited_fold_add, index_inhabited_empty.
Qed.

(** The values an agreeing index without empty entries lists are the
    non-empty values some record carries. *)
Lemma get_all_values_in_use {V} (f : V → string) (m : gmap string V) idx val :
  index_agrees (λ r, {[f r]}) m idx → index_inhabited idx →
  val ∈ SecondaryIndex.get_all_values idx
  ↔ val ≠ "" ∧ ∃ key r, m !! key = Some r ∧ f r = val.
Proof.
  intros Hagree Hinh. unfold SecondaryIndex.get_all_values.
  rewrite elem_of_sorted_elements, elem_of_dom. split.
  - intros [keys Hkeys]. destruct (Hinh _ _ Hkeys) as [Hne Hval].
    apply set_choose_L in Hne as [key Hkey]. split; [done|].
    assert (key ∈ SecondaryIndex.find val idx) as Hin.
    { unfold SecondaryIndex.find. by rewrite Hkeys. }
    apply Hagree in Hin as (_ & r & Hr & Hin).
    exists key, r. split; [done|]. set_solver.
  - intros (Hval & key & r & Hr & Hf).
    assert (key ∈ SecondaryIndex.find val idx) as Hin.
    { apply Hagree. split; [done|]. exists r. split; [done|]. set_solver. }
    unfold SecondaryIndex.find in Hin.
    destruct (idx !! val) as [keys|]; [by eexists|]. set_solver.
Qed.

End in_use.

(** X30: after any sequence of mutating operations on a new engine,
    [get_all_owners] and [get_pool_names] list exactly the non-empty owners
    and pools that some catalogued volume carries, each once and in
    ascending order. *)
Theorem owners_and_pools_in_use (cfg : Configuration)
    (ops : list (CatalogOp + MaintenanceOp)) :
  let s := foldl (apply_any cfg) TMSSystem.empty ops in
  (∀ owner, owner ∈ TMSSystem.get_all_owners s
            ↔ owner ≠ ""
              ∧ ∃ key v, TMSSystem.volumes_ s !! key = Some v
                         ∧ TapeVolume.owner v = owner)
  ∧ (∀ pool, pool ∈ TMSSystem.get_pool_names s
             ↔ pool ≠ ""
               ∧ ∃ key v, TMSSystem.volumes_ s !! key = Some v
                          ∧ TapeVolume.pool v = pool)
  ∧ StronglySorted String.le (TMSSystem.get_all_owners s)
  ∧ NoDup (TMSSystem.get_all_owners s)
  ∧ StronglySorted String.le (TMSSystem.get_pool_names s)
  ∧ NoDup (TMSSystem.get_pool_names s).
Proof.
  intros s.
  destruct (any_run_consistent cfg ops TMSSystem.empty index_consistent_empty)
    as [Ho Hp _ _ _]. fold s in Ho, Hp.
  assert (index_inhabited (TMSSystem.volume_owner_index_ s)
          ∧ index_inhabited (TMSSystem.volume_pool_index_ s)) as [Hio Hip].
  { clear Ho Hp. subst s. induction ops as [|op ops IH] using rev_ind.
    - split; apply index_inhabited_empty.
    - rewrite foldl_app. simpl. destruct op as [op|op]; simpl.
      + by apply apply_op_inhabited.
      + by apply apply_maintenance_inhabited. }
  unfold TMSSystem.get_all_owners, TMSSystem.get_pool_names.
  split_and!.
  - intros owner. by apply (get_all_values_in_use TapeVolume.owner).
  - intros pool. by apply (get_all_values_in_use TapeVolume.pool).
  - apply sorted_elements_sorted.
  - apply NoDup_sorted_elements.
  - apply sorted_elements_sorted.
  - apply NoDup_sorted_elements.
Qed.
